(** * headless-mde: the cursor engine and the keyboard-shortcut matcher

    A shallow embedding of [lib/Cursor.ts], [lib/keyboardShortcuts.ts] and
    the helpers of [lib/utils.ts] they call, followed by the properties the
    specification states about them.

    Modelling conventions.
    - A JavaScript string is the list of its UTF-16 code units ([list N]).
      The string methods used by the code ([length], [slice], [indexOf],
      [lastIndexOf], [includes], [split], [replace] with a global
      one-character pattern) only compare and count code units.
    - A JavaScript number that holds an offset, an index or a line number is
      an integer ([Z]); [null] and [undefined] results are [None].
    - The text control is a record; the methods of [Cursor] take the record
      and return the updated one.  The behaviour of the text control's
      setters and of [document.execCommand] belongs to the host and is
      described in [Module Dom]. *)

From stdpp Require Import base tactics option list gmap strings.
From Stdlib Require Import ZArith Lia DecimalString.

Local Open Scope Z_scope.

(** ** JavaScript strings *)

Module JS.

Abbreviation jsstring := (list N).

(** [s.length] *)
Definition len (s : jsstring) : Z := Z.of_nat (length s).

(** A string literal, code unit by code unit (ASCII literals only). *)
Definition lit (s : string) : jsstring :=
  (λ a, Ascii.N_of_ascii a) <$> String.list_ascii_of_string s.

(** Relative index resolution shared by both arguments of [slice]: a
    negative index counts from the end, and the result is clamped to
    [0, length]. *)
Definition relIndex (n k : Z) : Z :=
  if k <? 0 then Z.max (n + k) 0 else Z.min k n.

(** [s.slice(a, b)] *)
Definition slice (s : jsstring) (a b : Z) : jsstring :=
  let from := relIndex (len s) a in
  let to := relIndex (len s) b in
  take (Z.to_nat (to - from)) (drop (Z.to_nat from) s).

(** [s.slice(a)] *)
Definition sliceFrom (s : jsstring) (a : Z) : jsstring :=
  drop (Z.to_nat (relIndex (len s) a)) s.

(** Whether [pat] is a prefix of [s]. *)
Fixpoint startsWith (pat s : jsstring) : bool :=
  match pat, s with
  | [], _ => true
  | _ :: _, [] => false
  | p :: pat', c :: s' => (p =? c)%N && startsWith pat' s'
  end.

(** The search of [s.indexOf(pat)], [i] being the index of the head of [s]
    in the whole string; [-1] when there is no occurrence. *)
Fixpoint indexOfFrom (pat s : jsstring) (i : Z) : Z :=
  if startsWith pat s then i
  else match s with
       | [] => -1
       | _ :: s' => indexOfFrom pat s' (i + 1)
       end.

(** [s.indexOf(pat)] *)
Definition indexOf (s pat : jsstring) : Z := indexOfFrom pat s 0.

(** The search of [s.lastIndexOf(pat)]: the greatest index at which [pat]
    occurs, [-1] when there is none. *)
Fixpoint lastIndexOfFrom (pat s : jsstring) (i : Z) : Z :=
  match s with
  | [] => if startsWith pat [] then i else -1
  | _ :: s' =>
      let later := lastIndexOfFrom pat s' (i + 1) in
      if later =? -1 then (if startsWith pat s then i else -1) else later
  end.

(** [s.lastIndexOf(pat)] *)
Definition lastIndexOf (s pat : jsstring) : Z := lastIndexOfFrom pat s 0.

(** [s.includes(pat)] *)
Definition includes (s pat : jsstring) : bool := negb (indexOf s pat =? -1).

(** [s.replace(new RegExp(c, 'g'), '')] for a pattern made of the single
    ordinary code unit [c]: every occurrence of [c] is dropped. *)
Definition removeAll (c : N) (s : jsstring) : jsstring :=
  filter (λ x, x ≠ c) s.

(** [s.split(sep)] for a one-code-unit separator.  The result is never
    empty: the empty string splits into one empty segment. *)
Fixpoint split (sep : N) (s : jsstring) : list jsstring :=
  match s with
  | [] => [[]]
  | c :: s' =>
      if (c =? sep)%N then [] :: split sep s'
      else match split sep s' with
           | seg :: segs => (c :: seg) :: segs
           | [] => [[c]]
           end
  end.

(** [arr.reduce(f, init)], the callback receiving the accumulator, the
    element and its index; [i] is the index of the head of [arr]. *)
Fixpoint reduceFrom {A B} (f : B → A → Z → B) (arr : list A) (i : Z) (acc : B) : B :=
  match arr with
  | [] => acc
  | x :: rest => reduceFrom f rest (i + 1) (f acc x i)
  end.

Definition reduce {A B} (f : B → A → Z → B) (arr : list A) (init : B) : B :=
  reduceFrom f arr 0 init.

(** [arr.join(sep)] *)
Fixpoint join (sep : jsstring) (arr : list jsstring) : jsstring :=
  match arr with
  | [] => []
  | seg :: rest =>
      match rest with
      | [] => seg
      | _ :: _ => seg ++ sep ++ join sep rest
      end
  end.

(** [arr.map(f)], the callback receiving the element and its index; [i] is
    the index of the head of [arr]. *)
Fixpoint mapFrom {A B} (f : A → Z → B) (arr : list A) (i : Z) : list B :=
  match arr with
  | [] => []
  | x :: rest => f x i :: mapFrom f rest (i + 1)
  end.

Definition mapIndexed {A B} (f : A → Z → B) (arr : list A) : list B :=
  mapFrom f arr 0.

(** [Number(b)] for a boolean. *)
Definition Number (b : bool) : Z := if b then 1 else 0.

(** [String(n)] for an integer number. *)
Definition numberToString (n : Z) : jsstring :=
  lit (NilEmpty.string_of_int (Z.to_int n)).

End JS.

Import JS.

(** ** The host: a text control

    The record holds what the code reads and writes on an
    [HTMLTextAreaElement].  The setters follow the HTML standard: an offset
    is an [unsigned long], it is capped at the length of the text, and a
    start beyond the end collapses the selection.  The text a script reads
    from a text control has its line breaks normalised: whatever text is
    assigned or inserted, the control holds it with every CR LF pair and
    every remaining CR turned into LF, so that the text of a text control
    never holds a carriage return. *)

Module Dom.

Inductive SelectionDirectionType := backward | forward | none.

Record TextArea := mkTextArea {
  value : jsstring;
  selectionStart : Z;
  selectionEnd : Z;
  selectionDirection : SelectionDirectionType;
  scrollTop : Z;
}.

(** Conversion of a number to [unsigned long], for arguments of magnitude
    below 2^32: a negative argument wraps around. *)
Definition toUnsignedLong (x : Z) : Z := if x <? 0 then x + 2 ^ 32 else x.

(** "Set the selection range" of the HTML standard: offsets beyond the text
    point at its end; if the end is not after the start both are placed at
    the end. *)
Definition setTheSelectionRange (start end_ : Z) (dir : SelectionDirectionType)
    (el : TextArea) : TextArea :=
  let n := len (value el) in
  let s := Z.min start n in
  let e := Z.min end_ n in
  {| value := value el;
     selectionStart := if e <=? s then e else s;
     selectionEnd := e;
     selectionDirection := dir;
     scrollTop := scrollTop el |}.

(** [el.selectionStart = x] *)
Definition setSelectionStart (x : Z) (el : TextArea) : TextArea :=
  let x := toUnsignedLong x in
  let end_ := if selectionEnd el <? x then x else selectionEnd el in
  setTheSelectionRange x end_ (selectionDirection el) el.

(** [el.selectionEnd = x] *)
Definition setSelectionEnd (x : Z) (el : TextArea) : TextArea :=
  setTheSelectionRange (selectionStart el) (toUnsignedLong x) (selectionDirection el) el.

(** [el.setSelectionRange(start, end)], without a direction. *)
Definition setSelectionRange (start end_ : Z) (el : TextArea) : TextArea :=
  setTheSelectionRange (toUnsignedLong start) (toUnsignedLong end_) none el.

(** The code units of the carriage return and of the line feed. *)
Definition carriageReturn : N := 13%N.
Definition lineFeed : N := 10%N.

(** The normalisation of line breaks of the HTML standard: every CR LF
    pair, and then every remaining CR, is replaced by one LF. *)
Fixpoint normalizeNewlines (s : jsstring) : jsstring :=
  match s with
  | [] => []
  | c :: rest =>
      if (c =? carriageReturn)%N then
        match rest with
        | d :: rest' =>
            if (d =? lineFeed)%N then lineFeed :: normalizeNewlines rest'
            else lineFeed :: normalizeNewlines rest
        | [] => [lineFeed]
        end
      else c :: normalizeNewlines rest
  end.

(** [el.value = v]: the control holds [v] with its line breaks normalised;
    when the text it holds changes the caret moves to its end. *)
Definition setValue (v : jsstring) (el : TextArea) : TextArea :=
  let text := normalizeNewlines v in
  if decide (text = value el) then el
  else {| value := text;
          selectionStart := len text;
          selectionEnd := len text;
          selectionDirection := none;
          scrollTop := scrollTop el |}.

(** [el.scrollTop = y], for an offset within the scrollable range of the
    control (the host brings any other offset back into that range, which
    the record does not hold). *)
Definition setScrollTop (y : Z) (el : TextArea) : TextArea :=
  {| value := value el;
     selectionStart := selectionStart el;
     selectionEnd := selectionEnd el;
     selectionDirection := selectionDirection el;
     scrollTop := y |}.

(** What the program cannot see in its own text: the environment it runs
    in.  [nodeEnvIsTest] is [process.env.NODE_ENV === 'test'];
    [insertTextWorks el v] says that [document.execCommand] exists and that
    [execCommand('insertText', false, v)] on [el] returns [true] (it is
    [false] when the command is missing, throws or reports failure);
    [scrollAfterInsert] is where the host leaves the scroll offset after
    such an insertion. *)
Record Host := mkHost {
  nodeEnvIsTest : bool;
  insertTextWorks : TextArea → jsstring → bool;
  scrollAfterInsert : TextArea → Z;
}.

(** The effect of a successful [execCommand('insertText', false, v)]: the
    selected range is replaced by [v], the control holds the result with
    its line breaks normalised, and the caret is left after the inserted
    text, before what followed the selection. *)
Definition execInsertText (host : Host) (v : jsstring) (el : TextArea) : TextArea :=
  let s := selectionStart el in
  let e := selectionEnd el in
  let after := drop (Z.to_nat e) (value el) in
  let text := normalizeNewlines (take (Z.to_nat s) (value el) ++ v ++ after) in
  {| value := text;
     selectionStart := len text - len after;
     selectionEnd := len text - len after;
     selectionDirection := none;
     scrollTop := scrollAfterInsert host el |}.

(** A text control as the host keeps it: the selection lies in the text. *)
Definition wellFormed (el : TextArea) : Prop :=
  0 ≤ selectionStart el ∧ selectionStart el ≤ selectionEnd el
  ∧ selectionEnd el ≤ len (value el).

End Dom.

Import Dom.

(** ** lib/utils.ts *)

Module Utils.

(** [metaCombination(...keys)] *)
Definition metaCombination (keys : list jsstring) : list jsstring :=
  [lit "command+" ++ join (lit "+") keys; lit "ctrl+" ++ join (lit "+") keys].

(** [clamp(val, min, max)], on integers. *)
Definition clamp (val min max : Z) : Z := Z.min (Z.max min val) max.

(** The loop of [findLast]: [curIndex] counts down from the length of the
    array, and the element at the decremented index is tested. *)
Fixpoint findLastFrom {T} (array : list T) (predicate : T → Z → list T → bool)
    (curIndex : nat) : option T :=
  match curIndex with
  | O => None
  | S k =>
      match array !! k with
      | Some x =>
          if predicate x (Z.of_nat k) array then Some x
          else findLastFrom array predicate k
      | None => findLastFrom array predicate k
      end
  end.

(** [findLast(array, predicate)] *)
Definition findLast {T} (array : list T) (predicate : T → Z → list T → bool) : option T :=
  findLastFrom array predicate (length array).

(** The code units of the character class of [escapeRegExp]:
    [. * + ? ^ $ { } ( ) | [ ]] and the backslash. *)
Definition backslash : N := 92%N.
Definition regExpSpecials : jsstring := lit ".*+?^${}()|[]" ++ [backslash].

(** [escapeRegExp(str)]: every code unit of the class is replaced by a
    backslash followed by itself. *)
Definition escapeRegExp (str : jsstring) : jsstring :=
  concat ((λ c, if bool_decide (c ∈ regExpSpecials) then [backslash; c] else [c]) <$> str).

(** [isBtwOrEq(value, a, b)] *)
Definition isBtwOrEq (value a b : Z) : bool :=
  (value >=? Z.min a b) && (value <=? Z.max a b).

Section WithHost.
Variable host : Host.

(** [fireInput(input, value, selectionStart?, selectionEnd?)].  The
    listeners of the dispatched [input] event are outside the model. *)
Definition fireInput (input : TextArea) (value : jsstring)
    (selectionStart selectionEnd : option Z) : TextArea :=
  let start := default 0 selectionStart in
  let end_ := default (len (Dom.value input)) selectionEnd in
  let input := setSelectionStart start input in
  let input := setSelectionEnd end_ input in
  let isSuccess := insertTextWorks host input value in
  let input :=
    if isSuccess then execInsertText host value input
    else
      let newValue :=
        slice (Dom.value input) 0 start ++ value ++ sliceFrom (Dom.value input) end_ in
      setValue newValue input in
  let newCursorPos := start + len value in
  let input := setSelectionStart newCursorPos input in
  setSelectionEnd newCursorPos input.

End WithHost.

End Utils.

Import Utils.

(** ** lib/Cursor.ts *)

Module Line.
Record t := mk {
  text : jsstring;
  lineNumber : Z;
  startsAt : Z;
  endsAt : Z;
}.
End Line.

Module Selection.
Record t := mk {
  lines : list Line.t;
  text : jsstring;
  selectionStart : Z;
  selectionEnd : Z;
  selectionDirection : SelectionDirectionType;
}.
End Selection.

Module Position.
(** [line] is the result of [Array.prototype.find], which the code asserts
    to be defined; [None] is the case in which it is not. *)
Record t := mk {
  line : option Line.t;
  cursorAt : Z;
}.
End Position.

(** The result of [execRaw]. *)
Module Raw.
Record t := mk {
  text : jsstring;
  selectionStart : option Z;
  selectionEnd : option Z;
}.
End Raw.

Module Cursor.

(** The code unit U+0000 and the one-unit string [MARKER]. *)
Definition markerUnit : N := 0%N.
Definition MARKER : jsstring := [markerUnit].

(** The code unit of ['\n']. *)
Definition newline : N := 10%N.

Record WrapOptions := mkWrapOptions {
  unwrap : option bool;
  placeholder : option jsstring;
}.

Inductive DefaultBehavior := TO_START | TO_END | SELECT_ALL.

(** The callback of the [reduce] in [lines].  The accumulator is paired
    with [currentLength], the variable the callback closes over. *)
Definition linesStep (arr : list jsstring) (acc : list Line.t * Z)
    (content : jsstring) (index : Z) : list Line.t * Z :=
  let '(lines, currentLength) := acc in
  let lineNumber := index + 1 in
  let isLastLine := index =? Z.of_nat (length arr) - 1 in
  let lineLength := len content + Number (negb isLastLine) in
  let startsAt := currentLength in
  let endsAt := startsAt + lineLength - Number (negb isLastLine) in
  let currentLength := currentLength + lineLength in
  (lines ++ [Line.mk content lineNumber startsAt endsAt], currentLength).

(** [get lines()] *)
Definition lines (el : TextArea) : list Line.t :=
  let arr := split newline (value el) in
  fst (reduce (linesStep arr) arr ([], 0)).

(** The predicate of the [filter] in [selection]. *)
Definition lineIsSelected (selectionStart selectionEnd : Z) (line : Line.t) : bool :=
  isBtwOrEq selectionStart (Line.startsAt line) (Line.endsAt line)
  || isBtwOrEq selectionEnd (Line.startsAt line) (Line.endsAt line)
  || isBtwOrEq (Line.startsAt line) selectionStart selectionEnd
  || isBtwOrEq (Line.endsAt line) selectionStart selectionEnd.

(** [get selection()] *)
Definition selection (el : TextArea) : option Selection.t :=
  let selectionStart := Dom.selectionStart el in
  let selectionEnd := Dom.selectionEnd el in
  let selectionDirection := Dom.selectionDirection el in
  let text := slice (value el) selectionStart selectionEnd in
  let lines := List.filter (lineIsSelected selectionStart selectionEnd) (lines el) in
  if selectionStart =? selectionEnd then None
  else Some (Selection.mk lines text selectionStart selectionEnd selectionDirection).

(** [get position()] *)
Definition position (el : TextArea) : Position.t :=
  let position := Dom.selectionStart el in
  let line :=
    List.find (λ line, (position >=? Line.startsAt line) && (position <=? Line.endsAt line))
      (lines el) in
  Position.mk line position.

(** [lineAt(lineNumber)]: [this.lines[lineNumber - 1] ?? null] *)
Definition lineAt (el : TextArea) (lineNumber : Z) : option Line.t :=
  let i := lineNumber - 1 in
  if i <? 0 then None else lines el !! Z.to_nat i.

(** [normalizeSelection(text, defaultBehavior = 'TO_END')] *)
Definition normalizeSelection (text : jsstring) (defaultBehavior : DefaultBehavior) : jsstring :=
  if includes text MARKER then text
  else match defaultBehavior with
       | TO_START => MARKER ++ text
       | TO_END => text ++ MARKER
       | SELECT_ALL => MARKER ++ text ++ MARKER
       end.

(** [execRaw(text)] *)
Definition execRaw (text : jsstring) : Raw.t :=
  let fIndex := indexOf text MARKER in
  let lIndex := lastIndexOf text MARKER in
  let text :=
    if negb (fIndex =? -1) && negb (lIndex =? -1) then removeAll markerUnit text
    else text in
  let '(selectionStart, selectionEnd) :=
    if negb (fIndex =? -1)
    then (Some fIndex,
          if (lIndex =? -1) || (lIndex =? fIndex) then None else Some (lIndex - 1))
    else (None, None) in
  Raw.mk text selectionStart selectionEnd.

(** [this.selection?.selectionStart ?? this.position.cursorAt] and its
    counterpart for the end, as [wrap] and [isSelectedWrappedWith] read
    them. *)
Definition currentStart (el : TextArea) : Z :=
  match selection el with
  | Some sel => Selection.selectionStart sel
  | None => Position.cursorAt (position el)
  end.

Definition currentEnd (el : TextArea) : Z :=
  match selection el with
  | Some sel => Selection.selectionEnd sel
  | None => Position.cursorAt (position el)
  end.

(** [Array.isArray(markup) ? markup : [markup, markup]] *)
Definition markupPair (markup : jsstring + jsstring * jsstring) : jsstring * jsstring :=
  match markup with
  | inl m => (m, m)
  | inr both => both
  end.

(** [isSelectedWrappedWith(markup)] *)
Definition isSelectedWrappedWith (el : TextArea)
    (markup : jsstring + jsstring * jsstring) : bool :=
  let '(prefix, suffix) := markupPair markup in
  let start := currentStart el in
  let end_ := currentEnd el in
  if (start - len prefix <? 0) || (end_ - 1 + len suffix >? len (value el) - 1)
  then false
  else
    let curPrefix := slice (value el) (start - len prefix) start in
    let curSuffix := slice (value el) end_ (end_ + len suffix) in
    bool_decide (curPrefix = prefix) && bool_decide (curSuffix = suffix).

(** The argument of [select]: a range, or offsets relative to the current
    selection. *)
Inductive SelectOptions :=
  | SelectRange (start end_ : Z)
  | SelectRelative (fromCurrentStart fromCurrentEnd : Z).

(** [select(options)] *)
Definition select (el : TextArea) (options : SelectOptions) : TextArea :=
  match options with
  | SelectRange start end_ => setSelectionRange start end_ el
  | SelectRelative fromCurrentStart fromCurrentEnd =>
      setSelectionRange (Dom.selectionStart el + fromCurrentStart)
        (Dom.selectionEnd el + fromCurrentEnd) el
  end.

Record ReplaceOptions := mkReplaceOptions {
  selectReplaced : option bool;
}.

Section WithHost.
Variable host : Host.

(** The statement shared by [insert], [replaceLine] and [wrap]: the
    selection is set only when [execRaw] returned both ends. *)
Definition placeSelection (offset : Z) (data : Raw.t) (el : TextArea) : TextArea :=
  match Raw.selectionStart data, Raw.selectionEnd data with
  | Some dataStart, Some dataEnd =>
      setSelectionEnd (offset + dataEnd) (setSelectionStart (offset + dataStart) el)
  | _, _ => el
  end.

(** [insertAtCursor(content)] *)
Definition insertAtCursor (el : TextArea) (content : jsstring) : TextArea :=
  let cursorAt := Position.cursorAt (position el) in
  let normalizedContent := normalizeSelection content TO_END in
  let data := execRaw normalizedContent in
  let el :=
    if nodeEnvIsTest host then
      let newValue :=
        slice (value el) 0 cursorAt ++ Raw.text data ++ sliceFrom (value el) cursorAt in
      setValue newValue el
    else fireInput host el (Raw.text data) (Some cursorAt) (Some cursorAt) in
  match Raw.selectionStart data with
  | Some dataStart =>
      setSelectionEnd (cursorAt + default dataStart (Raw.selectionEnd data))
        (setSelectionStart (cursorAt + dataStart) el)
  | None => el
  end.

(** [insert(content)] *)
Definition insert (el : TextArea) (content : jsstring) : TextArea :=
  let normalizedContent := normalizeSelection content TO_END in
  match selection el with
  | None => insertAtCursor el content
  | Some sel =>
      let start := Selection.selectionStart sel in
      let end_ := Selection.selectionEnd sel in
      let data := execRaw normalizedContent in
      let el :=
        if nodeEnvIsTest host then
          let newValue :=
            slice (value el) 0 start ++ Raw.text data ++ sliceFrom (value el) end_ in
          setValue newValue el
        else fireInput host el (Raw.text data) (Some start) (Some end_) in
      let offset := start in
      placeSelection offset data el
  end.

(** [replace(searchText, replacement)] *)
Definition replace (el : TextArea) (searchText replacement : jsstring) : TextArea :=
  let searchStart := indexOf (value el) searchText in
  if searchStart =? -1 then el
  else
    let searchEnd := searchStart + len searchText in
    let savedScrollTop := scrollTop el in
    let el := fireInput host el replacement (Some searchStart) (Some searchEnd) in
    setScrollTop savedScrollTop el.

(** [replaceLine(lineNumber, content)].  The second component of the state
    is what has been written with [console.error]. *)
Definition replaceLine (st : TextArea * list jsstring) (lineNumber : Z)
    (content : option jsstring) : TextArea * list jsstring :=
  let '(el, console) := st in
  match lineAt el lineNumber with
  | None =>
      (el, console ++ [lit "Unknown line number: " ++ numberToString lineNumber])
  | Some line =>
      let start := Line.startsAt line in
      let end_ := Line.endsAt line in
      match content with
      | None =>
          let data := execRaw [] in
          let el := fireInput host el (Raw.text data) (Some (start - 1)) (Some end_) in
          match Raw.selectionStart data with
          | Some dataStart =>
              (setSelectionEnd (start - 1 + dataStart)
                 (setSelectionStart (start - 1 + dataStart) el), console)
          | None => (el, console)
          end
      | Some content =>
          let data := execRaw (normalizeSelection content TO_END) in
          let el := fireInput host el (Raw.text data) (Some start) (Some end_) in
          (placeSelection start data el, console)
      end
  end.

(** [wrap(markup, options?)] *)
Definition wrap (el : TextArea) (markup : jsstring + jsstring * jsstring)
    (options : option WrapOptions) : TextArea :=
  let unwrap := default true (options ≫= unwrap) in
  let placeholder := default [] (options ≫= placeholder) in
  let '(prefix, suffix) := markupPair markup in
  let text := value el in
  let start := currentStart el in
  let end_ := currentEnd el in
  if isSelectedWrappedWith el markup && unwrap then
    let unwrappedContent := MARKER ++ slice text start end_ ++ MARKER in
    let data := execRaw unwrappedContent in
    let el :=
      fireInput host el (Raw.text data) (Some (start - len prefix)) (Some (end_ + len suffix)) in
    let offset := start - len prefix in
    placeSelection offset data el
  else
    let selected := slice text start end_ in
    let wrappedContent :=
      prefix ++ MARKER ++ (if bool_decide (selected = []) then placeholder else selected)
        ++ MARKER ++ suffix in
    let data := execRaw wrappedContent in
    let el := fireInput host el (Raw.text data) (Some start) (Some end_) in
    placeSelection start data el.

(** [replaceCurrentLines(callback, options?)], for a callback that only
    computes its result.  [None] is the [TypeError] raised when [position]
    found no line, when [lineAt] returned [null], or when no line is
    selected. *)
Definition replaceCurrentLines (el : TextArea)
    (callback : Line.t → Z → list Line.t → option jsstring)
    (options : option ReplaceOptions) : option TextArea :=
  let selectReplaced := default false (options ≫= selectReplaced) in
  selectedLines ←
    match selection el with
    | Some sel => Some (Selection.lines sel)
    | None =>
        line ← Position.line (position el);
        current ← lineAt el (Line.lineNumber line);
        Some [current]
    end;
  let content :=
    join [newline]
      (omap id (mapIndexed (λ line index, callback line index selectedLines) selectedLines)) in
  first ← head selectedLines;
  final ← last selectedLines;
  let start := Line.startsAt first in
  let end_ := Line.endsAt final in
  let data :=
    execRaw (normalizeSelection content (if selectReplaced then SELECT_ALL else TO_END)) in
  let el := fireInput host el (Raw.text data) (Some start) (Some end_) in
  Some (placeSelection start data el).

End WithHost.

End Cursor.

Import Cursor.

(** ** lib/keyboardShortcuts.ts *)

Module Event.
(** The fields of a [KeyboardEvent] the matcher reads. *)
Record t := mk {
  key : jsstring;
  code : jsstring;
  ctrlKey : bool;
  metaKey : bool;
  altKey : bool;
  shiftKey : bool;
}.
End Event.

Module Shortcuts.

(** What [KEY_ALIASES[part] || part] can evaluate to: a string, or the
    object found under that name on [Object.prototype], which
    [KEY_ALIASES] inherits from. *)
Inductive Normalized :=
  | Str (s : jsstring)
  | Inherited (name : jsstring).

(** The result of [parseShortcut]. *)
Record Parsed := mkParsed {
  key : Normalized;
  modifiers : gset jsstring;
}.

(** The property names of [Object.prototype]. *)
Definition objectPrototypeKeys : list jsstring :=
  lit <$> ["constructor"; "__proto__"; "hasOwnProperty"; "isPrototypeOf";
           "propertyIsEnumerable"; "toLocaleString"; "toString"; "valueOf";
           "__defineGetter__"; "__defineSetter__"; "__lookupGetter__";
           "__lookupSetter__"]%string.

(** The code unit of ['+']. *)
Definition plus : N := 43%N.

Section WithPlatform.

(** [String.prototype.toLowerCase], a built-in. *)
Variable toLowerCase : jsstring → jsstring.
(** [navigator?.platform?.includes('Mac')] *)
Variable isMac : bool.
(** [String(Object.prototype[name])], the text an engine prints for an
    inherited property. *)
Variable inheritedToString : jsstring → jsstring.
(** The handlers are opaque to the matcher. *)
Variable Handler : Type.

Record KeyBinding := mkKeyBinding {
  shortcut : jsstring;
  handler : Handler;
}.

Definition KEY_ALIASES : gmap jsstring jsstring :=
  list_to_map
    [(lit "command", lit "meta");
     (lit "cmd", lit "meta");
     (lit "ctrl", lit "control");
     (lit "option", lit "alt");
     (lit "mod", if isMac then lit "meta" else lit "control")].

(** [KEY_ALIASES[part] || part]: every alias is a non-empty string, hence
    truthy, and so is an inherited property. *)
Definition normalize (part : jsstring) : Normalized :=
  match KEY_ALIASES !! part with
  | Some alias => Str alias
  | None =>
      if bool_decide (part ∈ objectPrototypeKeys) then Inherited part else Str part
  end.

(** [['meta', 'control', 'alt', 'shift'].includes(normalized)] *)
Definition isModifier (normalized : Normalized) : option jsstring :=
  match normalized with
  | Str s =>
      if bool_decide (s ∈ [lit "meta"; lit "control"; lit "alt"; lit "shift"])
      then Some s else None
  | Inherited _ => None
  end.

(** The body of the loop of [parseShortcut]. *)
Definition parseStep (acc : Parsed) (part : jsstring) : Parsed :=
  let normalized := normalize part in
  match isModifier normalized with
  | Some m => mkParsed (key acc) ({[ m ]} ∪ modifiers acc)
  | None => mkParsed normalized (modifiers acc)
  end.

(** [parseShortcut(shortcut)] *)
Definition parseShortcut (shortcut : jsstring) : Parsed :=
  let parts := split plus (toLowerCase shortcut) in
  foldl parseStep (mkParsed (Str []) ∅) parts.

(** [s === v] for a string [s]. *)
Definition strictEq (s : jsstring) (v : Normalized) : bool :=
  match v with
  | Str k => bool_decide (s = k)
  | Inherited _ => false
  end.

(** The text of [v] inside a template literal. *)
Definition toText (v : Normalized) : jsstring :=
  match v with
  | Str k => k
  | Inherited name => inheritedToString name
  end.

(** The [keyMatches] of [matchesShortcut]. *)
Definition keyMatches (event : Event.t) (key : Normalized) : bool :=
  let eventKey := toLowerCase (Event.key event) in
  let eventCode := toLowerCase (Event.code event) in
  strictEq eventKey key
  || strictEq eventCode key
  || bool_decide (eventCode = lit "key" ++ toText key)
  || (strictEq (lit "backspace") key
      && (bool_decide (eventKey = lit "backspace")
          || bool_decide (eventCode = lit "backspace"))).

(** [matchesShortcut(event, shortcut)] *)
Definition matchesShortcut (event : Event.t) (shortcut : jsstring) : bool :=
  let parsed := parseShortcut shortcut in
  if negb (keyMatches event (key parsed)) then false
  else
    let hasCtrl := Event.ctrlKey event in
    let hasMeta := Event.metaKey event in
    let hasAlt := Event.altKey event in
    let hasShift := Event.shiftKey event in
    let wantsCtrl := bool_decide (lit "control" ∈ modifiers parsed) in
    let wantsMeta := bool_decide (lit "meta" ∈ modifiers parsed) in
    let wantsAlt := bool_decide (lit "alt" ∈ modifiers parsed) in
    let wantsShift := bool_decide (lit "shift" ∈ modifiers parsed) in
    eqb hasCtrl wantsCtrl && eqb hasMeta wantsMeta
    && eqb hasAlt wantsAlt && eqb hasShift wantsShift.

(** The state of a [KeyboardShortcuts] object: its bindings, and whether
    its listener is attached to the element. *)
Record KeyboardShortcuts := mkKeyboardShortcuts {
  bindings : list KeyBinding;
  attached : bool;
}.

(** [new KeyboardShortcuts(element)] *)
Definition create : KeyboardShortcuts := mkKeyboardShortcuts [] true.

(** The loop of the listener over the bindings; the result is the list of
    handler calls it makes, in order. *)
Fixpoint dispatch (bs : list KeyBinding) (event : Event.t) : list (Handler * Event.t) :=
  match bs with
  | [] => []
  | binding :: rest =>
      if matchesShortcut event (shortcut binding) then [(handler binding, event)]
      else dispatch rest event
  end.

(** [this.listener(event)] *)
Definition listener (ks : KeyboardShortcuts) (event : Event.t) : list (Handler * Event.t) :=
  dispatch (bindings ks) event.

(** A [keydown] event reaching the element. *)
Definition keydown (ks : KeyboardShortcuts) (event : Event.t) : list (Handler * Event.t) :=
  if attached ks then listener ks event else [].

(** [bind(shortcut, handler)] *)
Definition bind (ks : KeyboardShortcuts) (shortcut : jsstring + list jsstring)
    (handler : Handler) : KeyboardShortcuts :=
  let shortcuts := match shortcut with inl s => [s] | inr ss => ss end in
  mkKeyboardShortcuts
    (foldl (λ bs s, bs ++ [mkKeyBinding s handler]) (bindings ks) shortcuts)
    (attached ks).

(** [reset()] *)
Definition reset (ks : KeyboardShortcuts) : KeyboardShortcuts :=
  mkKeyboardShortcuts [] false.

(** The set of modifiers held during an event, under the names
    [parseShortcut] uses. *)
Definition activeModifiers (event : Event.t) : gset jsstring :=
  (if Event.ctrlKey event then {[ lit "control" ]} else ∅)
  ∪ (if Event.metaKey event then {[ lit "meta" ]} else ∅)
  ∪ (if Event.altKey event then {[ lit "alt" ]} else ∅)
  ∪ (if Event.shiftKey event then {[ lit "shift" ]} else ∅).

End WithPlatform.

(** Lower-casing restricted to the letters A to Z. *)
Definition asciiLowerUnit (c : N) : N :=
  if ((65 <=? c) && (c <=? 90))%N then (c + 32)%N else c.

Definition asciiToLowerCase (s : jsstring) : jsstring := asciiLowerUnit <$> s.

End Shortcuts.

Import Shortcuts.

(** ** Notions used to state the properties *)

Module Notions.

(** [pat] occurs in [s] at offset [length pre]. *)
Definition occursAt (pat s pre : jsstring) : Prop := ∃ post, s = pre ++ pat ++ post.

(** An occurrence is leftmost when no occurrence starts before it. *)
Definition leftmost (pat s pre : jsstring) : Prop :=
  occursAt pat s pre ∧ ∀ pre', occursAt pat s pre' → (length pre ≤ length pre')%nat.

(** The indices at which the code unit [c] occurs in [s], in increasing
    order; [i] is the index of the head of [s]. *)
Fixpoint unitIndicesFrom (c : N) (s : jsstring) (i : Z) : list Z :=
  match s with
  | [] => []
  | x :: s' =>
      if (x =? c)%N then i :: unitIndicesFrom c s' (i + 1)
      else unitIndicesFrom c s' (i + 1)
  end.

(** The indices at which a content string holds the marker. *)
Definition markerIndices (content : jsstring) : list Z :=
  unitIndicesFrom markerUnit content 0.

(** The lines of a list of segments, the first with number [index + 1] and
    starting at [offset]: each line ends after its content, and the next
    one starts one further, past the separator. *)
Fixpoint linesFrom (index offset : Z) (segs : list jsstring) : list Line.t :=
  match segs with
  | [] => []
  | content :: rest =>
      Line.mk content (index + 1) offset (offset + len content)
      :: linesFrom (index + 1) (offset + len content + 1) rest
  end.

(** The sum of the lengths of the segments. *)
Definition contentLength (segs : list jsstring) : Z :=
  foldr (λ seg n, len seg + n) 0 segs.

(** The length of the text the segments were split from: their contents
    and one separator between two neighbours. *)
Definition joinedLength (segs : list jsstring) : Z :=
  contentLength segs + (Z.of_nat (length segs) - 1).

(** The sum of the content lengths of a list of lines. *)
Definition sumOfLengths (ls : list Line.t) : Z := contentLength (Line.text <$> ls).

(** The four-way overlap test of the selection [a, b] with a line, written
    with plain inequalities: an end of the selection lies on the line, or
    an end of the line lies in the selection. *)
Definition overlaps (a b : Z) (l : Line.t) : Prop :=
  (Line.startsAt l ≤ a ∧ a ≤ Line.endsAt l)
  ∨ (Line.startsAt l ≤ b ∧ b ≤ Line.endsAt l)
  ∨ (a ≤ Line.startsAt l ∧ Line.startsAt l ≤ b)
  ∨ (a ≤ Line.endsAt l ∧ Line.endsAt l ≤ b).

#[global] Instance overlaps_dec a b l : Decision (overlaps a b l).
Proof. unfold overlaps. apply _. Defined.

(** The text control whose text is [x ++ y ++ z] and whose selection is
    [y]. *)
Definition selecting (x y z : jsstring) (dir : SelectionDirectionType) (top : Z) : TextArea :=
  mkTextArea (x ++ y ++ z) (len x) (len x + len y) dir top.

(** The statement of C2 without its amendments, at one text control. *)
Definition wrapTwiceRestores (host : Host) (el : TextArea)
    (markup : jsstring + jsstring * jsstring) : Prop :=
  let el'' := wrap host (wrap host el markup None) markup None in
  value el'' = value el
  ∧ selectionStart el'' = selectionStart el
  ∧ selectionEnd el'' = selectionEnd el.

(** The statement of C9 without its amendments, at one text control and
    one pair of texts. *)
Definition replacesFirstOccurrence (host : Host) (el : TextArea)
    (searchText replacement : jsstring) : Prop :=
  let el' := replace host el searchText replacement in
  ((∀ pre, ¬ occursAt searchText (value el) pre) → value el' = value el)
  ∧ (∀ pre, leftmost searchText (value el) pre →
       ∀ post, value el = pre ++ searchText ++ post →
       value el' = pre ++ replacement ++ post).

(** The four modifier names. *)
Definition modifierNames : gset jsstring :=
  {[ lit "meta" ]} ∪ {[ lit "control" ]} ∪ {[ lit "alt" ]} ∪ {[ lit "shift" ]}.

(** The text that precedes a segment: the segments before it, each
    followed by the separator. *)
Definition closedSegments (sep : N) (pre : list jsstring) : jsstring :=
  concat ((λ seg, seg ++ [sep]) <$> pre).

(** The text that follows a segment: the segments after it, each preceded
    by the separator. *)
Definition openedSegments (sep : N) (post : list jsstring) : jsstring :=
  concat ((λ seg, sep :: seg) <$> post).

(** Reading an escaped string back: a backslash stands for the code unit
    that follows it. *)
Fixpoint unescape (s : jsstring) : jsstring :=
  match s with
  | [] => []
  | c :: s' =>
      if (c =? backslash)%N then
        match s' with
        | [] => [c]
        | d :: rest => d :: unescape rest
        end
      else c :: unescape s'
  end.

(** The results the callback leaves after the [null] ones are dropped, and
    the content they are joined to. *)
Definition callbackResults (callback : Line.t → Z → list Line.t → option jsstring)
    (selected : list Line.t) : list jsstring :=
  omap id (mapIndexed (λ line index, callback line index selected) selected).

(** The parts of a shortcut that are not modifiers, as [parseShortcut]
    reads them. *)
Definition keyOfPart (isMac : bool) (part : jsstring) : option Normalized :=
  match isModifier (normalize isMac part) with
  | Some _ => None
  | None => Some (normalize isMac part)
  end.

(** The modifiers held are exactly one given modifier. *)
Definition onlyModifier (event : Event.t) (ctrl meta : bool) : Prop :=
  Event.ctrlKey event = ctrl ∧ Event.metaKey event = meta
  ∧ Event.altKey event = false ∧ Event.shiftKey event = false.

(** Closes a decidable closed goal by evaluation. *)
Ltac by_evaluation :=
  try reflexivity; try (apply (bool_decide_unpack _); vm_compute; exact I).

End Notions.

Import Notions.

(** * Properties *)

(** ** Strings *)

Module JSFacts.

Lemma len_nil : len [] = 0.
Proof. reflexivity. Qed.

Lemma len_cons c (s : jsstring) : len (c :: s) = 1 + len s.
Proof. unfold len. simpl length. lia. Qed.

Lemma len_app (a b : jsstring) : len (a ++ b) = len a + len b.
Proof. unfold len. rewrite length_app. lia. Qed.

Lemma len_nonneg (s : jsstring) : 0 ≤ len s.
Proof. unfold len. lia. Qed.

Lemma len_zero (s : jsstring) : len s = 0 → s = [].
Proof. destruct s; [done | rewrite len_cons; pose proof (len_nonneg s); lia]. Qed.

Lemma relIndex_inside n k : 0 ≤ k ≤ n → relIndex n k = k.
Proof. intros H. unfold relIndex. destruct (Z.ltb_spec k 0); lia. Qed.

(** [slice] between two offsets of the string, in order. *)
Lemma slice_inside (s : jsstring) a b :
  0 ≤ a → a ≤ b → b ≤ len s →
  slice s a b = take (Z.to_nat (b - a)) (drop (Z.to_nat a) s).
Proof.
  intros Ha Hab Hb. unfold slice.
  rewrite !relIndex_inside by lia. reflexivity.
Qed.

Lemma sliceFrom_inside (s : jsstring) a :
  0 ≤ a → a ≤ len s → sliceFrom s a = drop (Z.to_nat a) s.
Proof. intros Ha Hb. unfold sliceFrom. rewrite relIndex_inside by lia. reflexivity. Qed.

Lemma slice_prefix (s : jsstring) a :
  0 ≤ a → a ≤ len s → slice s 0 a = take (Z.to_nat a) s.
Proof.
  intros Ha Hb. rewrite slice_inside by lia.
  rewrite Z.sub_0_r. reflexivity.
Qed.

(** The middle of a concatenation, read back with [slice]. *)
Lemma slice_middle (x y z : jsstring) :
  slice (x ++ y ++ z) (len x) (len x + len y) = y.
Proof.
  pose proof (len_nonneg x). pose proof (len_nonneg y). pose proof (len_nonneg z).
  rewrite slice_inside by (rewrite ?len_app; lia).
  replace (Z.to_nat (len x)) with (length x) by (unfold len; lia).
  replace (Z.to_nat (len x + len y - len x)) with (length y) by (unfold len; lia).
  rewrite drop_app_length, take_app_length. reflexivity.
Qed.

Lemma take_len_app (x y : jsstring) : take (Z.to_nat (len x)) (x ++ y) = x.
Proof.
  replace (Z.to_nat (len x)) with (length x) by (unfold len; lia).
  apply take_app_length.
Qed.

Lemma drop_len_app (x y : jsstring) : drop (Z.to_nat (len x)) (x ++ y) = y.
Proof.
  replace (Z.to_nat (len x)) with (length x) by (unfold len; lia).
  apply drop_app_length.
Qed.

(** A string is cut in three by two offsets in order. *)
Lemma cut_in_three (s : jsstring) a b :
  0 ≤ a → a ≤ b → b ≤ len s →
  ∃ x y z, s = x ++ y ++ z ∧ len x = a ∧ len y = b - a.
Proof.
  intros Ha Hab Hb.
  exists (take (Z.to_nat a) s),
    (take (Z.to_nat (b - a)) (drop (Z.to_nat a) s)),
    (drop (Z.to_nat (b - a)) (drop (Z.to_nat a) s)).
  unfold len in *. rewrite take_drop, take_drop.
  rewrite !length_take, length_drop. repeat split; lia.
Qed.

(** [startsWith] decides the prefix relation. *)
Lemma startsWith_spec (pat s : jsstring) :
  startsWith pat s = true ↔ ∃ rest, s = pat ++ rest.
Proof.
  revert s. induction pat as [|p pat IH]; intros s; simpl.
  - split; [intros _; by exists s | done].
  - destruct s as [|c s].
    + split; [done | intros [rest Hrest]; discriminate].
    + rewrite andb_true_iff, N.eqb_eq, IH. split.
      * intros [-> [rest ->]]. by exists rest.
      * intros [rest Hrest]. injection Hrest as -> ->. split; [done | by exists rest].
Qed.

Lemma occursAt_nil_iff (pat s : jsstring) :
  occursAt pat s [] ↔ startsWith pat s = true.
Proof. unfold occursAt. rewrite startsWith_spec. reflexivity. Qed.

Lemma occursAt_cons (pat s pre : jsstring) c :
  occursAt pat (c :: s) (c :: pre) ↔ occursAt pat s pre.
Proof.
  unfold occursAt. split; intros [post H]; exists post.
  - simpl in H. by injection H.
  - simpl. by rewrite H.
Qed.

Lemma occursAt_cons_inv (pat s pre : jsstring) c :
  occursAt pat (c :: s) pre → pre = [] ∨ ∃ pre', pre = c :: pre' ∧ occursAt pat s pre'.
Proof.
  intros H. destruct pre as [|d pre]; [by left | right].
  destruct H as [post H]. simpl in H. injection H as -> H.
  exists pre. split; [done | by exists post].
Qed.

(** The search of [indexOf] finds the leftmost occurrence. *)
Lemma indexOfFrom_leftmost (pat s pre : jsstring) i :
  leftmost pat s pre → indexOfFrom pat s i = i + len pre.
Proof.
  revert pre i. induction s as [|c s IH]; intros pre i [Hocc Hleft].
  - destruct Hocc as [post Hpost].
    destruct pre; [|discriminate]. simpl in Hpost.
    assert (startsWith pat [] = true) as Hsw by (apply startsWith_spec; by exists post).
    simpl. rewrite Hsw. rewrite len_nil. lia.
  - simpl. destruct (startsWith pat (c :: s)) eqn:Hsw.
    + apply occursAt_nil_iff, Hleft in Hsw. destruct pre; [|simpl in Hsw; lia].
      rewrite len_nil. lia.
    + destruct (occursAt_cons_inv _ _ _ _ Hocc) as [-> | (pre' & -> & Hocc')].
      * apply occursAt_nil_iff in Hocc. congruence.
      * rewrite (IH pre' (i + 1)), len_cons; [lia|].
        split; [done|]. intros pre'' Hocc''.
        apply (occursAt_cons _ _ _ c), Hleft in Hocc''. simpl in Hocc''. lia.
Qed.

(** The search of [indexOf] answers [-1] exactly when [pat] does not occur,
    and an offset of the string otherwise. *)
Lemma indexOfFrom_none (pat s : jsstring) i :
  (∀ pre, ¬ occursAt pat s pre) → indexOfFrom pat s i = -1.
Proof.
  revert i. induction s as [|c s IH]; intros i Hno; simpl.
  - destruct (startsWith pat []) eqn:Hsw; [|done].
    apply occursAt_nil_iff in Hsw. by apply Hno in Hsw.
  - destruct (startsWith pat (c :: s)) eqn:Hsw.
    + apply occursAt_nil_iff in Hsw. by apply Hno in Hsw.
    + apply IH. intros pre Hocc. apply (Hno (c :: pre)). by apply occursAt_cons.
Qed.

Lemma indexOfFrom_found (pat s : jsstring) i :
  indexOfFrom pat s i = -1 ∨ ∃ pre, leftmost pat s pre ∧ indexOfFrom pat s i = i + len pre.
Proof.
  revert i. induction s as [|c s IH]; intros i; simpl.
  - destruct (startsWith pat []) eqn:Hsw; [right | by left].
    exists []. rewrite len_nil. split; [|lia].
    split; [by apply occursAt_nil_iff | intros; simpl; lia].
  - destruct (startsWith pat (c :: s)) eqn:Hsw.
    + right. exists []. rewrite len_nil. split; [|lia].
      split; [by apply occursAt_nil_iff | intros; simpl; lia].
    + destruct (IH (i + 1)) as [Hnone | (pre & [Hocc Hleft] & Heq)]; [by left | right].
      exists (c :: pre). rewrite len_cons. split; [|lia].
      split; [by apply occursAt_cons|].
      intros pre' Hocc'.
      destruct (occursAt_cons_inv _ _ _ _ Hocc') as [-> | (pre'' & -> & Hocc'')].
      * apply occursAt_nil_iff in Hocc'. congruence.
      * apply Hleft in Hocc''. simpl. lia.
Qed.

Lemma indexOf_cases (s pat : jsstring) :
  (indexOf s pat = -1 ∧ ∀ pre, ¬ occursAt pat s pre)
  ∨ (∃ pre, leftmost pat s pre ∧ indexOf s pat = len pre).
Proof.
  unfold indexOf.
  destruct (indexOfFrom_found pat s 0) as [Hnone | (pre & Hleft & Heq)].
  - left. split; [done|]. intros pre Hocc.
    assert (∃ pre0, leftmost pat s pre0) as [pre0 Hleft0].
    { clear Hnone. revert pre Hocc. induction s as [|c s IH]; intros pre Hocc.
      - exists []. destruct Hocc as [post Hpost]. destruct pre; [|discriminate].
        split; [by exists post | intros; simpl; lia].
      - destruct (startsWith pat (c :: s)) eqn:Hsw.
        + exists []. split; [by apply occursAt_nil_iff | intros; simpl; lia].
        + destruct (occursAt_cons_inv _ _ _ _ Hocc) as [-> | (pre' & -> & Hocc')].
          * apply occursAt_nil_iff in Hocc. congruence.
          * destruct (IH _ Hocc') as [pre0 [Hocc0 Hleft0]].
            exists (c :: pre0). split; [by apply occursAt_cons|].
            intros pre'' Hocc''.
            destruct (occursAt_cons_inv _ _ _ _ Hocc'') as [-> | (p3 & -> & Hocc3)].
            -- apply occursAt_nil_iff in Hocc''. congruence.
            -- apply Hleft0 in Hocc3. simpl. lia. }
    pose proof (indexOfFrom_leftmost _ _ _ 0 Hleft0) as Heq.
    pose proof (len_nonneg pre0). lia.
  - right. exists pre. split; [done | lia].
Qed.

Lemma unitIndicesFrom_app c (a b : jsstring) i :
  unitIndicesFrom c (a ++ b) i = unitIndicesFrom c a i ++ unitIndicesFrom c b (i + len a).
Proof.
  revert i. induction a as [|x a IH]; intros i; simpl.
  - rewrite len_nil. by rewrite Z.add_0_r.
  - rewrite IH, len_cons.
    replace (i + 1 + len a) with (i + (1 + len a)) by lia.
    by destruct (x =? c)%N.
Qed.

Lemma unitIndicesFrom_absent c (s : jsstring) i :
  c ∉ s ↔ unitIndicesFrom c s i = [].
Proof.
  revert i. induction s as [|x s IH]; intros i; simpl.
  - split; [done | intros _; apply not_elem_of_nil].
  - rewrite not_elem_of_cons. destruct (N.eqb_spec x c) as [-> | Hne].
    + split; [intros [? _]; done | done].
    + rewrite (IH (i + 1)). split; [by intros [_ ?] | intros ?; split; [congruence | done]].
Qed.

Lemma unitIndicesFrom_lower c (s : jsstring) i x :
  x ∈ unitIndicesFrom c s i → i ≤ x.
Proof.
  revert i. induction s as [|y s IH]; intros i; simpl.
  - intros H. by apply elem_of_nil in H.
  - destruct (y =? c)%N.
    + rewrite elem_of_cons. intros [-> | H]; [lia | apply IH in H; lia].
    + intros H. apply IH in H. lia.
Qed.

(** The indices are increasing: everything after the first one is
    greater. *)
Lemma unitIndicesFrom_first c (s : jsstring) i f rest :
  unitIndicesFrom c s i = f :: rest → i ≤ f ∧ ∀ x, x ∈ rest → f < x.
Proof.
  revert i. induction s as [|y s IH]; intros i; simpl; [done|].
  destruct (y =? c)%N.
  - intros [= <- <-]. split; [lia|]. intros x Hx.
    apply unitIndicesFrom_lower in Hx. lia.
  - intros H. apply IH in H as [? ?]. split; [lia | done].
Qed.

(** [indexOf] and [lastIndexOf] of a one-unit pattern are the first and
    the last of these indices. *)
Lemma indexOfFrom_unit c (s : jsstring) i :
  indexOfFrom [c] s i = default (-1) (head (unitIndicesFrom c s i)).
Proof.
  revert i. induction s as [|x s IH]; intros i; simpl; [done|].
  rewrite andb_true_r, N.eqb_sym.
  destruct (x =? c)%N; [done | apply IH].
Qed.

Lemma lastIndexOfFrom_unit c (s : jsstring) i :
  0 ≤ i → lastIndexOfFrom [c] s i = default (-1) (last (unitIndicesFrom c s i)).
Proof.
  revert i. induction s as [|x s IH]; intros i Hi; simpl; [done|].
  rewrite andb_true_r, N.eqb_sym, IH by lia.
  destruct (unitIndicesFrom c s (i + 1)) as [|y l] eqn:Hl.
  - simpl. by destruct (x =? c)%N.
  - assert (∃ z, last (y :: l) = Some z ∧ i + 1 ≤ z) as (z & Hz & Hlow).
    { destruct (last (y :: l)) as [z|] eqn:Hz; [|by apply last_None in Hz].
      exists z. split; [done|].
      apply (unitIndicesFrom_lower c s). rewrite Hl. by apply last_Some_elem_of. }
    replace (last (if (x =? c)%N then i :: y :: l else y :: l)) with (last (y :: l))
      by (by destruct (x =? c)%N).
    rewrite Hz. simpl. destruct (Z.eqb_spec z (-1)); [lia | done].
Qed.

Lemma removeAll_absent c (s : jsstring) : c ∉ s → removeAll c s = s.
Proof.
  unfold removeAll. induction s as [|x s IH]; [done|].
  rewrite not_elem_of_cons. intros [Hne Hs].
  rewrite filter_cons_True by done. by rewrite IH.
Qed.

Lemma removeAll_app c (a b : jsstring) :
  removeAll c (a ++ b) = removeAll c a ++ removeAll c b.
Proof. unfold removeAll. apply filter_app. Qed.

Lemma removeAll_unit c : removeAll c [c] = [].
Proof. unfold removeAll. by rewrite filter_cons_False by (intros H; by apply H). Qed.

End JSFacts.

Import JSFacts.

(** ** Marker resolution *)

Module MarkerFacts.

(** What [execRaw] returns, by the list of marker indices: nothing is
    touched without a marker; otherwise every marker is removed, the start
    is the first index, and the end is one less than the last index when
    there is more than one. *)
Lemma execRaw_spec (content : jsstring) :
  execRaw content =
  match markerIndices content with
  | [] => Raw.mk content None None
  | f :: rest =>
      Raw.mk (removeAll markerUnit content) (Some f)
        (match last rest with Some l => Some (l - 1) | None => None end)
  end.
Proof.
  unfold execRaw, indexOf, lastIndexOf, MARKER, markerIndices.
  rewrite indexOfFrom_unit, lastIndexOfFrom_unit by lia.
  destruct (unitIndicesFrom markerUnit content 0) as [|f rest] eqn:Hidx; [done|].
  apply unitIndicesFrom_first in Hidx as [Hf Hrest].
  assert (default (-1) (head (f :: rest)) = f) as -> by done.
  assert (default (-1) (last (f :: rest))
          = match last rest with Some l => l | None => f end) as ->.
  { rewrite last_cons. by destruct (last rest). }
  rewrite (proj2 (Z.eqb_neq f (-1))) by lia.
  destruct (last rest) as [l|] eqn:Hl.
  - assert (f < l) by (apply Hrest; by apply last_Some_elem_of).
    rewrite (proj2 (Z.eqb_neq l (-1))), (proj2 (Z.eqb_neq l f)) by lia. done.
  - rewrite Z.eqb_refl, (proj2 (Z.eqb_neq f (-1))) by lia. done.
Qed.

Lemma markerIndices_absent (content : jsstring) :
  markerUnit ∉ content → markerIndices content = [].
Proof. apply unitIndicesFrom_absent. Qed.

Lemma markerIndices_one (a b : jsstring) :
  markerUnit ∉ a → markerUnit ∉ b → markerIndices (a ++ MARKER ++ b) = [len a].
Proof.
  intros Ha Hb. unfold markerIndices, MARKER.
  rewrite !unitIndicesFrom_app.
  rewrite (proj1 (unitIndicesFrom_absent _ _ _) Ha).
  rewrite (proj1 (unitIndicesFrom_absent _ _ _) Hb).
  simpl. done.
Qed.

Lemma markerIndices_two (a b c : jsstring) :
  markerUnit ∉ a → markerUnit ∉ b → markerUnit ∉ c →
  markerIndices (a ++ MARKER ++ b ++ MARKER ++ c) = [len a; len a + 1 + len b].
Proof.
  intros Ha Hb Hc. unfold markerIndices, MARKER.
  rewrite !unitIndicesFrom_app.
  rewrite (proj1 (unitIndicesFrom_absent _ _ _) Ha).
  rewrite (proj1 (unitIndicesFrom_absent _ _ _) Hb).
  rewrite (proj1 (unitIndicesFrom_absent _ _ _) Hc).
  simpl. try rewrite len_cons, len_nil. repeat f_equal; lia.
Qed.

Lemma removeAll_one (a b : jsstring) :
  markerUnit ∉ a → markerUnit ∉ b → removeAll markerUnit (a ++ MARKER ++ b) = a ++ b.
Proof.
  intros Ha Hb. unfold MARKER.
  by rewrite !removeAll_app, removeAll_unit, !removeAll_absent.
Qed.

Lemma removeAll_two (a b c : jsstring) :
  markerUnit ∉ a → markerUnit ∉ b → markerUnit ∉ c →
  removeAll markerUnit (a ++ MARKER ++ b ++ MARKER ++ c) = a ++ b ++ c.
Proof.
  intros Ha Hb Hc. unfold MARKER.
  by rewrite !removeAll_app, !removeAll_unit, !removeAll_absent.
Qed.

Lemma execRaw_one (a b : jsstring) :
  markerUnit ∉ a → markerUnit ∉ b →
  execRaw (a ++ MARKER ++ b) = Raw.mk (a ++ b) (Some (len a)) None.
Proof.
  intros Ha Hb.
  by rewrite execRaw_spec, markerIndices_one, removeAll_one.
Qed.

Lemma execRaw_two (a b c : jsstring) :
  markerUnit ∉ a → markerUnit ∉ b → markerUnit ∉ c →
  execRaw (a ++ MARKER ++ b ++ MARKER ++ c)
  = Raw.mk (a ++ b ++ c) (Some (len a)) (Some (len a + len b)).
Proof.
  intros Ha Hb Hc.
  rewrite execRaw_spec, markerIndices_two, removeAll_two by done.
  cbn [last]. do 2 f_equal. lia.
Qed.

(** C4.  A content string with exactly two markers, at the indices [f] and
    [l] with [f < l] (the text [a] before the first marker, [b] between
    the two and [c] after the second holding none): [execRaw] returns the
    string without the two markers, the selection start [f] and the
    selection end [l - 1]. *)
Theorem execRaw_two_markers (a b c : jsstring) (f l : Z) :
  markerUnit ∉ a → markerUnit ∉ b → markerUnit ∉ c →
  f = len a → l = len a + 1 + len b →
  let content := a ++ MARKER ++ b ++ MARKER ++ c in
  markerIndices content = [f; l] ∧ f < l
  ∧ execRaw content = Raw.mk (a ++ b ++ c) (Some f) (Some (l - 1))
  ∧ Raw.text (execRaw content) = removeAll markerUnit content.
Proof.
  intros Ha Hb Hc -> -> content. subst content.
  pose proof (len_nonneg b).
  split; [by apply markerIndices_two|]. split; [lia|].
  rewrite execRaw_two by done. split.
  - do 2 f_equal. lia.
  - by rewrite removeAll_two.
Qed.

Lemma execRaw_two_markers_witness :
  let content := lit "ab" ++ MARKER ++ lit "cde" ++ MARKER ++ lit "f" in
  markerIndices content = [2; 6] ∧ 2 < 6
  ∧ execRaw content = Raw.mk (lit "abcdef") (Some 2) (Some (6 - 1))
  ∧ Raw.text (execRaw content) = removeAll markerUnit content.
Proof.
  apply (execRaw_two_markers (lit "ab") (lit "cde") (lit "f") 2 6);
    by_evaluation.
Defined.

(** C10.  A content string without a marker: [execRaw] returns the string
    as it is with both selection ends [null], and the caret placement that
    follows a substitution then leaves the text control as the
    substitution left it. *)
Theorem execRaw_no_marker (content : jsstring) :
  markerUnit ∉ content →
  execRaw content = Raw.mk content None None
  ∧ ∀ offset el, placeSelection offset (execRaw content) el = el.
Proof.
  intros Hno.
  assert (execRaw content = Raw.mk content None None) as ->; [|done].
  by rewrite execRaw_spec, markerIndices_absent.
Qed.

Lemma execRaw_no_marker_witness :
  execRaw (lit "plain text") = Raw.mk (lit "plain text") None None
  ∧ ∀ offset el, placeSelection offset (execRaw (lit "plain text")) el = el.
Proof.
  apply (execRaw_no_marker (lit "plain text")). by_evaluation.
Defined.

End MarkerFacts.

Import MarkerFacts.

(** ** The line index *)

Module LineFacts.

Lemma contentLength_cons seg segs :
  contentLength (seg :: segs) = len seg + contentLength segs.
Proof. reflexivity. Qed.

Lemma reduce_linesStep (arr segs : list jsstring) i acc cur :
  i + Z.of_nat (length segs) = Z.of_nat (length arr) →
  fst (reduceFrom (linesStep arr) segs i (acc, cur)) = acc ++ linesFrom i cur segs.
Proof.
  revert i acc cur. induction segs as [|content rest IH]; intros i acc cur Hlen.
  - simpl. by rewrite app_nil_r.
  - cbn [reduceFrom linesStep]. rewrite IH by (simpl length in Hlen; lia).
    rewrite <- app_assoc. f_equal. cbn [app linesFrom].
    destruct rest as [|next rest].
    + simpl in Hlen. rewrite (proj2 (Z.eqb_eq _ _)) by lia.
      cbn [negb Number linesFrom]. do 2 f_equal. lia.
    + simpl length in Hlen. rewrite (proj2 (Z.eqb_neq _ _)) by lia.
      cbn [negb Number]. f_equal; [f_equal; lia | f_equal; lia].
Qed.

(** [lines] computes [linesFrom] on the segments of the text. *)
Lemma lines_linesFrom (el : TextArea) :
  lines el = linesFrom 0 0 (split newline (value el)).
Proof. unfold lines, reduce. by rewrite reduce_linesStep by lia. Qed.

Lemma split_nonempty sep (s : jsstring) : split sep s ≠ [].
Proof.
  destruct s as [|c s]; simpl; [done|].
  destruct (c =? sep)%N; [done|]. by destruct (split sep s).
Qed.

Lemma split_joinedLength sep (s : jsstring) : joinedLength (split sep s) = len s.
Proof.
  unfold joinedLength. induction s as [|c s IH]; [done|].
  rewrite len_cons. simpl split. destruct (c =? sep)%N.
  - rewrite contentLength_cons, len_nil. simpl length. lia.
  - pose proof (split_nonempty sep s) as Hne.
    destruct (split sep s) as [|seg segs]; [done|].
    rewrite !contentLength_cons, len_cons in *. simpl length in *. lia.
Qed.

Lemma linesFrom_length i o segs : length (linesFrom i o segs) = length segs.
Proof. revert i o. induction segs; intros; simpl; [done | by rewrite IHsegs]. Qed.

Lemma linesFrom_text i o segs : Line.text <$> linesFrom i o segs = segs.
Proof. revert i o. induction segs; intros; simpl; [done | by rewrite IHsegs]. Qed.

Lemma linesFrom_span i o segs l :
  l ∈ linesFrom i o segs → Line.endsAt l = Line.startsAt l + len (Line.text l).
Proof.
  revert i o. induction segs as [|content rest IH]; intros i o; simpl.
  - intros H. by apply elem_of_nil in H.
  - rewrite elem_of_cons. intros [-> | H]; [done | by apply IH in H].
Qed.

Lemma linesFrom_head i o content rest :
  head (linesFrom i o (content :: rest)) = Some (Line.mk content (i + 1) o (o + len content)).
Proof. done. Qed.

Lemma linesFrom_adjacent i o segs k l1 l2 :
  linesFrom i o segs !! k = Some l1 → linesFrom i o segs !! S k = Some l2 →
  Line.endsAt l1 + 1 = Line.startsAt l2.
Proof.
  revert i o k. induction segs as [|content rest IH]; intros i o k; [done|].
  destruct k as [|k].
  - simpl. intros [= <-]. destruct rest; [done|]. simpl. by intros [= <-].
  - cbn [linesFrom lookup list_lookup]. apply IH.
Qed.

Lemma linesFrom_last i o segs :
  segs ≠ [] →
  ∃ final, last (linesFrom i o segs) = Some final
           ∧ Line.endsAt final = o + joinedLength segs.
Proof.
  unfold joinedLength.
  revert i o. induction segs as [|content rest IH]; intros i o Hne; [done|].
  destruct rest as [|next rest].
  - eexists. split; [done|]. cbn. lia.
  - destruct (IH (i + 1) (o + len content + 1)) as (final & Hlast & Hend); [done|].
    exists final. split; [exact Hlast|].
    rewrite Hend, !contentLength_cons. simpl length. lia.
Qed.

Lemma linesFrom_number i o segs k l :
  linesFrom i o segs !! k = Some l → Line.lineNumber l = i + Z.of_nat k + 1.
Proof.
  revert i o k. induction segs as [|content rest IH]; intros i o k; [done|].
  destruct k as [|k]; simpl.
  - intros [= <-]. simpl. lia.
  - intros H. apply IH in H. lia.
Qed.

(** Every offset between the start of the first line and the end of the
    last one lies on some line. *)
Lemma linesFrom_cover i o segs p :
  segs ≠ [] → o ≤ p → p ≤ o + joinedLength segs →
  ∃ l, l ∈ linesFrom i o segs ∧ Line.startsAt l ≤ p ∧ p ≤ Line.endsAt l.
Proof.
  unfold joinedLength.
  revert i o. induction segs as [|content rest IH]; intros i o Hne Hlo Hhi; [done|].
  destruct (Z.le_gt_cases p (o + len content)) as [Hin | Hout].
  - eexists. split; [apply list_elem_of_here|]. simpl. lia.
  - destruct rest as [|next rest].
    + cbn in Hhi. lia.
    + destruct (IH (i + 1) (o + len content + 1)) as (l & Hl & Hs & He); [done | lia | |].
      * rewrite !contentLength_cons in *. simpl length in *. lia.
      * exists l. split; [by apply list_elem_of_further | done].
Qed.

Lemma lines_span (el : TextArea) l :
  l ∈ lines el → Line.endsAt l = Line.startsAt l + len (Line.text l).
Proof. rewrite lines_linesFrom. apply linesFrom_span. Qed.

Lemma lines_ordered (el : TextArea) l :
  l ∈ lines el → Line.startsAt l ≤ Line.endsAt l.
Proof.
  intros H. apply lines_span in H. pose proof (len_nonneg (Line.text l)). lia.
Qed.

(** C3.  The lines of a text [T]: the first starts at [0]; each line that
    is not the last ends one before the next one starts; the last ends at
    [len T]; each line spans exactly its content; and the content lengths
    plus one separator between neighbours add up to [len T]. *)
Theorem lines_partition (el : TextArea) :
  let T := value el in
  let ls := lines el in
  (∃ first, head ls = Some first ∧ Line.startsAt first = 0)
  ∧ (∀ i l1 l2, ls !! i = Some l1 → ls !! S i = Some l2 →
       Line.endsAt l1 + 1 = Line.startsAt l2)
  ∧ (∃ final, last ls = Some final ∧ Line.endsAt final = len T)
  ∧ (∀ l, l ∈ ls → Line.endsAt l = Line.startsAt l + len (Line.text l))
  ∧ sumOfLengths ls + (Z.of_nat (length ls) - 1) = len T.
Proof.
  intros T ls. subst T ls. rewrite lines_linesFrom.
  pose proof (split_nonempty newline (value el)) as Hne.
  pose proof (split_joinedLength newline (value el)) as Hlen.
  repeat split.
  - destruct (split newline (value el)) as [|content rest]; [done|].
    eexists. split; [apply linesFrom_head | done].
  - apply linesFrom_adjacent.
  - destruct (linesFrom_last 0 0 _ Hne) as (final & Hlast & Hend).
    exists final. split; [done | lia].
  - apply linesFrom_span.
  - unfold sumOfLengths. by rewrite linesFrom_text, linesFrom_length.
Qed.

Lemma lines_partition_witness :
  let el := mkTextArea (lit "ab" ++ [newline] ++ lit "cde") 0 0 none 0 in
  let T := value el in
  let ls := lines el in
  (∃ first, head ls = Some first ∧ Line.startsAt first = 0)
  ∧ (∀ i l1 l2, ls !! i = Some l1 → ls !! S i = Some l2 →
       Line.endsAt l1 + 1 = Line.startsAt l2)
  ∧ (∃ final, last ls = Some final ∧ Line.endsAt final = len T)
  ∧ (∀ l, l ∈ ls → Line.endsAt l = Line.startsAt l + len (Line.text l))
  ∧ sumOfLengths ls + (Z.of_nat (length ls) - 1) = len T.
Proof.
  exact (lines_partition (mkTextArea (lit "ab" ++ [newline] ++ lit "cde") 0 0 none 0)).
Defined.

End LineFacts.

Import LineFacts.

(** ** Position, selection and line lookup *)

Module SelectionFacts.

(** C5.  For a text [T] and a caret offset [o] with [0 ≤ o ≤ len T], the
    lookup of [position] finds a line, that line is one of the lines of
    [T], and [o] lies between its start and its end, both included. *)
Theorem position_contains_offset (el : TextArea) :
  0 ≤ selectionStart el → selectionStart el ≤ len (value el) →
  ∃ l, Position.line (position el) = Some l
       ∧ l ∈ lines el
       ∧ Line.startsAt l ≤ selectionStart el ∧ selectionStart el ≤ Line.endsAt l
       ∧ Position.cursorAt (position el) = selectionStart el.
Proof.
  intros Hlo Hhi. unfold position. cbn [Position.line Position.cursorAt].
  set (inside := λ line : Line.t,
         (selectionStart el >=? Line.startsAt line)
         && (selectionStart el <=? Line.endsAt line)).
  destruct (List.find inside (lines el)) as [l|] eqn:Hfind.
  - apply List.find_some in Hfind as [Hin Hl]. unfold inside in Hl.
    apply andb_true_iff in Hl as [Hs He].
    exists l. rewrite <- list_elem_of_In in Hin. repeat split; [done | lia | lia].
  - exfalso.
    destruct (linesFrom_cover 0 0 (split newline (value el)) (selectionStart el))
      as (l & Hin & Hs & He).
    + apply split_nonempty.
    + done.
    + rewrite split_joinedLength. lia.
    + rewrite <- lines_linesFrom in Hin. apply list_elem_of_In in Hin.
      apply (List.find_none _ _ Hfind) in Hin. unfold inside in Hin.
      apply andb_false_iff in Hin as [Hin | Hin]; lia.
Qed.

Lemma position_contains_offset_witness :
  ∃ l, Position.line (position (mkTextArea (lit "one" ++ [newline] ++ lit "two") 4 4 none 0)) = Some l
       ∧ l ∈ lines (mkTextArea (lit "one" ++ [newline] ++ lit "two") 4 4 none 0)
       ∧ Line.startsAt l ≤ 4 ∧ 4 ≤ Line.endsAt l
       ∧ Position.cursorAt (position (mkTextArea (lit "one" ++ [newline] ++ lit "two") 4 4 none 0)) = 4.
Proof.
  apply (position_contains_offset (mkTextArea (lit "one" ++ [newline] ++ lit "two") 4 4 none 0));
    vm_compute; congruence.
Defined.

Lemma isBtwOrEq_ordered v a b : a ≤ b → isBtwOrEq v a b = true ↔ a ≤ v ∧ v ≤ b.
Proof.
  intros Hab. unfold isBtwOrEq.
  rewrite andb_true_iff, Z.geb_leb, !Z.leb_le. lia.
Qed.

Lemma lineIsSelected_overlaps a b l :
  a ≤ b → Line.startsAt l ≤ Line.endsAt l →
  lineIsSelected a b l = true ↔ overlaps a b l.
Proof.
  intros Hab Hl. unfold lineIsSelected, overlaps.
  rewrite !orb_true_iff, !isBtwOrEq_ordered by done. tauto.
Qed.

Lemma filter_bool_prop {A} (f : A → bool) (P : A → Prop) `{!∀ x, Decision (P x)}
    (l : list A) :
  (∀ x, x ∈ l → f x = true ↔ P x) → List.filter f l = filter P l.
Proof.
  induction l as [|x l IH]; intros Hf; [done|].
  simpl. rewrite IH by (intros y Hy; apply Hf; by right).
  destruct (f x) eqn:Hfx.
  - rewrite filter_cons_True; [done|]. apply Hf; [by left | done].
  - rewrite filter_cons_False; [done|]. intros HP. apply Hf in HP; [congruence | by left].
Qed.

(** C6.  For a text control whose selection offsets are in order:
    [selection] is [null] exactly when they are equal; otherwise the
    snapshot carries the two offsets and the selected text, and its lines
    are exactly the lines of the text that pass the four-way overlap test,
    in their order. *)
Theorem selection_lines_overlap (el : TextArea) :
  selectionStart el ≤ selectionEnd el →
  (selection el = None ↔ selectionStart el = selectionEnd el)
  ∧ ∀ snap, selection el = Some snap →
      Selection.lines snap
      = filter (overlaps (selectionStart el) (selectionEnd el)) (lines el)
      ∧ (∀ l, l ∈ Selection.lines snap
              ↔ l ∈ lines el ∧ overlaps (selectionStart el) (selectionEnd el) l)
      ∧ Selection.selectionStart snap = selectionStart el
      ∧ Selection.selectionEnd snap = selectionEnd el
      ∧ Selection.text snap = slice (value el) (selectionStart el) (selectionEnd el).
Proof.
  intros Hord. unfold selection.
  destruct (Z.eqb_spec (selectionStart el) (selectionEnd el)) as [Heq | Hne].
  - split; [done | discriminate].
  - split; [split; [discriminate | done]|].
    intros snap [= <-]. cbn.
    assert (List.filter (lineIsSelected (selectionStart el) (selectionEnd el)) (lines el)
            = filter (overlaps (selectionStart el) (selectionEnd el)) (lines el)) as ->.
    { apply filter_bool_prop. intros l Hl.
      apply lineIsSelected_overlaps; [done | by apply (lines_ordered el)]. }
    split; [done|]. split; [|done].
    intros l. rewrite list_elem_of_filter. tauto.
Qed.

Lemma selection_lines_overlap_witness :
  let el := mkTextArea (lit "one" ++ [newline] ++ lit "two") 2 5 none 0 in
  (selection el = None ↔ selectionStart el = selectionEnd el)
  ∧ ∀ snap, selection el = Some snap →
      Selection.lines snap
      = filter (overlaps (selectionStart el) (selectionEnd el)) (lines el)
      ∧ (∀ l, l ∈ Selection.lines snap
              ↔ l ∈ lines el ∧ overlaps (selectionStart el) (selectionEnd el) l)
      ∧ Selection.selectionStart snap = selectionStart el
      ∧ Selection.selectionEnd snap = selectionEnd el
      ∧ Selection.text snap = slice (value el) (selectionStart el) (selectionEnd el).
Proof.
  apply (selection_lines_overlap (mkTextArea (lit "one" ++ [newline] ++ lit "two") 2 5 none 0)).
  vm_compute. congruence.
Defined.

Section WithHost.
Variable host : Host.

(** C8.  For a line number outside [1, L], [L] being the number of lines:
    [replaceLine] returns, the text control is the one it received, and the
    only effect is one message written with [console.error]. *)
Theorem replaceLine_unknown_line (el : TextArea) (console : list jsstring)
    (lineNumber : Z) (content : option jsstring) :
  lineNumber < 1 ∨ Z.of_nat (length (lines el)) < lineNumber →
  replaceLine host (el, console) lineNumber content
  = (el, console ++ [lit "Unknown line number: " ++ numberToString lineNumber]).
Proof.
  intros Hout. unfold replaceLine.
  assert (lineAt el lineNumber = None) as ->; [|done].
  unfold lineAt. destruct (Z.ltb_spec (lineNumber - 1) 0); [done|].
  apply lookup_ge_None. lia.
Qed.

End WithHost.

Lemma replaceLine_unknown_line_witness :
  replaceLine (mkHost false (λ _ _, false) (λ _, 0))
    (mkTextArea (lit "line 1" ++ [newline] ++ lit "line 2") 0 0 none 0, []) 10
    (Some (lit "test"))
  = (mkTextArea (lit "line 1" ++ [newline] ++ lit "line 2") 0 0 none 0,
     [] ++ [lit "Unknown line number: " ++ numberToString 10]).
Proof.
  apply (replaceLine_unknown_line (mkHost false (λ _ _, false) (λ _, 0))
           (mkTextArea (lit "line 1" ++ [newline] ++ lit "line 2") 0 0 none 0) [] 10
           (Some (lit "test"))).
  right. vm_compute. reflexivity.
Defined.

End SelectionFacts.

Import SelectionFacts.

(** ** Substitution in the text control *)

Module EditFacts.

Lemma toUnsignedLong_nonneg x : 0 ≤ x → toUnsignedLong x = x.
Proof. intros Hx. unfold toUnsignedLong. destruct (Z.ltb_spec x 0); [lia | done]. Qed.

Lemma setSelectionStart_inside (el : TextArea) a :
  0 ≤ a → a ≤ len (value el) →
  ∃ e, a ≤ e ∧ e ≤ len (value el)
       ∧ setSelectionStart a el
         = mkTextArea (value el) a e (selectionDirection el) (scrollTop el).
Proof.
  intros Ha Hn. unfold setSelectionStart. rewrite toUnsignedLong_nonneg by done.
  set (e0 := if selectionEnd el <? a then a else selectionEnd el).
  assert (a ≤ e0) as He0 by (subst e0; destruct (Z.ltb_spec (selectionEnd el) a); lia).
  exists (Z.min e0 (len (value el))). split; [lia|]. split; [lia|].
  unfold setTheSelectionRange. rewrite (Z.min_l a) by done. f_equal.
  destruct (Z.leb_spec (Z.min e0 (len (value el))) a); lia.
Qed.

Lemma setSelectionEnd_inside (el : TextArea) b :
  0 ≤ selectionStart el → selectionStart el ≤ b → b ≤ len (value el) →
  setSelectionEnd b el
  = mkTextArea (value el) (selectionStart el) b (selectionDirection el) (scrollTop el).
Proof.
  intros Hs Hb Hn. unfold setSelectionEnd. rewrite toUnsignedLong_nonneg by lia.
  unfold setTheSelectionRange. rewrite (Z.min_l b), (Z.min_l (selectionStart el)) by lia.
  f_equal. destruct (Z.leb_spec b (selectionStart el)); lia.
Qed.

(** Setting the start and then the end of the selection to two offsets of
    the text, in order, selects exactly that range. *)
Lemma setSelection_inside (el : TextArea) a b :
  0 ≤ a → a ≤ b → b ≤ len (value el) →
  setSelectionEnd b (setSelectionStart a el)
  = mkTextArea (value el) a b (selectionDirection el) (scrollTop el).
Proof.
  intros Ha Hab Hb.
  destruct (setSelectionStart_inside el a) as (e & He1 & He2 & ->); [lia | lia |].
  by rewrite setSelectionEnd_inside.
Qed.

(** A text without a carriage return is its own normal form: the control
    holds it as it is given. *)
Lemma normalizeNewlines_free (s : jsstring) :
  carriageReturn ∉ s → normalizeNewlines s = s.
Proof.
  induction s as [|c rest IH]; [done|]. intros Hfree.
  apply not_elem_of_cons in Hfree as [Hc Hrest]. cbn [normalizeNewlines].
  rewrite (proj2 (N.eqb_neq c carriageReturn)) by done. by rewrite IH.
Qed.

(** Normalisation leaves a prefix without carriage return as it is, *)
Lemma normalizeNewlines_app_free_l (pre t : jsstring) :
  carriageReturn ∉ pre → normalizeNewlines (pre ++ t) = pre ++ normalizeNewlines t.
Proof.
  induction pre as [|c pre IH]; [done|]. intros Hfree.
  apply not_elem_of_cons in Hfree as [Hc Hrest].
  cbn [app normalizeNewlines].
  rewrite (proj2 (N.eqb_neq c carriageReturn)) by done. by rewrite IH.
Qed.

(** and a suffix without carriage return too: a carriage return before
    it becomes, or joins, a line feed in front of it. *)
Lemma normalizeNewlines_app_free_r (r post : jsstring) :
  carriageReturn ∉ post → ∃ mid, normalizeNewlines (r ++ post) = mid ++ post.
Proof.
  intros Hpost.
  assert (∀ n (r : jsstring), (length r ≤ n)%nat →
            ∃ mid, normalizeNewlines (r ++ post) = mid ++ post) as Hall;
    [|by apply (Hall (length r))].
  clear r. induction n as [|n IH]; intros r Hlen.
  - destruct r; [|simpl in Hlen; lia].
    exists []. by apply normalizeNewlines_free.
  - destruct r as [|c r].
    { exists []. by apply normalizeNewlines_free. }
    simpl in Hlen. cbn [app normalizeNewlines].
    destruct (c =? carriageReturn)%N.
    + destruct r as [|d r]; cbn [app].
      * destruct post as [|d post']; [by exists [lineFeed]|].
        apply not_elem_of_cons in Hpost as [Hd Hpost'].
        destruct (N.eqb_spec d lineFeed) as [-> | _].
        -- exists []. cbn [app]. f_equal. by apply normalizeNewlines_free.
        -- exists [lineFeed]. cbn [app]. f_equal.
           apply normalizeNewlines_free. by apply not_elem_of_cons.
      * simpl in Hlen. destruct (d =? lineFeed)%N.
        -- destruct (IH r) as [mid ->]; [lia|]. by exists (lineFeed :: mid).
        -- destruct (IH (d :: r)) as [mid Hmid]; [simpl; lia|].
           cbn [app] in Hmid. rewrite Hmid. by exists (lineFeed :: mid).
    + destruct (IH r) as [mid ->]; [lia|]. by exists (c :: mid).
Qed.

(** A normalised text holds no carriage return. *)
Lemma normalizeNewlines_plain (s : jsstring) : carriageReturn ∉ normalizeNewlines s.
Proof.
  assert (∀ n (s : jsstring), (length s ≤ n)%nat → carriageReturn ∉ normalizeNewlines s)
    as Hall; [|by apply (Hall (length s))].
  clear s. induction n as [|n IH]; intros s Hlen.
  - destruct s; [apply not_elem_of_nil | simpl in Hlen; lia].
  - destruct s as [|c s]; [apply not_elem_of_nil|].
    simpl in Hlen. cbn [normalizeNewlines].
    destruct (N.eqb_spec c carriageReturn) as [_ | Hc].
    + destruct s as [|d s]; [by apply not_elem_of_cons; split; [|apply not_elem_of_nil]|].
      simpl in Hlen.
      destruct (d =? lineFeed)%N; apply not_elem_of_cons; (split; [done|]); apply IH;
        simpl; lia.
    + apply not_elem_of_cons. split; [done|]. apply IH. lia.
Qed.

Lemma free_take (c : N) (s : jsstring) n : c ∉ s → c ∉ take n s.
Proof.
  intros Hfree Hin. apply Hfree. eapply elem_of_sublist; [done | apply sublist_take].
Qed.

Lemma free_drop (c : N) (s : jsstring) n : c ∉ s → c ∉ drop n s.
Proof.
  intros Hfree Hin. apply Hfree. eapply elem_of_sublist; [done | apply sublist_drop].
Qed.

(** Splits the facts that a code unit does not occur in a text put
    together from parts. *)
Ltac free_in_parts :=
  repeat match goal with
         | H : _ ∉ _ ++ _ |- _ => apply not_elem_of_app in H as [? ?]
         end;
  repeat (apply not_elem_of_app; split);
  auto using free_take, free_drop.

Lemma value_setValue v (el : TextArea) : value (setValue v el) = normalizeNewlines v.
Proof. unfold setValue. by destruct (decide (normalizeNewlines v = value el)). Qed.

(** The text a control holds after an assignment holds no carriage
    return. *)
Lemma setValue_keeps_plain v (el : TextArea) : carriageReturn ∉ value (setValue v el).
Proof. rewrite value_setValue. apply normalizeNewlines_plain. Qed.

Section WithHost.
Variable host : Host.

(** [fireInput] on a range of the text, when the text with the range
    replaced holds no carriage return: the range is replaced by the new
    text and the caret is left collapsed after it, whichever way the host
    performs the insertion. *)
Lemma fireInput_plain (el : TextArea) (v : jsstring) a b :
  carriageReturn ∉ take (Z.to_nat a) (value el) ++ v ++ drop (Z.to_nat b) (value el) →
  0 ≤ a → a ≤ b → b ≤ len (value el) →
  ∃ dir top,
    fireInput host el v (Some a) (Some b)
    = mkTextArea (take (Z.to_nat a) (value el) ++ v ++ drop (Z.to_nat b) (value el))
        (a + len v) (a + len v) dir top.
Proof.
  intros Hfree Ha Hab Hb. unfold fireInput. cbn [default from_option id].
  rewrite (setSelection_inside el a b) by done.
  pose proof (len_nonneg v) as Hlen.
  apply normalizeNewlines_free in Hfree as Hnorm.
  assert (len (take (Z.to_nat a) (value el) ++ v ++ drop (Z.to_nat b) (value el))
          - len (drop (Z.to_nat b) (value el)) = a + len v) as Hcaret.
  { rewrite !len_app. unfold len in *. rewrite length_take. lia. }
  assert (a + len v
          ≤ len (take (Z.to_nat a) (value el) ++ v ++ drop (Z.to_nat b) (value el))) as Hfit.
  { pose proof (len_nonneg (drop (Z.to_nat b) (value el))). lia. }
  destruct (insertTextWorks host _ _).
  - unfold execInsertText. cbn [value selectionStart selectionEnd].
    rewrite Hnorm, Hcaret.
    rewrite setSelection_inside by (cbn [value]; lia). cbn. eauto.
  - cbn [value]. rewrite slice_prefix, sliceFrom_inside by lia.
    rewrite setSelection_inside; rewrite ?value_setValue, ?Hnorm; [eauto | lia | lia | lia].
Qed.

(** The same in a text control, whose text holds no carriage return, for
    a new text that holds none. *)
Lemma fireInput_inside (el : TextArea) (v : jsstring) a b :
  carriageReturn ∉ value el → carriageReturn ∉ v →
  0 ≤ a → a ≤ b → b ≤ len (value el) →
  ∃ dir top,
    fireInput host el v (Some a) (Some b)
    = mkTextArea (take (Z.to_nat a) (value el) ++ v ++ drop (Z.to_nat b) (value el))
        (a + len v) (a + len v) dir top.
Proof. intros Hel Hv. apply fireInput_plain. free_in_parts. Qed.

Lemma fireInput_between (x y z v : jsstring) a b dir top :
  carriageReturn ∉ x ++ y ++ z → carriageReturn ∉ v →
  ∃ dir' top',
    fireInput host (mkTextArea (x ++ y ++ z) a b dir top) v
      (Some (len x)) (Some (len x + len y))
    = mkTextArea (x ++ v ++ z) (len x + len v) (len x + len v) dir' top'.
Proof.
  intros Hel Hv.
  pose proof (len_nonneg x). pose proof (len_nonneg y). pose proof (len_nonneg z).
  destruct (fireInput_inside (mkTextArea (x ++ y ++ z) a b dir top)
              v (len x) (len x + len y)) as (dir' & top' & Heq);
    [done | done | lia | lia | cbn [value]; rewrite !len_app; lia |].
  exists dir', top'. rewrite Heq. cbn [value]. f_equal.
  rewrite take_len_app. do 2 f_equal.
  rewrite app_assoc, <- len_app. apply drop_len_app.
Qed.

(** Whatever text is handed to [fireInput] for a range of the text, the
    control holds the text with the range replaced and its line breaks
    normalised. *)
Lemma value_fireInput (el : TextArea) (v : jsstring) a b :
  0 ≤ a → a ≤ b → b ≤ len (value el) →
  value (fireInput host el v (Some a) (Some b))
  = normalizeNewlines (take (Z.to_nat a) (value el) ++ v ++ drop (Z.to_nat b) (value el)).
Proof.
  intros Ha Hab Hb. unfold fireInput. cbn [default from_option id].
  rewrite (setSelection_inside el a b) by done.
  destruct (insertTextWorks host _ _).
  - reflexivity.
  - cbn [value]. rewrite slice_prefix, sliceFrom_inside by lia.
    change (value (setSelectionEnd ?x (setSelectionStart ?y ?e))) with (value e).
    apply value_setValue.
Qed.

(** The text a control holds after [fireInput] holds no carriage return,
    whatever text was handed over: the properties below that rest on a
    text without carriage return rest on what every edit establishes. *)
Lemma fireInput_keeps_plain (el : TextArea) (v : jsstring) a b :
  0 ≤ a → a ≤ b → b ≤ len (value el) →
  carriageReturn ∉ value (fireInput host el v (Some a) (Some b)).
Proof. intros. rewrite value_fireInput by done. apply normalizeNewlines_plain. Qed.

(** C9, as the code has it.  [replace(searchText, replacement)]: when
    [searchText] does not occur in the text, the text control is returned
    as it is; when it occurs, with [pre] before and [post] after its
    leftmost occurrence, the control holds [pre], the replacement and
    [post] with the line breaks normalised.  In a text control, whose text
    holds no carriage return, [pre] and [post] are unchanged, and the
    occurrence is replaced by the replacement itself when the replacement
    holds no carriage return. *)
Theorem replace_first_occurrence (el : TextArea) (searchText replacement : jsstring) :
  ((∀ pre, ¬ occursAt searchText (value el) pre) →
   replace host el searchText replacement = el)
  ∧ (∀ pre post,
       value el = pre ++ searchText ++ post →
       (∀ pre', occursAt searchText (value el) pre' → (length pre ≤ length pre')%nat) →
       let el' := replace host el searchText replacement in
       value el' = normalizeNewlines (pre ++ replacement ++ post)
       ∧ (carriageReturn ∉ value el → ∃ mid, value el' = pre ++ mid ++ post)
       ∧ (carriageReturn ∉ value el → carriageReturn ∉ replacement →
          value el' = pre ++ replacement ++ post)).
Proof.
  unfold replace.
  destruct (indexOf_cases (value el) searchText)
    as [[Hidx Hnone] | (pre0 & [[post0 Hocc0] Hleft0] & Hidx)].
  - rewrite Hidx. split; [done|].
    intros pre post Hocc _. exfalso. apply (Hnone pre). by exists post.
  - split.
    + intros Hnone. exfalso. apply (Hnone pre0). by exists post0.
    + intros pre post Hocc Hleft.
      assert (length pre = length pre0) as Hsame.
      { apply Nat.le_antisymm.
        - apply Hleft. by exists post0.
        - apply Hleft0. by exists post. }
      assert (pre = pre0 ∧ post = post0) as [-> ->].
      { rewrite Hocc0 in Hocc.
        apply app_inj_1 in Hocc as [-> Hrest]; [|done].
        by apply app_inv_head in Hrest. }
      rewrite Hidx. pose proof (len_nonneg pre0).
      rewrite (proj2 (Z.eqb_neq _ _)) by lia.
      pose proof (len_nonneg searchText). pose proof (len_nonneg post0).
      assert (value (setScrollTop (scrollTop el)
                       (fireInput host el replacement (Some (len pre0))
                          (Some (len pre0 + len searchText))))
              = normalizeNewlines (pre0 ++ replacement ++ post0)) as Hvalue.
      { change (value (setScrollTop ?y ?e)) with (value e).
        rewrite value_fireInput by (rewrite ?Hocc0, ?len_app; lia).
        rewrite Hocc0, take_len_app. do 3 f_equal.
        rewrite app_assoc, <- len_app. apply drop_len_app. }
      cbn zeta. rewrite Hvalue. split; [done|]. split.
      * rewrite Hocc0, !not_elem_of_app. intros (Hpre & _ & Hpost).
        rewrite normalizeNewlines_app_free_l by done.
        destruct (normalizeNewlines_app_free_r replacement post0 Hpost) as [mid ->].
        by exists mid.
      * rewrite Hocc0, !not_elem_of_app. intros (Hpre & _ & Hpost) Hrep.
        apply normalizeNewlines_free. by rewrite !not_elem_of_app.
Qed.

End WithHost.

Lemma replace_first_occurrence_witness :
  let el := mkTextArea (lit "hello hello hello") 3 3 none 7 in
  let host := mkHost false (λ _ _, true) (λ _, 0) in
  value (replace host el (lit "hello") (lit "hi")) = [] ++ lit "hi" ++ lit " hello hello".
Proof.
  destruct (replace_first_occurrence (mkHost false (λ _ _, true) (λ _, 0))
              (mkTextArea (lit "hello hello hello") 3 3 none 7) (lit "hello") (lit "hi"))
    as [_ Hfound].
  destruct (Hfound [] (lit " hello hello")) as (_ & _ & Hexact).
  - reflexivity.
  - intros pre' _. simpl. lia.
  - apply Hexact; by_evaluation.
Defined.

(** C9 as stated fails for a replacement that holds a carriage return:
    the control turns CR LF into LF, so that replacing ["ell"] in
    ["hello"] by ["a"], CR, LF, ["b"] leaves ["ha"], LF, ["bo"], which is
    not the text before, the replacement and the text after. *)
Lemma replace_first_occurrence_counterexample :
  let host := mkHost false (λ _ _, false) (λ _, 0) in
  let el := mkTextArea (lit "hello") 0 0 none 0 in
  let replacement := lit "a" ++ [carriageReturn; lineFeed] ++ lit "b" in
  value (replace host el (lit "ell") replacement) = lit "ha" ++ [lineFeed] ++ lit "bo"
  ∧ ¬ replacesFirstOccurrence host el (lit "ell") replacement.
Proof.
  split; [reflexivity|].
  intros [_ Hfound].
  specialize (Hfound (lit "h")). cbn zeta in Hfound.
  assert (leftmost (lit "ell") (lit "hello") (lit "h")) as Hleft.
  { split; [by exists (lit "o")|].
    intros [|c pre'] [post Hocc]; [discriminate | simpl; lia]. }
  specialize (Hfound Hleft (lit "o") eq_refl).
  vm_compute in Hfound. discriminate.
Qed.

End EditFacts.

Import EditFacts.

(** ** Insertion over a selection *)

Module InsertFacts.

Lemma includes_marker (a b : jsstring) :
  markerUnit ∉ a → markerUnit ∉ b → includes (a ++ MARKER ++ b) MARKER = true.
Proof.
  intros Ha Hb. unfold includes, indexOf, MARKER.
  rewrite indexOfFrom_unit.
  pose proof (markerIndices_one a b Ha Hb) as Hidx.
  unfold markerIndices, MARKER in Hidx. rewrite Hidx. cbn [head default from_option id].
  pose proof (len_nonneg a). by rewrite (proj2 (Z.eqb_neq _ _)) by lia.
Qed.

Section WithHost.
Variable host : Host.

(** [insert] over a non-empty selection, the content holding one marker
    after [a] and before [b] and no carriage return: the selected range is
    replaced by the content without the marker.  The caret is not moved to
    the marker: when the substitution goes through [fireInput] it stays
    where [fireInput] left it, after the inserted text. *)
Lemma insert_selection_one_marker (el : TextArea) (a b : jsstring) :
  wellFormed el → selectionStart el < selectionEnd el →
  carriageReturn ∉ value el →
  markerUnit ∉ a → markerUnit ∉ b → carriageReturn ∉ a ++ b →
  let el' := insert host el (a ++ MARKER ++ b) in
  value el'
  = take (Z.to_nat (selectionStart el)) (value el) ++ (a ++ b)
    ++ drop (Z.to_nat (selectionEnd el)) (value el)
  ∧ (nodeEnvIsTest host = false →
     selectionStart el' = selectionStart el + len (a ++ b)
     ∧ selectionEnd el' = selectionStart el + len (a ++ b)).
Proof.
  intros (Hs & Hse & He) Hlt Hel Ha Hb Hab el'. subst el'. unfold insert.
  unfold normalizeSelection. rewrite includes_marker by done.
  unfold selection. rewrite (proj2 (Z.eqb_neq _ _)) by lia.
  cbn [Selection.selectionStart Selection.selectionEnd].
  rewrite execRaw_one by done. unfold placeSelection. cbn [Raw.text Raw.selectionStart Raw.selectionEnd].
  destruct (nodeEnvIsTest host).
  - rewrite value_setValue, slice_prefix, sliceFrom_inside by lia.
    split; [|done]. apply normalizeNewlines_free. free_in_parts.
  - destruct (fireInput_inside host el (a ++ b) (selectionStart el) (selectionEnd el))
      as (dir & top & ->); [done | done | lia | lia | lia |]. done.
Qed.

End WithHost.

(** C1, evaluated.  The text ["hello world"] with ["hello"] selected and
    the content ["a"], the marker, ["b"], whose marker is at index 1: the
    selected range is replaced by ["ab"], and the caret is left collapsed
    after the inserted text (offset 2), or at the end of the text (offset
    8) when the text is assigned directly, and not at offset [0 + 1].
    With a collapsed caret at 0 instead of the selection, the same content
    leaves the caret at [0 + 1]. *)
Theorem insert_selection_caret_not_at_marker (host : Host) :
  let content := lit "a" ++ MARKER ++ lit "b" in
  let el' := insert host (mkTextArea (lit "hello world") 0 5 none 0) content in
  let atCaret := insert host (mkTextArea (lit "hello world") 0 0 none 0) content in
  markerIndices content = [1]
  ∧ value el' = lit "ab world"
  ∧ selectionStart el' = (if nodeEnvIsTest host then 8 else 2)
  ∧ selectionEnd el' = selectionStart el'
  ∧ selectionStart el' ≠ 0 + 1
  ∧ value atCaret = lit "abhello world"
  ∧ selectionStart atCaret = 0 + 1
  ∧ selectionEnd atCaret = 0 + 1.
Proof.
  destruct host as [isTest works scroll].
  destruct isTest; vm_compute;
    repeat match goal with |- context [works ?e ?v] => destruct (works e v) end;
    repeat split; congruence.
Qed.

End InsertFacts.

Import InsertFacts.

(** ** Wrapping and unwrapping *)

Module WrapFacts.

Lemma currentStart_eq (el : TextArea) : currentStart el = selectionStart el.
Proof.
  unfold currentStart, selection, position.
  by destruct (selectionStart el =? selectionEnd el).
Qed.

Lemma currentEnd_eq (el : TextArea) : currentEnd el = selectionEnd el.
Proof.
  unfold currentEnd, selection, position.
  by destruct (Z.eqb_spec (selectionStart el) (selectionEnd el)).
Qed.

Lemma wellFormed_selecting (el : TextArea) :
  wellFormed el →
  ∃ x y z, el = selecting x y z (selectionDirection el) (scrollTop el).
Proof.
  intros (Hs & Hse & He).
  destruct (cut_in_three (value el) (selectionStart el) (selectionEnd el))
    as (x & y & z & Hv & Hx & Hy); [done..|].
  exists x, y, z. destruct el as [v a b dir top]. cbn in *. unfold selecting.
  subst v. f_equal; lia.
Qed.

(** A selection that sits between the two halves of the markup passes
    [isSelectedWrappedWith]. *)
Lemma isSelectedWrappedWith_enclosed markup (x p s q z : jsstring) dir top :
  markupPair markup = (p, q) →
  isSelectedWrappedWith (selecting (x ++ p) s (q ++ z) dir top) markup = true.
Proof.
  intros Hm. unfold isSelectedWrappedWith. rewrite Hm, currentStart_eq, currentEnd_eq.
  unfold selecting. cbn [value selectionStart selectionEnd].
  pose proof (len_nonneg x). pose proof (len_nonneg p). pose proof (len_nonneg s).
  pose proof (len_nonneg q). pose proof (len_nonneg z).
  assert ((len (x ++ p) - len p <? 0)
          || (len (x ++ p) + len s - 1 + len q >? len ((x ++ p) ++ s ++ q ++ z) - 1)
          = false) as ->.
  { rewrite !len_app. apply orb_false_iff. split; [apply Z.ltb_ge; lia|].
    rewrite Z.gtb_ltb. apply Z.ltb_ge. lia. }
  assert (slice ((x ++ p) ++ s ++ q ++ z) (len (x ++ p) - len p) (len (x ++ p)) = p) as ->.
  { replace ((x ++ p) ++ s ++ q ++ z) with (x ++ p ++ (s ++ q ++ z))
      by (by rewrite <- !app_assoc).
    replace (len (x ++ p) - len p) with (len x) by (rewrite len_app; lia).
    rewrite len_app. apply slice_middle. }
  assert (slice ((x ++ p) ++ s ++ q ++ z) (len (x ++ p) + len s)
            (len (x ++ p) + len s + len q) = q) as ->.
  { replace ((x ++ p) ++ s ++ q ++ z) with (((x ++ p) ++ s) ++ q ++ z)
      by (by rewrite <- !app_assoc).
    rewrite <- (len_app (x ++ p) s). apply slice_middle. }
  by rewrite !bool_decide_eq_true_2.
Qed.

(** Conversely, when [isSelectedWrappedWith] holds the selection sits
    between the two halves of the markup. *)
Lemma isSelectedWrappedWith_inv markup (x s z p q : jsstring) dir top :
  markupPair markup = (p, q) →
  isSelectedWrappedWith (selecting x s z dir top) markup = true →
  ∃ x' z', x = x' ++ p ∧ z = q ++ z'.
Proof.
  intros Hm. unfold isSelectedWrappedWith. rewrite Hm, currentStart_eq, currentEnd_eq.
  unfold selecting. cbn [value selectionStart selectionEnd].
  pose proof (len_nonneg x). pose proof (len_nonneg p). pose proof (len_nonneg s).
  pose proof (len_nonneg q). pose proof (len_nonneg z).
  rewrite !len_app.
  destruct (Z.ltb_spec (len x - len p) 0); [done|].
  destruct (Z.gtb_spec (len x + len s - 1 + len q) (len x + (len s + len z) - 1)); [done|].
  cbn [orb]. rewrite andb_true_iff, !bool_decide_eq_true. intros [Hp Hq].
  exists (take (Z.to_nat (len x - len p)) x), (drop (Z.to_nat (len q)) z).
  split.
  - rewrite slice_inside in Hp by (rewrite ?len_app; lia).
    rewrite <- Hp at 2.
    replace (len x - (len x - len p)) with (len p) by lia.
    rewrite drop_app_le by (unfold len in *; lia).
    rewrite take_app_le by (unfold len in *; rewrite length_drop; lia).
    rewrite <- (take_drop (Z.to_nat (len x - len p)) x) at 1. f_equal.
    symmetry. apply take_ge. unfold len in *. rewrite length_drop. lia.
  - rewrite slice_inside in Hq by (rewrite ?len_app; lia).
    rewrite <- Hq at 1.
    replace (len x + len s + len q - (len x + len s)) with (len q) by lia.
    rewrite app_assoc.
    replace (Z.to_nat (len x + len s)) with (length (x ++ s))
      by (unfold len; rewrite length_app; lia).
    rewrite drop_app_length. symmetry. apply take_drop.
Qed.

Section WithHost.
Variable host : Host.

(** [placeSelection] with both ends, inside the text. *)
Lemma placeSelection_inside (el : TextArea) offset text ds de :
  0 ≤ offset + ds → ds ≤ de → offset + de ≤ len (value el) →
  placeSelection offset (Raw.mk text (Some ds) (Some de)) el
  = mkTextArea (value el) (offset + ds) (offset + de) (selectionDirection el) (scrollTop el).
Proof.
  intros. unfold placeSelection. cbn [Raw.selectionStart Raw.selectionEnd].
  apply setSelection_inside; lia.
Qed.

(** The wrapping branch of [wrap], in a text control, for a markup and a
    placeholder without carriage return: the selection (or the
    placeholder, when nothing is selected) is put between the two halves
    of the markup and stays selected. *)
Lemma wrap_encloses markup options (x s z p q inner : jsstring) dir top :
  markupPair markup = (p, q) →
  isSelectedWrappedWith (selecting x s z dir top) markup
  && default true (options ≫= unwrap) = false →
  inner = (if bool_decide (s = []) then default [] (options ≫= placeholder) else s) →
  markerUnit ∉ p → markerUnit ∉ inner → markerUnit ∉ q →
  carriageReturn ∉ x ++ s ++ z → carriageReturn ∉ p ++ inner ++ q →
  ∃ dir' top',
    wrap host (selecting x s z dir top) markup options
    = selecting (x ++ p) inner (q ++ z) dir' top'.
Proof.
  intros Hm Hplain Hinner Hp Hi Hq Hel Hnew. unfold wrap.
  rewrite Hm, Hplain, currentStart_eq, currentEnd_eq.
  unfold selecting. cbn [value selectionStart selectionEnd].
  rewrite slice_middle, <- Hinner.
  rewrite execRaw_two by done. cbn [Raw.text].
  destruct (fireInput_between host x s z (p ++ inner ++ q) (len x) (len x + len s) dir top)
    as (dir' & top' & ->); [done | done|].
  pose proof (len_nonneg x). pose proof (len_nonneg p). pose proof (len_nonneg inner).
  pose proof (len_nonneg q). pose proof (len_nonneg z).
  rewrite placeSelection_inside by (cbn [value]; rewrite ?len_app; lia).
  exists dir', top'. cbn [value selectionDirection scrollTop].
  rewrite !len_app. f_equal; first [by rewrite <- !app_assoc | lia].
Qed.

(** The unwrapping branch of [wrap], in a text control: the two halves of
    the markup around the selection are removed and the inner text stays
    selected. *)
Lemma wrap_strips markup options (x s z p q : jsstring) dir top :
  markupPair markup = (p, q) →
  default true (options ≫= unwrap) = true →
  markerUnit ∉ s →
  carriageReturn ∉ x ++ p ++ s ++ q ++ z →
  ∃ dir' top',
    wrap host (selecting (x ++ p) s (q ++ z) dir top) markup options
    = selecting x s z dir' top'.
Proof.
  intros Hm Hunwrap Hs Hel. unfold wrap.
  rewrite Hm, Hunwrap, isSelectedWrappedWith_enclosed, currentStart_eq, currentEnd_eq by done.
  cbn [andb]. unfold selecting. cbn [value selectionStart selectionEnd].
  rewrite slice_middle.
  pose proof (execRaw_two [] s [] (not_elem_of_nil _) Hs (not_elem_of_nil _)) as Hraw.
  rewrite !app_nil_r, len_nil in Hraw. cbn [app] in Hraw. rewrite Hraw. cbn [Raw.text].
  pose proof (len_nonneg x). pose proof (len_nonneg p). pose proof (len_nonneg s).
  pose proof (len_nonneg q). pose proof (len_nonneg z).
  replace (len (x ++ p) - len p) with (len x) by (rewrite len_app; lia).
  replace (len (x ++ p) + len s + len q) with (len x + len (p ++ s ++ q))
    by (rewrite !len_app; lia).
  replace ((x ++ p) ++ s ++ q ++ z) with (x ++ (p ++ s ++ q) ++ z)
    by (by rewrite <- !app_assoc).
  destruct (fireInput_between host x (p ++ s ++ q) z s (len (x ++ p)) (len (x ++ p) + len s)
              dir top) as (dir' & top' & ->);
    [by rewrite <- !app_assoc | rewrite !not_elem_of_app in Hel; tauto|].
  rewrite placeSelection_inside by (cbn [value]; rewrite ?len_app; lia).
  exists dir', top'. cbn [value selectionDirection scrollTop].
  f_equal; lia.
Qed.

(** C2, as the code has it.  A text control (its text holds no carriage
    return) with its selection inside the text, a markup pair that holds
    neither a marker nor a carriage return,
    a selected text that holds no marker, [wrap] called with unwrapping
    enabled, and either a non-empty selection or an empty placeholder:
    unless both calls unwrap (the selection sits inside two nested layers
    of the markup), [wrap] applied twice gives back the text and the
    selection it started from. *)
Theorem wrap_twice_restores (el : TextArea) markup options :
  wellFormed el → carriageReturn ∉ value el →
  default true (options ≫= unwrap) = true →
  selectionStart el < selectionEnd el ∨ default [] (options ≫= placeholder) = [] →
  markerUnit ∉ fst (markupPair markup) → markerUnit ∉ snd (markupPair markup) →
  carriageReturn ∉ fst (markupPair markup) → carriageReturn ∉ snd (markupPair markup) →
  markerUnit ∉ slice (value el) (selectionStart el) (selectionEnd el) →
  isSelectedWrappedWith el markup = false
  ∨ isSelectedWrappedWith (wrap host el markup options) markup = false →
  let el'' := wrap host (wrap host el markup options) markup options in
  value el'' = value el
  ∧ selectionStart el'' = selectionStart el
  ∧ selectionEnd el'' = selectionEnd el.
Proof.
  intros Hwf Hel Hunwrap Hsel Hp Hq Hpr Hqr Hs Honce el''. subst el''.
  destruct (markupPair markup) as [p q] eqn:Hm. cbn [fst snd] in Hp, Hq, Hpr, Hqr.
  destruct (wellFormed_selecting el Hwf) as (x & s & z & Heq).
  set (dir := selectionDirection el) in Heq. set (top := scrollTop el) in Heq.
  clearbody dir top. subst el. clear Hwf.
  unfold selecting in Hs, Hsel, Hel. cbn [value selectionStart selectionEnd] in Hs, Hsel, Hel.
  rewrite slice_middle in Hs.
  assert ((if bool_decide (s = []) then default [] (options ≫= placeholder) else s) = s)
    as Hinner.
  { case_bool_decide as Hnil; [|done]. subst s.
    destruct Hsel as [Hlt | ->]; [rewrite len_nil in Hlt; lia | done]. }
  destruct (isSelectedWrappedWith (selecting x s z dir top) markup) eqn:Hwrapped.
  - destruct Honce as [? | Hafter]; [done|].
    destruct (isSelectedWrappedWith_inv markup x s z p q dir top Hm Hwrapped)
      as (x' & z' & -> & ->).
    rewrite !not_elem_of_app in Hel.
    destruct (wrap_strips markup options x' s z' p q dir top Hm Hunwrap Hs)
      as (dir1 & top1 & Hfirst); [rewrite !not_elem_of_app; tauto|].
    rewrite Hfirst in Hafter |- *.
    destruct (wrap_encloses markup options x' s z' p q s dir1 top1)
      as (dir2 & top2 & ->);
      [done | by rewrite Hafter | done | done | done | done
       | rewrite !not_elem_of_app; tauto | rewrite !not_elem_of_app; tauto |].
    done.
  - rewrite !not_elem_of_app in Hel.
    destruct (wrap_encloses markup options x s z p q s dir top)
      as (dir1 & top1 & ->);
      [done | by rewrite Hwrapped | done | done | done | done
       | rewrite !not_elem_of_app; tauto | rewrite !not_elem_of_app; tauto |].
    destruct (wrap_strips markup options x s z p q dir1 top1 Hm Hunwrap Hs)
      as (dir2 & top2 & ->); [rewrite !not_elem_of_app; tauto|].
    done.
Qed.

End WithHost.

Lemma wrap_twice_restores_witness :
  wrapTwiceRestores (mkHost false (λ _ _, false) (λ _, 0))
    (mkTextArea (lit "hello world") 0 5 none 0) (inl (lit "**")).
Proof.
  apply (wrap_twice_restores (mkHost false (λ _ _, false) (λ _, 0))
           (mkTextArea (lit "hello world") 0 5 none 0) (inl (lit "**")) None).
  - vm_compute. repeat split; congruence.
  - by_evaluation.
  - reflexivity.
  - left. reflexivity.
  - by_evaluation.
  - by_evaluation.
  - by_evaluation.
  - by_evaluation.
  - by_evaluation.
  - left. reflexivity.
Defined.

(** C2 as stated fails in three ways.  With the selection inside two
    nested layers of the markup both calls unwrap: from ["****hello****"]
    with ["hello"] selected the result is ["hello"].  A marker inside the
    selected text is removed by the first call.  And a markup that holds a
    carriage return is not found again once the control has turned it
    into a line feed: with the markup CR, from ["x"] with ["x"] selected,
    the second call wraps once more and leaves LF, LF, ["x"], LF. *)
Lemma wrap_twice_restores_counterexample :
  ¬ wrapTwiceRestores (mkHost false (λ _ _, false) (λ _, 0))
      (mkTextArea (lit "****hello****") 4 9 none 0) (inl (lit "**"))
  ∧ ¬ wrapTwiceRestores (mkHost false (λ _ _, false) (λ _, 0))
        (mkTextArea (lit "a" ++ MARKER ++ lit "b") 0 3 none 0) (inl (lit "**"))
  ∧ ¬ wrapTwiceRestores (mkHost false (λ _ _, false) (λ _, 0))
        (mkTextArea (lit "x") 0 1 none 0) (inl [carriageReturn])
  ∧ value (wrap (mkHost false (λ _ _, false) (λ _, 0))
             (wrap (mkHost false (λ _ _, false) (λ _, 0))
                (mkTextArea (lit "x") 0 1 none 0) (inl [carriageReturn]) None)
             (inl [carriageReturn]) None)
    = [lineFeed; lineFeed] ++ lit "x" ++ [lineFeed].
Proof.
  split; [|split; [|split]];
    [intros [Hvalue _]; vm_compute in Hvalue; discriminate ..
    | reflexivity].
Qed.

End WrapFacts.

Import WrapFacts.

(** ** The keyboard-shortcut matcher *)

Module ShortcutFacts.

#[local] Set Warnings "-clear-no-such-hyp".

Section WithPlatform.
Variable toLowerCase : jsstring → jsstring.
Variable isMac : bool.
Variable inheritedToString : jsstring → jsstring.
Variable Handler : Type.

Abbreviation parseShortcut := (parseShortcut toLowerCase isMac).
Abbreviation matchesShortcut := (matchesShortcut toLowerCase isMac inheritedToString).
Abbreviation keyMatches := (keyMatches toLowerCase inheritedToString).
Abbreviation dispatch := (dispatch toLowerCase isMac inheritedToString Handler).
Abbreviation listener := (listener toLowerCase isMac inheritedToString Handler).

Lemma isModifier_name normalized m :
  isModifier normalized = Some m → m ∈ modifierNames.
Proof.
  destruct normalized as [s|name]; simpl; [|done].
  case_bool_decide as Hin; [|done]. intros [= <-].
  unfold modifierNames. set_solver.
Qed.

Lemma parseStep_modifiers acc part :
  modifiers acc ⊆ modifierNames → modifiers (parseStep isMac acc part) ⊆ modifierNames.
Proof.
  intros Hacc. unfold parseStep.
  destruct (isModifier (normalize isMac part)) as [m|] eqn:Hm; simpl; [|done].
  apply isModifier_name in Hm. set_solver.
Qed.

(** Only modifier names enter the modifier set of a parsed shortcut. *)
Lemma parseShortcut_modifiers shortcut :
  modifiers (parseShortcut shortcut) ⊆ modifierNames.
Proof.
  unfold Shortcuts.parseShortcut.
  generalize (split plus (toLowerCase shortcut)). intros parts.
  assert (modifiers (mkParsed (Str []) ∅) ⊆ modifierNames) as Hinit by set_solver.
  revert Hinit. generalize (mkParsed (Str []) ∅).
  induction parts as [|part parts IH]; intros acc Hacc; simpl; [done|].
  apply IH. by apply parseStep_modifiers.
Qed.

Lemma modifier_names_distinct :
  lit "meta" ≠ lit "control" ∧ lit "meta" ≠ lit "alt" ∧ lit "meta" ≠ lit "shift"
  ∧ lit "control" ≠ lit "alt" ∧ lit "control" ≠ lit "shift" ∧ lit "alt" ≠ lit "shift".
Proof. repeat split; discriminate. Qed.

Lemma eqb_bool_decide (b : bool) (P : Prop) `{!Decision P} :
  eqb b (bool_decide P) = true ↔ (b = true ↔ P).
Proof.
  destruct b; case_bool_decide; simpl; intuition congruence.
Qed.

(** A shortcut matches an event exactly when its key matches and the set
    of modifiers held is the set of modifiers of the shortcut. *)
Lemma matchesShortcut_iff event shortcut :
  matchesShortcut event shortcut = true
  ↔ keyMatches event (key (parseShortcut shortcut)) = true
    ∧ activeModifiers event = modifiers (parseShortcut shortcut).
Proof.
  unfold Shortcuts.matchesShortcut.
  pose proof (parseShortcut_modifiers shortcut) as Hsub.
  destruct modifier_names_distinct as (? & ? & ? & ? & ? & ?).
  set (parsed := parseShortcut shortcut) in *. clearbody parsed.
  destruct (Shortcuts.keyMatches _ _ event (key parsed)); cbn [negb]; [|split; [done | by intros [? _]]].
  rewrite !andb_true_iff, !eqb_bool_decide.
  unfold activeModifiers, modifierNames in *.
  split.
  - intros [[[Hc Hm] Ha] Hs]. split; [done|].
    apply set_eq. intros m. split.
    + destruct (Event.ctrlKey event), (Event.metaKey event),
        (Event.altKey event), (Event.shiftKey event); set_solver.
    + intros Hin. pose proof (Hsub m Hin) as Hname.
      destruct (Event.ctrlKey event), (Event.metaKey event),
        (Event.altKey event), (Event.shiftKey event); set_solver.
  - intros [_ Heq]. rewrite <- Heq.
    destruct (Event.ctrlKey event), (Event.metaKey event),
      (Event.altKey event), (Event.shiftKey event); set_solver.
Qed.

Lemma dispatch_none bs event :
  (∀ b, b ∈ bs → matchesShortcut event (shortcut _ b) = false) →
  dispatch bs event = [].
Proof.
  induction bs as [|b bs IH]; intros Hno; simpl; [done|].
  rewrite Hno by apply list_elem_of_here.
  apply IH. intros b' Hb'. apply Hno. by apply list_elem_of_further.
Qed.

Lemma dispatch_first bs event i b :
  bs !! i = Some b →
  matchesShortcut event (shortcut _ b) = true →
  (∀ j b', (j < i)%nat → bs !! j = Some b' →
           matchesShortcut event (shortcut _ b') = false) →
  dispatch bs event = [(handler _ b, event)].
Proof.
  revert i. induction bs as [|b0 bs IH]; intros i Hi Hmatch Hbefore; [done|].
  destruct i as [|i]; simpl in *.
  - injection Hi as ->. by rewrite Hmatch.
  - rewrite (Hbefore 0%nat b0) by (done || lia).
    apply (IH i); [done | done|].
    intros j b' Hj Hb'. apply (Hbefore (S j) b'); [lia | done].
Qed.

(** [bind] registers after the bindings already there, in the order of the
    shortcuts given. *)
Lemma bind_appends (ks : KeyboardShortcuts Handler) sc h :
  bindings _ (bind _ ks sc h)
  = bindings _ ks
    ++ ((λ s, mkKeyBinding _ s h) <$> (match sc with inl s => [s] | inr ss => ss end)).
Proof.
  unfold bind. cbn [bindings].
  generalize (bindings _ ks). generalize (match sc with inl s => [s] | inr ss => ss end).
  intros ss. induction ss as [|s ss IH]; intros bs; simpl.
  - by rewrite app_nil_r.
  - rewrite IH. by rewrite <- app_assoc.
Qed.

(** C7.  A shortcut matches a key event exactly when its key matches and
    the set of modifiers held during the event is equal to the set of
    modifiers of the shortcut; the listener calls no handler when no
    binding matches, and otherwise calls the handler of the first matching
    binding, in registration order, and nothing else.  In particular,
    lower-casing leaving ["ctrl+shift+a"] and ["a"] as they are, the
    shortcut ["ctrl+shift+a"] matches the key ["a"] pressed with control
    and shift only, and does not match when meta is held as well. *)
Theorem shortcut_exact_modifiers_first_match :
  (∀ event shortcut,
     matchesShortcut event shortcut = true
     ↔ keyMatches event (key (parseShortcut shortcut)) = true
       ∧ activeModifiers event = modifiers (parseShortcut shortcut))
  ∧ (∀ ks event,
       (∀ b, b ∈ bindings _ ks → matchesShortcut event (shortcut _ b) = false) →
       listener ks event = [])
  ∧ (∀ ks event i b,
       bindings _ ks !! i = Some b →
       matchesShortcut event (shortcut _ b) = true →
       (∀ j b', (j < i)%nat → bindings _ ks !! j = Some b' →
                matchesShortcut event (shortcut _ b') = false) →
       listener ks event = [(handler _ b, event)])
  ∧ (toLowerCase (lit "ctrl+shift+a") = lit "ctrl+shift+a" →
     toLowerCase (lit "a") = lit "a" →
     ∀ code,
       matchesShortcut (Event.mk (lit "a") code true false false true) (lit "ctrl+shift+a")
       = true
       ∧ matchesShortcut (Event.mk (lit "a") code true true false true) (lit "ctrl+shift+a")
         = false).
Proof.
  split; [apply matchesShortcut_iff|].
  split; [intros ks event; apply dispatch_none|].
  split; [intros ks event; apply dispatch_first|].
  intros Hsc Ha code.
  assert (key (parseShortcut (lit "ctrl+shift+a")) = Str (lit "a")) as Hkey.
  { unfold Shortcuts.parseShortcut. rewrite Hsc. by destruct isMac; vm_compute. }
  assert (activeModifiers (Event.mk (lit "a") code true false false true)
          = modifiers (parseShortcut (lit "ctrl+shift+a"))) as Hmods.
  { unfold Shortcuts.parseShortcut. rewrite Hsc. by destruct isMac; vm_compute. }
  assert (∀ meta, keyMatches (Event.mk (lit "a") code true meta false true)
                    (key (parseShortcut (lit "ctrl+shift+a"))) = true) as Hk.
  { intros meta. rewrite Hkey. unfold Shortcuts.keyMatches. cbn [Event.key strictEq].
    rewrite Ha. by rewrite bool_decide_eq_true_2. }
  split.
  - apply matchesShortcut_iff. by split.
  - apply not_true_iff_false. rewrite matchesShortcut_iff. intros [_ Heq].
    rewrite <- Hmods in Heq. vm_compute in Heq. discriminate.
Qed.

End WithPlatform.

Lemma shortcut_exact_modifiers_first_match_witness :
  let ev := Event.mk (lit "a") (lit "KeyA") true false false true in
  let evMeta := Event.mk (lit "a") (lit "KeyA") true true false true in
  let ks :=
    bind nat (bind nat (create nat) (inl (lit "ctrl+b")) 1%nat)
      (inr [lit "ctrl+shift+a"; lit "Mod+Shift+A"]) 2%nat in
  (matchesShortcut asciiToLowerCase false (λ s, s) ev (lit "ctrl+shift+a") = true
   ∧ matchesShortcut asciiToLowerCase false (λ s, s) evMeta (lit "ctrl+shift+a") = false)
  ∧ listener asciiToLowerCase false (λ s, s) nat ks ev = [(2%nat, ev)]
  ∧ listener asciiToLowerCase false (λ s, s) nat ks evMeta = [].
Proof.
  intros ev evMeta ks.
  destruct (shortcut_exact_modifiers_first_match asciiToLowerCase false (λ s, s) nat)
    as (_ & Hnone & Hfirst & Hexample).
  split; [apply Hexample; reflexivity|].
  split.
  - apply (Hfirst ks ev 1%nat (mkKeyBinding nat (lit "ctrl+shift+a") 2%nat)).
    + reflexivity.
    + vm_compute. reflexivity.
    + intros j b' Hj Hb'. destruct j as [|j]; [|lia].
      vm_compute in Hb'. injection Hb' as <-. vm_compute. reflexivity.
  - apply Hnone. intros b Hb. vm_compute in Hb.
    apply elem_of_cons in Hb as [-> | Hb]; [vm_compute; reflexivity|].
    apply elem_of_cons in Hb as [-> | Hb]; [vm_compute; reflexivity|].
    apply elem_of_cons in Hb as [-> | Hb]; [vm_compute; reflexivity|].
    by apply elem_of_nil in Hb.
Defined.

End ShortcutFacts.

(** * Further properties *)

(** ** lib/utils.ts *)

Module UtilsFacts.

(** X1.  [clamp] with bounds in order returns a value between them, the value
    itself when it already lies there and the nearer bound otherwise; with
    the bounds inverted it returns the upper argument whatever the value. *)
Theorem clamp_within_bounds (val min max : Z) :
  (min ≤ max →
   min ≤ clamp val min max ∧ clamp val min max ≤ max
   ∧ (min ≤ val ∧ val ≤ max → clamp val min max = val)
   ∧ (val < min → clamp val min max = min)
   ∧ (max < val → clamp val min max = max))
  ∧ (max < min → clamp val min max = max).
Proof. unfold clamp. lia. Qed.

Lemma clamp_within_bounds_witness :
  1 ≤ clamp 9 1 6 ∧ clamp 9 1 6 ≤ 6
  ∧ (1 ≤ 9 ∧ 9 ≤ 6 → clamp 9 1 6 = 9)
  ∧ (9 < 1 → clamp 9 1 6 = 1)
  ∧ (6 < 9 → clamp 9 1 6 = 6).
Proof. apply (clamp_within_bounds 9 1 6). lia. Defined.

Lemma findLastFrom_spec {T} (array : list T) predicate (n : nat) :
  match findLastFrom array predicate n with
  | None =>
      ∀ i x, (i < n)%nat → array !! i = Some x → predicate x (Z.of_nat i) array = false
  | Some y =>
      ∃ i, (i < n)%nat ∧ array !! i = Some y ∧ predicate y (Z.of_nat i) array = true
           ∧ ∀ j x, (i < j)%nat → (j < n)%nat → array !! j = Some x →
                    predicate x (Z.of_nat j) array = false
  end.
Proof.
  induction n as [|n IH]; simpl.
  - intros i x Hi. lia.
  - destruct (array !! n) as [x|] eqn:Hx.
    + destruct (predicate x (Z.of_nat n) array) eqn:Hp.
      * exists n. repeat split; [lia | done | done|]. intros j y Hj1 Hj2. lia.
      * destruct (findLastFrom array predicate n) as [y|].
        -- destruct IH as (i & Hi & Hy & Hpy & Hafter).
           exists i. repeat split; [lia | done | done|].
           intros j z Hj1 Hj2 Hz. destruct (decide (j = n)) as [-> | Hne].
           ++ congruence.
           ++ apply Hafter; [lia | lia | done].
        -- intros i z Hi Hz. destruct (decide (i = n)) as [-> | Hne].
           ++ congruence.
           ++ apply IH; [lia | done].
    + destruct (findLastFrom array predicate n) as [y|].
      * destruct IH as (i & Hi & Hy & Hpy & Hafter).
        exists i. repeat split; [lia | done | done|].
        intros j z Hj1 Hj2 Hz. destruct (decide (j = n)) as [-> | Hne].
        -- congruence.
        -- apply Hafter; [lia | lia | done].
      * intros i z Hi Hz. destruct (decide (i = n)) as [-> | Hne].
        -- congruence.
        -- apply IH; [lia | done].
Qed.

(** X2.  [findLast] returns an element that satisfies the predicate at its index
    and after which no element does; it returns [undefined] exactly when no
    element of the array satisfies the predicate at its index. *)
Theorem findLast_last_match {T} (array : list T) (predicate : T → Z → list T → bool) :
  (findLast array predicate = None
   ↔ ∀ i x, array !! i = Some x → predicate x (Z.of_nat i) array = false)
  ∧ (∀ y, findLast array predicate = Some y →
       ∃ i, array !! i = Some y ∧ predicate y (Z.of_nat i) array = true
            ∧ ∀ j x, (i < j)%nat → array !! j = Some x →
                     predicate x (Z.of_nat j) array = false).
Proof.
  unfold findLast. pose proof (findLastFrom_spec array predicate (length array)) as Hspec.
  destruct (findLastFrom array predicate (length array)) as [y|].
  - destruct Hspec as (i & Hi & Hy & Hpy & Hafter). split.
    + split; [done|]. intros Hnone. rewrite (Hnone i y Hy) in Hpy. done.
    + intros y' [= <-]. exists i. repeat split; [done | done|].
      intros j x Hj Hx. apply Hafter; [done | by apply lookup_lt_Some in Hx | done].
  - split; [|done]. split; [|done]. intros _ i x Hx.
    apply Hspec; [by apply lookup_lt_Some in Hx | done].
Qed.

Lemma findLast_last_match_witness :
  ∃ i, [3; 8; 5; 9] !! i = Some 5 ∧ (λ x (_ : Z) (_ : list Z), x <? 6) 5 (Z.of_nat i) [3; 8; 5; 9] = true
       ∧ ∀ j x, (i < j)%nat → [3; 8; 5; 9] !! j = Some x →
                (λ x (_ : Z) (_ : list Z), x <? 6) x (Z.of_nat j) [3; 8; 5; 9] = false.
Proof.
  apply (findLast_last_match [3; 8; 5; 9] (λ x _ _, x <? 6)). reflexivity.
Defined.

Lemma backslash_special : backslash ∈ regExpSpecials.
Proof. by_evaluation. Qed.

Lemma unescape_escapeRegExp (s : jsstring) : unescape (escapeRegExp s) = s.
Proof.
  unfold escapeRegExp. induction s as [|c s IH]; [done|].
  rewrite fmap_cons, concat_cons. case_bool_decide as Hc.
  - cbn [app unescape]. rewrite N.eqb_refl. by rewrite IH.
  - cbn [app unescape].
    destruct (N.eqb_spec c backslash) as [-> | _].
    + exfalso. apply Hc, backslash_special.
    + by rewrite IH.
Qed.

(** X3.  [escapeRegExp] loses nothing: two strings with the same escaped form
    are equal; and a string without a code unit of the class is returned as
    it is. *)
Theorem escapeRegExp_injective (s t : jsstring) :
  (escapeRegExp s = escapeRegExp t → s = t)
  ∧ ((∀ c, c ∈ s → c ∉ regExpSpecials) → escapeRegExp s = s).
Proof.
  split.
  - intros Heq. rewrite <- (unescape_escapeRegExp s), <- (unescape_escapeRegExp t).
    by rewrite Heq.
  - unfold escapeRegExp. induction s as [|c s IH]; intros Hs; [done|].
    rewrite fmap_cons, concat_cons.
    rewrite bool_decide_eq_false_2 by (apply Hs; apply list_elem_of_here).
    cbn [app]. f_equal. apply IH. intros d Hd. apply Hs. by apply list_elem_of_further.
Qed.

Lemma escapeRegExp_injective_witness :
  escapeRegExp (lit "ab") = lit "ab".
Proof.
  destruct (escapeRegExp_injective (lit "ab") []) as [_ Hsame]. apply Hsame.
  intros c Hc.
  apply elem_of_cons in Hc as [-> | Hc]; [by_evaluation|].
  apply elem_of_cons in Hc as [-> | Hc]; [by_evaluation|].
  by apply elem_of_nil in Hc.
Defined.

End UtilsFacts.

(** ** Marker resolution, for any content *)

Module MarkerMoreFacts.

#[local] Set Warnings "-clear-no-such-hyp".

Lemma includes_marker_iff (text : jsstring) :
  includes text MARKER = true ↔ markerUnit ∈ text.
Proof.
  unfold includes, indexOf, MARKER. rewrite indexOfFrom_unit.
  destruct (unitIndicesFrom markerUnit text 0) as [|f rest] eqn:Hidx.
  - apply unitIndicesFrom_absent in Hidx. cbn. split; [done | intros H; by apply Hidx in H].
  - pose proof (unitIndicesFrom_first _ _ _ _ _ Hidx) as [Hf _].
    cbn [head default from_option id]. rewrite (proj2 (Z.eqb_neq _ _)) by lia.
    split; [intros _ | done].
    destruct (decide (markerUnit ∈ text)) as [|Hno]; [done|].
    apply (unitIndicesFrom_absent _ _ 0) in Hno. congruence.
Qed.

Lemma removeAll_free c (s : jsstring) : c ∉ removeAll c s.
Proof. unfold removeAll. rewrite list_elem_of_filter. tauto. Qed.

Lemma removeAll_length c (s : jsstring) i :
  len (removeAll c s) = len s - Z.of_nat (length (unitIndicesFrom c s i)).
Proof.
  unfold removeAll. revert i. induction s as [|x s IH]; intros i; [done|].
  simpl unitIndicesFrom. destruct (N.eqb_spec x c) as [-> | Hne].
  - rewrite filter_cons_False by (intros H; by apply H).
    rewrite (IH (i + 1)), len_cons. simpl length. lia.
  - rewrite filter_cons_True by done. rewrite !len_cons, (IH (i + 1)). lia.
Qed.

(** X4.  [execRaw] on any content, by the indices of its markers: the text
    returned holds no marker and is shorter by the number of markers; the
    selection start is the first index, if any; the selection end is
    defined exactly when there are at least two markers and is then the
    last index less one, however many markers lie in between. *)
Theorem execRaw_any_markers (content : jsstring) :
  (markerUnit ∉ Raw.text (execRaw content))
  ∧ len (Raw.text (execRaw content))
    = len content - Z.of_nat (length (markerIndices content))
  ∧ Raw.selectionStart (execRaw content) = head (markerIndices content)
  ∧ Raw.selectionEnd (execRaw content)
    = match markerIndices content with
      | _ :: rest => (λ l, l - 1) <$> last rest
      | [] => None
      end.
Proof.
  rewrite execRaw_spec.
  destruct (markerIndices content) as [|f rest] eqn:Hidx; cbn [Raw.text Raw.selectionStart Raw.selectionEnd].
  - split; [by apply (unitIndicesFrom_absent _ _ 0)|]. simpl. split; [lia | done].
  - split; [apply removeAll_free|]. split.
    + rewrite (removeAll_length _ _ 0). unfold markerIndices in Hidx. by rewrite Hidx.
    + split; [done | by destruct (last rest)].
Qed.

(** X5.  [normalizeSelection] returns a string that holds a marker; a text that
    holds one is returned as it is, whatever the default behaviour; and
    normalizing twice is normalizing once. *)
Theorem normalizeSelection_has_marker (text : jsstring) (behavior again : DefaultBehavior) :
  markerUnit ∈ normalizeSelection text behavior
  ∧ (markerUnit ∈ text → normalizeSelection text behavior = text)
  ∧ normalizeSelection (normalizeSelection text behavior) again
    = normalizeSelection text behavior.
Proof.
  assert (∀ t b, markerUnit ∈ t → normalizeSelection t b = t) as Hkeep.
  { intros t b Ht. unfold normalizeSelection.
    by rewrite (proj2 (includes_marker_iff t) Ht). }
  assert (markerUnit ∈ normalizeSelection text behavior) as Hhas.
  { unfold normalizeSelection. destruct (includes text MARKER) eqn:Hinc.
    - by apply includes_marker_iff.
    - unfold MARKER. destruct behavior; set_solver. }
  split; [done|]. split; [apply Hkeep | by apply Hkeep].
Qed.

Lemma normalizeSelection_has_marker_witness :
  normalizeSelection (lit "a" ++ MARKER ++ lit "b") SELECT_ALL = lit "a" ++ MARKER ++ lit "b".
Proof.
  destruct (normalizeSelection_has_marker (lit "a" ++ MARKER ++ lit "b") SELECT_ALL TO_END)
    as (_ & Hkeep & _).
  apply Hkeep. by_evaluation.
Defined.

(** X6.  A text without a marker, normalized and then resolved: [execRaw] gives
    the text back, with the caret before it for [TO_START], after it for
    [TO_END], and with the whole text selected for [SELECT_ALL]. *)
Theorem normalizeSelection_then_execRaw (text : jsstring) :
  markerUnit ∉ text →
  execRaw (normalizeSelection text TO_START) = Raw.mk text (Some 0) None
  ∧ execRaw (normalizeSelection text TO_END) = Raw.mk text (Some (len text)) None
  ∧ execRaw (normalizeSelection text SELECT_ALL) = Raw.mk text (Some 0) (Some (len text)).
Proof.
  intros Hfree.
  assert (includes text MARKER = false) as Hinc.
  { apply not_true_iff_false. by rewrite includes_marker_iff. }
  unfold normalizeSelection. rewrite Hinc.
  pose proof (execRaw_one [] text (not_elem_of_nil _) Hfree) as Hstart.
  pose proof (execRaw_one text [] Hfree (not_elem_of_nil _)) as Hend.
  pose proof (execRaw_two [] text [] (not_elem_of_nil _) Hfree (not_elem_of_nil _)) as Hall.
  rewrite !app_nil_r in Hend, Hall. rewrite len_nil in Hstart, Hall.
  cbn [app] in Hstart, Hall.
  rewrite Hstart, Hend, Hall. done.
Qed.

Lemma normalizeSelection_then_execRaw_witness :
  execRaw (normalizeSelection (lit "abc") TO_START) = Raw.mk (lit "abc") (Some 0) None
  ∧ execRaw (normalizeSelection (lit "abc") TO_END) = Raw.mk (lit "abc") (Some (len (lit "abc"))) None
  ∧ execRaw (normalizeSelection (lit "abc") SELECT_ALL)
    = Raw.mk (lit "abc") (Some 0) (Some (len (lit "abc"))).
Proof. apply (normalizeSelection_then_execRaw (lit "abc")). by_evaluation. Defined.

End MarkerMoreFacts.

Import MarkerMoreFacts.

(** ** Splitting and joining *)

Module SplitFacts.

#[local] Set Warnings "-clear-no-such-hyp".

Lemma split_free sep (s : jsstring) : Forall (λ seg, sep ∉ seg) (split sep s).
Proof.
  induction s as [|c s IH]; simpl.
  - repeat constructor. apply not_elem_of_nil.
  - destruct (N.eqb_spec c sep) as [-> | Hne].
    + constructor; [apply not_elem_of_nil | done].
    + pose proof (split_nonempty sep s) as Hsome.
      destruct (split sep s) as [|seg segs]; [done|].
      inversion IH as [|? ? Hseg Hsegs]; subst. constructor; [|done].
      rewrite not_elem_of_cons. split; [congruence | done].
Qed.

Lemma split_free_segment sep (s : jsstring) : sep ∉ s → split sep s = [s].
Proof.
  induction s as [|c s IH]; [done|].
  rewrite not_elem_of_cons. intros [Hne Hs]. simpl.
  rewrite (proj2 (N.eqb_neq c sep)) by congruence. by rewrite IH.
Qed.

Lemma split_app_sep sep (x y : jsstring) :
  sep ∉ x → split sep (x ++ sep :: y) = x :: split sep y.
Proof.
  induction x as [|c x IH]; simpl.
  - intros _. by rewrite N.eqb_refl.
  - rewrite not_elem_of_cons. intros [Hne Hx].
    rewrite (proj2 (N.eqb_neq c sep)) by congruence. by rewrite IH.
Qed.

Lemma join_cons sep (x : jsstring) rest :
  join [sep] (x :: rest) = x ++ openedSegments sep rest.
Proof.
  unfold openedSegments. revert x. induction rest as [|y rest IH]; intros x.
  - simpl. by rewrite app_nil_r.
  - change (join [sep] (x :: y :: rest)) with (x ++ [sep] ++ join [sep] (y :: rest)).
    rewrite IH. by rewrite fmap_cons, concat_cons.
Qed.

Lemma closedSegments_snoc sep pre (x : jsstring) :
  closedSegments sep (pre ++ [x]) = closedSegments sep pre ++ x ++ [sep].
Proof.
  unfold closedSegments. rewrite fmap_app, concat_app. simpl. by rewrite app_nil_r.
Qed.

Lemma openedSegments_cons sep (w : jsstring) rest :
  openedSegments sep (w :: rest) = sep :: join [sep] (w :: rest).
Proof.
  rewrite join_cons. unfold openedSegments. by rewrite fmap_cons, concat_cons.
Qed.

Lemma join_middle sep pre (x : jsstring) post :
  join [sep] (pre ++ x :: post) = closedSegments sep pre ++ x ++ openedSegments sep post.
Proof.
  induction pre as [|y pre IH].
  - apply join_cons.
  - change ((y :: pre) ++ x :: post) with (y :: (pre ++ x :: post)).
    rewrite join_cons.
    assert (∃ w rest, pre ++ x :: post = w :: rest) as (w & rest & Heq)
      by (destruct pre; simpl; eauto).
    rewrite Heq in IH |- *. rewrite openedSegments_cons, IH.
    unfold closedSegments. rewrite fmap_cons, concat_cons.
    by rewrite <- !app_assoc.
Qed.

(** Joining the segments of a text gives the text back. *)
Lemma join_split sep (s : jsstring) : join [sep] (split sep s) = s.
Proof.
  induction s as [|c s IH]; [done|]. simpl.
  pose proof (split_nonempty sep s) as Hne.
  destruct (N.eqb_spec c sep) as [-> | Hneq].
  - destruct (split sep s) as [|seg segs]; [done|].
    change (join [sep] ([] :: seg :: segs)) with ([] ++ [sep] ++ join [sep] (seg :: segs)).
    by rewrite IH.
  - destruct (split sep s) as [|seg segs]; [done|].
    rewrite join_cons in IH |- *. by rewrite <- IH.
Qed.

Lemma split_opened sep (x : jsstring) post :
  sep ∉ x → Forall (λ seg, sep ∉ seg) post →
  split sep (x ++ openedSegments sep post) = x :: post.
Proof.
  intros Hx Hpost. revert x Hx. induction Hpost as [|y post Hy Hpost IH]; intros x Hx.
  - unfold openedSegments. simpl. rewrite app_nil_r. by apply split_free_segment.
  - unfold openedSegments. rewrite fmap_cons, concat_cons. fold (openedSegments sep post).
    cbn [app]. rewrite split_app_sep by done. by rewrite IH.
Qed.

(** Splitting a text built from separator-free segments gives the
    segments back. *)
Lemma split_middle sep pre (x : jsstring) post :
  Forall (λ seg, sep ∉ seg) pre → sep ∉ x → Forall (λ seg, sep ∉ seg) post →
  split sep (closedSegments sep pre ++ x ++ openedSegments sep post) = pre ++ x :: post.
Proof.
  intros Hpre Hx Hpost. induction Hpre as [|y pre Hy Hpre IH].
  - by apply split_opened.
  - unfold closedSegments. rewrite fmap_cons, concat_cons. fold (closedSegments sep pre).
    rewrite <- !app_assoc. cbn [app]. rewrite split_app_sep by done. by rewrite IH.
Qed.

Lemma linesFrom_middle i o sep pre (x : jsstring) post :
  linesFrom i o (pre ++ x :: post) !! length pre
  = Some (Line.mk x (i + Z.of_nat (length pre) + 1)
            (o + len (closedSegments sep pre))
            (o + len (closedSegments sep pre) + len x)).
Proof.
  revert i o. induction pre as [|y pre IH]; intros i o.
  - cbn. rewrite len_nil. do 2 f_equal; lia.
  - cbn [app linesFrom length lookup list_lookup]. rewrite IH.
    unfold closedSegments. rewrite fmap_cons, concat_cons. fold (closedSegments sep pre).
    rewrite !len_app, len_cons, len_nil. do 2 f_equal; lia.
Qed.

(** A line of the text control, in the text: the segments before it, its
    content, the segments after it. *)
Lemma line_decomposition (el : TextArea) k l :
  lines el !! k = Some l →
  ∃ pre post,
    length pre = k
    ∧ Forall (λ seg, newline ∉ seg) pre ∧ (newline ∉ Line.text l)
    ∧ Forall (λ seg, newline ∉ seg) post
    ∧ split newline (value el) = pre ++ Line.text l :: post
    ∧ value el = closedSegments newline pre ++ Line.text l ++ openedSegments newline post
    ∧ Line.lineNumber l = Z.of_nat k + 1
    ∧ Line.startsAt l = len (closedSegments newline pre)
    ∧ Line.endsAt l = len (closedSegments newline pre) + len (Line.text l).
Proof.
  rewrite lines_linesFrom. intros Hk.
  pose proof (split_free newline (value el)) as Hfree.
  pose proof (join_split newline (value el)) as Hjoin.
  assert (k < length (split newline (value el)))%nat as Hlt.
  { apply lookup_lt_Some in Hk. by rewrite linesFrom_length in Hk. }
  destruct (lookup_lt_is_Some_2 _ _ Hlt) as [x Hx].
  apply list_elem_of_split_length in Hx as (pre & post & Hsplit & Hlen).
  rewrite Hsplit in Hk, Hfree, Hjoin. subst k.
  rewrite (linesFrom_middle 0 0 newline) in Hk. injection Hk as <-.
  apply Forall_app in Hfree as [Hpre Hrest].
  inversion Hrest as [|? ? Hx Hpost]; subst.
  exists pre, post. cbn [Line.text Line.lineNumber Line.startsAt Line.endsAt].
  rewrite join_middle in Hjoin.
  repeat split; try done; lia.
Qed.

End SplitFacts.

Import SplitFacts.

(** ** The line index, in the text *)

Module LineMoreFacts.

(** X7.  Every line lies in the text: its content is the text between its start
    and its end and holds no line break, and a line that ends before the
    end of the text is followed by a line break. *)
Theorem line_text_in_buffer (el : TextArea) (l : Line.t) :
  l ∈ lines el →
  0 ≤ Line.startsAt l ∧ Line.endsAt l ≤ len (value el)
  ∧ Line.text l = slice (value el) (Line.startsAt l) (Line.endsAt l)
  ∧ (newline ∉ Line.text l)
  ∧ (Line.endsAt l < len (value el) →
     value el !! Z.to_nat (Line.endsAt l) = Some newline).
Proof.
  intros Hl. apply list_elem_of_lookup in Hl as [k Hk].
  destruct (line_decomposition el k l Hk)
    as (pre & post & _ & _ & Hfree & _ & _ & Hvalue & _ & Hstart & Hend).
  rewrite Hstart, Hend, Hvalue.
  pose proof (len_nonneg (closedSegments newline pre)).
  pose proof (len_nonneg (Line.text l)).
  pose proof (len_nonneg (openedSegments newline post)).
  rewrite slice_middle, !len_app.
  repeat split; [lia | lia | done|].
  intros Hmore.
  destruct post as [|y post];
    [change (len (openedSegments newline [])) with 0 in Hmore; lia|].
  rewrite app_assoc, <- len_app.
  replace (Z.to_nat (len (closedSegments newline pre ++ Line.text l)))
    with (length (closedSegments newline pre ++ Line.text l)) by (unfold len; lia).
  rewrite lookup_app_r by lia. rewrite Nat.sub_diag.
  unfold openedSegments. by rewrite fmap_cons, concat_cons.
Qed.

Lemma line_text_in_buffer_witness :
  let el := mkTextArea (lit "ab" ++ [newline] ++ lit "cde") 0 0 none 0 in
  let l := Line.mk (lit "ab") 1 0 2 in
  0 ≤ Line.startsAt l ∧ Line.endsAt l ≤ len (value el)
  ∧ Line.text l = slice (value el) (Line.startsAt l) (Line.endsAt l)
  ∧ (newline ∉ Line.text l)
  ∧ (Line.endsAt l < len (value el) →
     value el !! Z.to_nat (Line.endsAt l) = Some newline).
Proof.
  apply (line_text_in_buffer (mkTextArea (lit "ab" ++ [newline] ++ lit "cde") 0 0 none 0)
           (Line.mk (lit "ab") 1 0 2)).
  apply list_elem_of_here.
Defined.

Lemma split_length sep (s : jsstring) :
  length (split sep s) = S (length (filter (λ c, c = sep) s)).
Proof.
  induction s as [|c s IH]; [done|]. simpl.
  destruct (N.eqb_spec c sep) as [-> | Hne].
  - rewrite filter_cons_True by done. simpl. by rewrite IH.
  - rewrite filter_cons_False by done.
    pose proof (split_nonempty sep s) as Hsome.
    destruct (split sep s) as [|seg segs]; [done|]. by rewrite <- IH.
Qed.

(** X8.  The contents of the lines, joined with line breaks, are the text; and
    there is one line more than there are line breaks in the text. *)
Theorem lines_join_round_trip (el : TextArea) :
  join [newline] (Line.text <$> lines el) = value el
  ∧ length (lines el) = S (length (filter (λ c, c = newline) (value el))).
Proof.
  rewrite lines_linesFrom, linesFrom_text, linesFrom_length. split.
  - apply join_split.
  - apply split_length.
Qed.

(** X9.  [lineAt] and the line numbers: every line is found under its own
    number; a line found under a number carries that number, which lies
    between 1 and the number of lines; and every such number finds a
    line. *)
Theorem lineAt_round_trip (el : TextArea) :
  (∀ l, l ∈ lines el → lineAt el (Line.lineNumber l) = Some l)
  ∧ (∀ n l, lineAt el n = Some l →
       Line.lineNumber l = n ∧ 1 ≤ n ∧ n ≤ Z.of_nat (length (lines el)))
  ∧ (∀ n, 1 ≤ n → n ≤ Z.of_nat (length (lines el)) → is_Some (lineAt el n)).
Proof.
  split; [|split].
  - intros l Hl. apply list_elem_of_lookup in Hl as [k Hk].
    destruct (line_decomposition el k l Hk) as (_ & _ & _ & _ & _ & _ & _ & _ & Hn & _).
    rewrite Hn. unfold lineAt. destruct (Z.ltb_spec (Z.of_nat k + 1 - 1) 0); [lia|].
    by replace (Z.to_nat (Z.of_nat k + 1 - 1)) with k by lia.
  - intros n l Hat. unfold lineAt in Hat.
    destruct (Z.ltb_spec (n - 1) 0); [done|].
    pose proof (lookup_lt_Some _ _ _ Hat) as Hlt.
    destruct (line_decomposition el _ l Hat) as (_ & _ & _ & _ & _ & _ & _ & _ & Hn & _).
    lia.
  - intros n Hlo Hhi. unfold lineAt. destruct (Z.ltb_spec (n - 1) 0); [lia|].
    apply lookup_lt_is_Some_2. lia.
Qed.

Lemma lineAt_round_trip_witness :
  let el := mkTextArea (lit "ab" ++ [newline] ++ lit "cde") 0 0 none 0 in
  lineAt el (Line.lineNumber (Line.mk (lit "cde") 2 3 6)) = Some (Line.mk (lit "cde") 2 3 6)
  ∧ is_Some (lineAt el 1).
Proof.
  destruct (lineAt_round_trip (mkTextArea (lit "ab" ++ [newline] ++ lit "cde") 0 0 none 0))
    as (Hfound & _ & Hsome).
  split; [apply Hfound; apply list_elem_of_further, list_elem_of_here
         | apply Hsome; vm_compute; congruence].
Defined.

End LineMoreFacts.

(** ** Replacing and removing a line *)

Module ReplaceLineFacts.

Lemma texts_of_lines (el : TextArea) :
  Line.text <$> lines el = split newline (value el).
Proof. by rewrite lines_linesFrom, linesFrom_text. Qed.

Lemma execRaw_to_end (content : jsstring) :
  markerUnit ∉ content →
  execRaw (normalizeSelection content TO_END) = Raw.mk content (Some (len content)) None.
Proof.
  intros Hfree. unfold normalizeSelection.
  assert (includes content MARKER = false) as ->.
  { apply not_true_iff_false. by rewrite includes_marker_iff. }
  pose proof (execRaw_one content [] Hfree (not_elem_of_nil _)) as Hraw.
  by rewrite !app_nil_r in Hraw.
Qed.

Lemma lineAt_lookup (el : TextArea) (k : nat) :
  lineAt el (Z.of_nat k + 1) = lines el !! k.
Proof.
  unfold lineAt. destruct (Z.ltb_spec (Z.of_nat k + 1 - 1) 0); [lia|].
  by replace (Z.to_nat (Z.of_nat k + 1 - 1)) with k by lia.
Qed.

Section WithHost.
Variable host : Host.

(** X10.  [replaceLine] on a line of the text of a text control, with a
    content that holds neither a marker nor a carriage return: nothing is
    written to the console, the text between the start and the end of the
    line is replaced by the content, and the caret is left collapsed after
    it; when the content holds no line break either, the lines of the new
    text are the old ones with that one line replaced. *)
Theorem replaceLine_replaces_line (el : TextArea) (console : list jsstring)
    (k : nat) (l : Line.t) (content : jsstring) :
  carriageReturn ∉ value el →
  lines el !! k = Some l → markerUnit ∉ content → carriageReturn ∉ content →
  ∃ el',
    replaceLine host (el, console) (Z.of_nat k + 1) (Some content) = (el', console)
    ∧ value el'
      = take (Z.to_nat (Line.startsAt l)) (value el) ++ content
        ++ drop (Z.to_nat (Line.endsAt l)) (value el)
    ∧ selectionStart el' = Line.startsAt l + len content
    ∧ selectionEnd el' = Line.startsAt l + len content
    ∧ (newline ∉ content →
       Line.text <$> lines el' = <[k := content]> (Line.text <$> lines el)).
Proof.
  intros Hel Hk Hfree Hplain.
  destruct (line_decomposition el k l Hk)
    as (pre & post & Hlen & Hpre & Hx & Hpost & Hsplit & Hvalue & _ & Hstart & Hend).
  unfold replaceLine. rewrite lineAt_lookup, Hk, execRaw_to_end by done.
  cbn [Raw.text]. unfold placeSelection. cbn [Raw.selectionStart Raw.selectionEnd].
  rewrite Hstart, Hend.
  destruct el as [v a b dir top]. cbn [value] in *. subst v.
  destruct (fireInput_between host (closedSegments newline pre) (Line.text l)
              (openedSegments newline post) content a b dir top) as (dir' & top' & ->);
    [done | done|].
  eexists. split; [done|]. cbn [value selectionStart selectionEnd].
  split.
  - rewrite take_len_app. do 2 f_equal.
    rewrite app_assoc, <- len_app. by rewrite drop_len_app.
  - split; [done|]. split; [done|]. intros Hline.
    rewrite !texts_of_lines. cbn [value].
    rewrite !split_middle by done. subst k.
    rewrite insert_app_r_alt by lia. by rewrite Nat.sub_diag.
Qed.

(** X11.  [replaceLine] with [null] on a line after the first, in a text
    control (whose text holds no carriage return): nothing is written to
    the console, the line is removed together with the line break before
    it, so that the lines of the new text are the old ones without that
    line, and the caret is left collapsed at the end of the line before. *)
Theorem replaceLine_removes_line (el : TextArea) (console : list jsstring)
    (k : nat) (l : Line.t) :
  carriageReturn ∉ value el →
  lines el !! S k = Some l →
  ∃ el',
    replaceLine host (el, console) (Z.of_nat (S k) + 1) None = (el', console)
    ∧ Line.text <$> lines el' = delete (S k) (Line.text <$> lines el)
    ∧ selectionStart el' = Line.startsAt l - 1
    ∧ selectionEnd el' = Line.startsAt l - 1.
Proof.
  intros Hel Hk.
  destruct (line_decomposition el (S k) l Hk)
    as (pre & post & Hlen & Hpre & Hx & Hpost & Hsplit & Hvalue & _ & Hstart & Hend).
  destruct pre as [|before pre _] using rev_ind; [done|].
  rewrite closedSegments_snoc in Hvalue, Hstart, Hend.
  apply Forall_app in Hpre as [Hpre Hbefore].
  rewrite Forall_singleton in Hbefore.
  unfold replaceLine. rewrite lineAt_lookup, Hk.
  change (execRaw []) with (Raw.mk [] None None).
  cbn [Raw.text Raw.selectionStart].
  destruct el as [v a b dir top]. cbn [value] in *.
  set (x := closedSegments newline pre ++ before) in *.
  assert (v = x ++ ([newline] ++ Line.text l) ++ openedSegments newline post) as ->.
  { rewrite Hvalue. subst x. by rewrite <- !app_assoc. }
  replace (Line.startsAt l - 1) with (len x)
    by (rewrite Hstart; subst x; rewrite !len_app, len_cons, len_nil; lia).
  replace (Line.endsAt l) with (len x + len ([newline] ++ Line.text l))
    by (rewrite Hend; subst x; rewrite !len_app, len_cons, len_nil; lia).
  destruct (fireInput_between host x ([newline] ++ Line.text l)
              (openedSegments newline post) [] a b dir top) as (dir' & top' & ->);
    [done | apply not_elem_of_nil|].
  eexists. split; [done|]. cbn [value selectionStart selectionEnd].
  rewrite len_nil. split; [|split; lia].
  rewrite !texts_of_lines. cbn [value app]. subst x.
  rewrite <- !app_assoc.
  rewrite split_middle by done.
  replace (closedSegments newline pre ++ before ++ newline :: Line.text l
           ++ openedSegments newline post)
    with (closedSegments newline (pre ++ [before]) ++ Line.text l
          ++ openedSegments newline post)
    by (rewrite closedSegments_snoc; by rewrite <- !app_assoc).
  rewrite <- Hlen.
  rewrite split_middle;
    [|apply Forall_app; split; [done | by apply Forall_singleton] | done | done].
  rewrite delete_middle. by rewrite <- app_assoc.
Qed.

End WithHost.

Lemma replaceLine_replaces_line_witness :
  ∃ el',
    replaceLine (mkHost false (λ _ _, false) (λ _, 0))
      (mkTextArea (lit "one" ++ [newline] ++ lit "two") 0 0 none 0, [])
      (Z.of_nat 1 + 1) (Some (lit "2")) = (el', [])
    ∧ value el'
      = take (Z.to_nat (Line.startsAt (Line.mk (lit "two") 2 4 7)))
          (lit "one" ++ [newline] ++ lit "two") ++ lit "2"
        ++ drop (Z.to_nat (Line.endsAt (Line.mk (lit "two") 2 4 7)))
             (lit "one" ++ [newline] ++ lit "two")
    ∧ selectionStart el' = Line.startsAt (Line.mk (lit "two") 2 4 7) + len (lit "2")
    ∧ selectionEnd el' = Line.startsAt (Line.mk (lit "two") 2 4 7) + len (lit "2")
    ∧ (newline ∉ lit "2" →
       Line.text <$> lines el'
       = <[1%nat := lit "2"]>
           (Line.text <$> lines (mkTextArea (lit "one" ++ [newline] ++ lit "two") 0 0 none 0))).
Proof.
  apply (replaceLine_replaces_line (mkHost false (λ _ _, false) (λ _, 0))
           (mkTextArea (lit "one" ++ [newline] ++ lit "two") 0 0 none 0) [] 1
           (Line.mk (lit "two") 2 4 7) (lit "2")).
  - by_evaluation.
  - reflexivity.
  - by_evaluation.
  - by_evaluation.
Defined.

Lemma replaceLine_removes_line_witness :
  ∃ el',
    replaceLine (mkHost false (λ _ _, true) (λ _, 0))
      (mkTextArea (lit "one" ++ [newline] ++ lit "two") 0 0 none 0, [])
      (Z.of_nat 1 + 1) None = (el', [])
    ∧ Line.text <$> lines el'
      = delete 1%nat
          (Line.text <$> lines (mkTextArea (lit "one" ++ [newline] ++ lit "two") 0 0 none 0))
    ∧ selectionStart el' = Line.startsAt (Line.mk (lit "two") 2 4 7) - 1
    ∧ selectionEnd el' = Line.startsAt (Line.mk (lit "two") 2 4 7) - 1.
Proof.
  apply (replaceLine_removes_line (mkHost false (λ _ _, true) (λ _, 0))
           (mkTextArea (lit "one" ++ [newline] ++ lit "two") 0 0 none 0) [] 0
           (Line.mk (lit "two") 2 4 7)).
  - by_evaluation.
  - reflexivity.
Defined.

End ReplaceLineFacts.

(** ** Substitution and insertion *)

Module InsertMoreFacts.

#[local] Set Warnings "-clear-no-such-hyp".

Lemma value_setSelectionStart x (el : TextArea) : value (setSelectionStart x el) = value el.
Proof. reflexivity. Qed.

Lemma value_setSelectionEnd x (el : TextArea) : value (setSelectionEnd x el) = value el.
Proof. reflexivity. Qed.

(** Assigning a text without carriage return and then placing the
    selection inside it. *)
Lemma setValue_then_select (el : TextArea) (v : jsstring) a b :
  carriageReturn ∉ v →
  0 ≤ a → a ≤ b → b ≤ len v →
  ∃ dir,
    setSelectionEnd b (setSelectionStart a (setValue v el))
    = mkTextArea v a b dir (scrollTop el).
Proof.
  intros Hv Ha Hab Hb. apply normalizeNewlines_free in Hv as Hnorm.
  rewrite setSelection_inside by (rewrite ?value_setValue, ?Hnorm; lia).
  rewrite value_setValue, Hnorm. unfold setValue. rewrite Hnorm.
  destruct (decide (v = value el)); eauto.
Qed.

Section WithHost.
Variable host : Host.

(** X13.  [fireInput] on a range of the text: the control holds the text
    with the range replaced by the new text and its line breaks
    normalised, whether the host inserts the text itself or the text is
    assigned by hand.  In a text control, for a new text without carriage
    return, that is the old text with the range replaced by the new text
    as it is, and the caret is left collapsed after the new text.  Without
    a range the whole text is replaced. *)
Theorem fireInput_replaces_range (el : TextArea) (v : jsstring) :
  (∀ a b, 0 ≤ a → a ≤ b → b ≤ len (value el) →
     let el' := fireInput host el v (Some a) (Some b) in
     let text := take (Z.to_nat a) (value el) ++ v ++ drop (Z.to_nat b) (value el) in
     value el' = normalizeNewlines text
     ∧ (carriageReturn ∉ value el → carriageReturn ∉ v →
        value el' = text ∧ selectionStart el' = a + len v ∧ selectionEnd el' = a + len v))
  ∧ (carriageReturn ∉ v →
     let el' := fireInput host el v None None in
     value el' = v ∧ selectionStart el' = len v ∧ selectionEnd el' = len v).
Proof.
  split.
  - intros a b Ha Hab Hb el' text. subst el' text.
    split; [by apply value_fireInput|]. intros Hel Hv.
    by destruct (fireInput_inside host el v a b Hel Hv Ha Hab Hb) as (dir & top & ->).
  - intros Hv. pose proof (len_nonneg (value el)) as Hn.
    assert (fireInput host el v None None
            = fireInput host el v (Some 0) (Some (len (value el)))) as -> by done.
    assert (drop (Z.to_nat (len (value el))) (value el) = []) as Hall.
    { replace (Z.to_nat (len (value el))) with (length (value el)) by (unfold len; lia).
      apply drop_all. }
    destruct (fireInput_plain host el v 0 (len (value el))) as (dir & top & ->);
      [rewrite Hall; cbn; by rewrite app_nil_r | lia | lia | lia|].
    cbn [value selectionStart selectionEnd].
    rewrite Hall, app_nil_r. cbn. done.
Qed.

(** The single step shared by the two paths of [insert] and
    [insertAtCursor], in a text control and for a text without carriage
    return: the range [a, b] of the text is replaced by [v]. *)
Lemma substitute_value (el : TextArea) (v : jsstring) a b :
  carriageReturn ∉ value el → carriageReturn ∉ v →
  0 ≤ a → a ≤ b → b ≤ len (value el) →
  value (if nodeEnvIsTest host
         then setValue (slice (value el) 0 a ++ v ++ sliceFrom (value el) b) el
         else fireInput host el v (Some a) (Some b))
  = take (Z.to_nat a) (value el) ++ v ++ drop (Z.to_nat b) (value el).
Proof.
  intros Hel Hv Ha Hab Hb. destruct (nodeEnvIsTest host).
  - rewrite value_setValue, slice_prefix, sliceFrom_inside by lia.
    apply normalizeNewlines_free. free_in_parts.
  - by destruct (fireInput_inside host el v a b Hel Hv Ha Hab Hb) as (dir & top & ->).
Qed.

(** The same step followed by an explicit placement of the selection
    inside the new text. *)
Lemma substitute_then_select (el : TextArea) (v : jsstring) a b s e :
  carriageReturn ∉ value el → carriageReturn ∉ v →
  0 ≤ a → a ≤ b → b ≤ len (value el) →
  0 ≤ s → s ≤ e → e ≤ len v →
  ∃ dir top,
    setSelectionEnd (a + e)
      (setSelectionStart (a + s)
         (if nodeEnvIsTest host
          then setValue (slice (value el) 0 a ++ v ++ sliceFrom (value el) b) el
          else fireInput host el v (Some a) (Some b)))
    = mkTextArea (take (Z.to_nat a) (value el) ++ v ++ drop (Z.to_nat b) (value el))
        (a + s) (a + e) dir top.
Proof.
  intros Hel Hv Ha Hab Hb Hs Hse He.
  assert (a + e ≤ len (take (Z.to_nat a) (value el) ++ v ++ drop (Z.to_nat b) (value el)))
    as Hfit.
  { rewrite !len_app. unfold len in *. rewrite length_take, length_drop. lia. }
  destruct (nodeEnvIsTest host).
  - rewrite slice_prefix, sliceFrom_inside by lia.
    destruct (setValue_then_select el
                (take (Z.to_nat a) (value el) ++ v ++ drop (Z.to_nat b) (value el))
                (a + s) (a + e)) as (dir & ->); [free_in_parts | lia | lia | lia|]. eauto.
  - destruct (fireInput_inside host el v a b Hel Hv Ha Hab Hb) as (dir & top & ->).
    rewrite setSelection_inside by (cbn [value]; lia). cbn. eauto.
Qed.

(** X14.  [insert] with a collapsed caret at [c], in a text control and for
    a content without carriage return, inserts the content, without its
    markers, at the caret, on either path.  A content without a marker
    leaves the caret after it; one marker leaves the caret where the
    marker was; two markers leave selected what was between them. *)
Theorem insert_at_caret (el : TextArea) (c : Z) :
  carriageReturn ∉ value el →
  selectionStart el = c → selectionEnd el = c → 0 ≤ c → c ≤ len (value el) →
  let put (text : jsstring) (s e : Z) (el' : TextArea) :=
    value el' = take (Z.to_nat c) (value el) ++ text ++ drop (Z.to_nat c) (value el)
    ∧ selectionStart el' = c + s ∧ selectionEnd el' = c + e in
  (∀ content, markerUnit ∉ content → carriageReturn ∉ content →
     put content (len content) (len content) (insert host el content))
  ∧ (∀ a b, markerUnit ∉ a → markerUnit ∉ b → carriageReturn ∉ a ++ b →
       put (a ++ b) (len a) (len a) (insert host el (a ++ MARKER ++ b)))
  ∧ (∀ a b d, markerUnit ∉ a → markerUnit ∉ b → markerUnit ∉ d →
       carriageReturn ∉ a ++ b ++ d →
       put (a ++ b ++ d) (len a) (len a + len b)
         (insert host el (a ++ MARKER ++ b ++ MARKER ++ d))).
Proof.
  intros Hel Hs He Hlo Hhi put.
  assert (∀ content text s e,
            execRaw (normalizeSelection content TO_END)
            = Raw.mk text (Some s) (if decide (s = e) then None else Some e) →
            carriageReturn ∉ text →
            0 ≤ s → s ≤ e → e ≤ len text →
            put text s e (insert host el content)) as Hput.
  { intros content text s e Hraw Hplain Hs0 Hse Helen. unfold insert, selection.
    rewrite Hs, He, Z.eqb_refl. unfold insertAtCursor, position.
    cbn [Position.cursorAt]. rewrite Hs, Hraw.
    cbn [Raw.text Raw.selectionStart Raw.selectionEnd].
    assert (default s (if decide (s = e) then None else Some e) = e) as ->
      by (by destruct (decide (s = e))).
    destruct (substitute_then_select el text c c s e) as (dir & top & ->);
      [done | done | lia..|].
    done. }
  split; [|split].
  - intros content Hfree Hplain.
    apply Hput; [|done|pose proof (len_nonneg content); lia..].
    rewrite ReplaceLineFacts.execRaw_to_end by done. by rewrite decide_True.
  - intros a b Ha Hb Hplain. pose proof (len_nonneg a). pose proof (len_nonneg b).
    apply Hput; [|done|rewrite ?len_app; lia..].
    unfold normalizeSelection. rewrite includes_marker by done.
    rewrite execRaw_one by done. by rewrite decide_True.
  - intros a b d Ha Hb Hd Hplain.
    pose proof (len_nonneg a). pose proof (len_nonneg b). pose proof (len_nonneg d).
    destruct (decide (b = [])) as [-> | Hne].
    + (* the two markers are adjacent: the end equals the start *)
      unfold insert, selection. rewrite Hs, He, Z.eqb_refl.
      unfold insertAtCursor, position. cbn [Position.cursorAt]. rewrite Hs.
      unfold normalizeSelection.
      assert (includes (a ++ MARKER ++ [] ++ MARKER ++ d) MARKER = true) as ->.
      { apply includes_marker_iff. unfold MARKER. set_solver. }
      rewrite execRaw_two by (done || apply not_elem_of_nil).
      cbn [Raw.text Raw.selectionStart Raw.selectionEnd default from_option id].
      destruct (substitute_then_select el (a ++ [] ++ d) c c (len a) (len a + len []))
        as (dir & top & ->); [done | done | rewrite ?len_app, ?len_nil; lia..|].
      done.
    + apply Hput; [|done|rewrite ?len_app; lia..].
      unfold normalizeSelection.
      assert (includes (a ++ MARKER ++ b ++ MARKER ++ d) MARKER = true) as ->.
      { apply includes_marker_iff. unfold MARKER. set_solver. }
      rewrite execRaw_two by done.
      rewrite decide_False; [done|].
      assert (len b ≠ 0) by (intros Hz; by apply len_zero in Hz). lia.
Qed.

(** X15.  [insert] over a non-empty selection, in a text control and for a
    content without carriage return, replaces the selected text by the
    content without its markers, on either path.  With two markers, what
    was between them is left selected; without a marker, and the
    substitution going through [fireInput], the caret is left after the
    inserted text. *)
Theorem insert_over_selection (el : TextArea) :
  wellFormed el → carriageReturn ∉ value el →
  selectionStart el < selectionEnd el →
  let replaced (text : jsstring) (el' : TextArea) :=
    value el'
    = take (Z.to_nat (selectionStart el)) (value el) ++ text
      ++ drop (Z.to_nat (selectionEnd el)) (value el) in
  (∀ a b d, markerUnit ∉ a → markerUnit ∉ b → markerUnit ∉ d →
     carriageReturn ∉ a ++ b ++ d →
     let el' := insert host el (a ++ MARKER ++ b ++ MARKER ++ d) in
     replaced (a ++ b ++ d) el'
     ∧ selectionStart el' = selectionStart el + len a
     ∧ selectionEnd el' = selectionStart el + len a + len b)
  ∧ (∀ content, markerUnit ∉ content → carriageReturn ∉ content →
       let el' := insert host el content in
       replaced content el'
       ∧ (nodeEnvIsTest host = false →
          selectionStart el' = selectionStart el + len content
          ∧ selectionEnd el' = selectionStart el + len content)).
Proof.
  intros (Hs & Hse & He) Hel Hlt replaced. subst replaced. cbn beta. split.
  - intros a b d Ha Hb Hd Hplain el'. subst el'.
    pose proof (len_nonneg a). pose proof (len_nonneg b). pose proof (len_nonneg d).
    unfold insert, selection. rewrite (proj2 (Z.eqb_neq _ _)) by lia.
    cbn [Selection.selectionStart Selection.selectionEnd].
    unfold normalizeSelection.
    assert (includes (a ++ MARKER ++ b ++ MARKER ++ d) MARKER = true) as ->.
    { apply includes_marker_iff. unfold MARKER. set_solver. }
    rewrite execRaw_two by done. unfold placeSelection.
    cbn [Raw.text Raw.selectionStart Raw.selectionEnd].
    destruct (substitute_then_select el (a ++ b ++ d) (selectionStart el) (selectionEnd el)
                (len a) (len a + len b)) as (dir & top & ->);
      [done | done | rewrite ?len_app; lia..|].
    cbn. repeat split; lia.
  - intros content Hfree Hplain el'. subst el'.
    unfold insert, selection. rewrite (proj2 (Z.eqb_neq _ _)) by lia.
    cbn [Selection.selectionStart Selection.selectionEnd].
    rewrite ReplaceLineFacts.execRaw_to_end by done. unfold placeSelection.
    cbn [Raw.text Raw.selectionStart Raw.selectionEnd].
    split; [apply substitute_value; done || lia|].
    intros ->.
    by destruct (fireInput_inside host el content (selectionStart el) (selectionEnd el))
      as (dir & top & ->); [done | done | lia..|].
Qed.

End WithHost.

Lemma fireInput_replaces_range_witness :
  let el := mkTextArea (lit "hello world") 0 0 none 0 in
  let el' := fireInput (mkHost false (λ _ _, true) (λ _, 0)) el (lit "X") (Some 2) (Some 5) in
  value el' = take (Z.to_nat 2) (value el) ++ lit "X" ++ drop (Z.to_nat 5) (value el)
  ∧ selectionStart el' = 2 + len (lit "X") ∧ selectionEnd el' = 2 + len (lit "X").
Proof.
  destruct (fireInput_replaces_range (mkHost false (λ _ _, true) (λ _, 0))
              (mkTextArea (lit "hello world") 0 0 none 0) (lit "X")) as [Hrange _].
  destruct (Hrange 2 5) as [_ Hplain]; [lia | lia | vm_compute; congruence|].
  apply Hplain; by_evaluation.
Defined.

Lemma insert_at_caret_witness :
  let el := mkTextArea (lit "hello world") 6 6 none 0 in
  let el' := insert (mkHost true (λ _ _, false) (λ _, 0)) el (lit "big" ++ MARKER ++ lit " ") in
  value el' = take (Z.to_nat 6) (value el) ++ (lit "big" ++ lit " ") ++ drop (Z.to_nat 6) (value el)
  ∧ selectionStart el' = 6 + len (lit "big") ∧ selectionEnd el' = 6 + len (lit "big").
Proof.
  destruct (insert_at_caret (mkHost true (λ _ _, false) (λ _, 0))
              (mkTextArea (lit "hello world") 6 6 none 0) 6) as (_ & Hone & _);
    [by_evaluation | reflexivity | reflexivity | lia | vm_compute; congruence|].
  apply Hone; by_evaluation.
Defined.

Lemma insert_over_selection_witness :
  let el := mkTextArea (lit "hello world") 6 11 none 0 in
  let el' :=
    insert (mkHost false (λ _ _, false) (λ _, 0)) el (MARKER ++ lit "you" ++ MARKER) in
  value el'
  = take (Z.to_nat (selectionStart el)) (value el) ++ ([] ++ lit "you" ++ [])
    ++ drop (Z.to_nat (selectionEnd el)) (value el)
  ∧ selectionStart el' = selectionStart el + len []
  ∧ selectionEnd el' = selectionStart el + len [] + len (lit "you").
Proof.
  destruct (insert_over_selection (mkHost false (λ _ _, false) (λ _, 0))
              (mkTextArea (lit "hello world") 6 11 none 0)) as (Htwo & _);
    [vm_compute; repeat split; congruence | by_evaluation | reflexivity|].
  apply (Htwo [] (lit "you") []); by_evaluation.
Defined.

End InsertMoreFacts.

(** ** Removing the first line *)

Module FirstLineFacts.

Section WithHost.
Variable host : Host.

(** X12.  [replaceLine(1, null)] in a text control (whose text holds no
    carriage return) when the text is assigned by hand: the range handed
    to [fireInput] starts at [-1], which [slice] counts from the end of
    the text.  The first line is not removed: the new text is the old one
    without its last code unit, followed by the old one from the end of
    the first line on. *)
Theorem replaceLine_first_line_null_by_hand (el : TextArea) (console : list jsstring) :
  carriageReturn ∉ value el →
  (∀ input v, insertTextWorks host input v = false) →
  ∃ first el',
    head (lines el) = Some first
    ∧ replaceLine host (el, console) 1 None = (el', console)
    ∧ value el'
      = take (length (value el) - 1) (value el)
        ++ drop (Z.to_nat (Line.endsAt first)) (value el).
Proof.
  intros Hel Hmanual.
  pose proof (split_nonempty newline (value el)) as Hsome.
  assert (∃ first, lines el !! 0%nat = Some first) as [first Hk].
  { rewrite lines_linesFrom. destruct (split newline (value el)); [done|]. simpl. eauto. }
  destruct (line_decomposition el 0 first Hk)
    as (pre & post & Hlen & _ & _ & _ & _ & Hvalue & _ & Hzero & Hend).
  destruct pre; [|done]. change (closedSegments newline []) with (@nil N) in *.
  rewrite len_nil in Hzero, Hend. cbn [app] in Hvalue.
  assert (0 ≤ Line.endsAt first ∧ Line.endsAt first ≤ len (value el)) as [Hend0 Hend1].
  { rewrite Hend, Hvalue, len_app.
    pose proof (len_nonneg (Line.text first)).
    pose proof (len_nonneg (openedSegments newline post)). lia. }
  assert (head (lines el) = Some first) as Hhead by (by rewrite head_lookup).
  exists first. eexists. split; [done|].
  unfold replaceLine.
  change 1 with (Z.of_nat 0 + 1). rewrite ReplaceLineFacts.lineAt_lookup, Hk.
  change (execRaw []) with (Raw.mk [] None None).
  cbn [Raw.text Raw.selectionStart]. split; [done|].
  unfold fireInput. cbn [default from_option id].
  rewrite Hmanual, Hzero.
  rewrite !InsertMoreFacts.value_setSelectionEnd, !InsertMoreFacts.value_setSelectionStart.
  rewrite value_setValue.
  rewrite sliceFrom_inside by lia. cbn [app].
  assert (slice (value el) 0 (0 - (Z.of_nat 0 + 1)) = take (length (value el) - 1) (value el))
    as ->.
  { change (0 - (Z.of_nat 0 + 1)) with (-1).
    unfold slice, relIndex. cbn [Z.ltb Z.compare].
    pose proof (len_nonneg (value el)) as Hn.
    rewrite (Z.min_l 0) by done. rewrite drop_0. f_equal. unfold len. lia. }
  apply normalizeNewlines_free. free_in_parts.
Qed.

End WithHost.

Lemma replaceLine_first_line_null_by_hand_witness :
  ∃ first el',
    head (lines (mkTextArea (lit "ab" ++ [newline] ++ lit "cd") 0 0 none 0)) = Some first
    ∧ replaceLine (mkHost false (λ _ _, false) (λ _, 0))
        (mkTextArea (lit "ab" ++ [newline] ++ lit "cd") 0 0 none 0, []) 1 None = (el', [])
    ∧ value el'
      = take (length (lit "ab" ++ [newline] ++ lit "cd") - 1) (lit "ab" ++ [newline] ++ lit "cd")
        ++ drop (Z.to_nat (Line.endsAt first)) (lit "ab" ++ [newline] ++ lit "cd").
Proof.
  apply (replaceLine_first_line_null_by_hand (mkHost false (λ _ _, false) (λ _, 0))
           (mkTextArea (lit "ab" ++ [newline] ++ lit "cd") 0 0 none 0) []).
  - by_evaluation.
  - reflexivity.
Defined.

End FirstLineFacts.

(** ** Wrapping: the single steps *)

Module WrapMoreFacts.

(** X16.  [isSelectedWrappedWith] holds exactly when the text control has the
    prefix immediately before its selection and the suffix immediately
    after it. *)
Theorem isSelectedWrappedWith_iff (el : TextArea) markup (p q : jsstring) :
  wellFormed el → markupPair markup = (p, q) →
  isSelectedWrappedWith el markup = true
  ↔ ∃ x s z, value el = x ++ p ++ s ++ q ++ z
             ∧ selectionStart el = len x + len p
             ∧ selectionEnd el = len x + len p + len s.
Proof.
  intros Hwf Hm. split.
  - intros Hwrapped.
    destruct (wellFormed_selecting el Hwf) as (x & s & z & Hel).
    rewrite Hel in Hwrapped.
    destruct (isSelectedWrappedWith_inv markup x s z p q _ _ Hm Hwrapped)
      as (x' & z' & -> & ->).
    exists x', s, z'. rewrite Hel. unfold selecting.
    cbn [value selectionStart selectionEnd]. rewrite len_app, <- !app_assoc. done.
  - intros (x & s & z & Hv & Hs & He).
    assert (el = selecting (x ++ p) s (q ++ z) (selectionDirection el) (scrollTop el)) as ->.
    { destruct el as [v a b dir top]. cbn in *. unfold selecting.
      rewrite len_app, <- !app_assoc. by subst. }
    by apply isSelectedWrappedWith_enclosed.
Qed.

Lemma isSelectedWrappedWith_iff_witness :
  isSelectedWrappedWith (mkTextArea (lit "**hello**") 2 7 none 0) (inl (lit "**")) = true
  ↔ ∃ x s z, value (mkTextArea (lit "**hello**") 2 7 none 0)
               = x ++ lit "**" ++ s ++ lit "**" ++ z
             ∧ selectionStart (mkTextArea (lit "**hello**") 2 7 none 0) = len x + len (lit "**")
             ∧ selectionEnd (mkTextArea (lit "**hello**") 2 7 none 0)
               = len x + len (lit "**") + len s.
Proof.
  apply (isSelectedWrappedWith_iff (mkTextArea (lit "**hello**") 2 7 none 0)
           (inl (lit "**")) (lit "**") (lit "**")).
  - vm_compute. repeat split; congruence.
  - reflexivity.
Defined.

Section WithHost.
Variable host : Host.

(** X17.  [wrap] with unwrapping enabled, in a text control (whose text
    holds no carriage return), on a selection that holds no marker and has
    the prefix before it and the suffix after it: exactly the two halves
    of the markup are removed and the inner text stays selected. *)
Theorem wrap_unwraps_enclosed markup options (x s z p q : jsstring) dir top :
  carriageReturn ∉ x ++ p ++ s ++ q ++ z →
  markupPair markup = (p, q) →
  default true (options ≫= unwrap) = true →
  markerUnit ∉ s →
  let el' := wrap host (mkTextArea (x ++ p ++ s ++ q ++ z) (len x + len p)
                          (len x + len p + len s) dir top) markup options in
  value el' = x ++ s ++ z
  ∧ selectionStart el' = len x ∧ selectionEnd el' = len x + len s.
Proof.
  intros Hel Hm Hunwrap Hs el'. subst el'.
  destruct (wrap_strips host markup options x s z p q dir top Hm Hunwrap Hs Hel)
    as (dir' & top' & Heq).
  unfold selecting in Heq. rewrite len_app, <- !app_assoc in Heq. by rewrite Heq.
Qed.

(** X18.  [wrap] with [unwrap: false], in a text control (whose text holds
    no carriage return), on a selection that already has the prefix before
    it and the suffix after it: the markup is added once more, inside the
    existing one, and the selection stays on the inner text. *)
Theorem wrap_without_unwrap_nests markup (x s z p q : jsstring) holder dir top :
  carriageReturn ∉ x ++ p ++ s ++ q ++ z →
  markupPair markup = (p, q) →
  s ≠ [] → markerUnit ∉ p → markerUnit ∉ s → markerUnit ∉ q →
  let el' := wrap host (mkTextArea (x ++ p ++ s ++ q ++ z) (len x + len p)
                          (len x + len p + len s) dir top) markup
               (Some (mkWrapOptions (Some false) holder)) in
  value el' = x ++ p ++ p ++ s ++ q ++ q ++ z
  ∧ selectionStart el' = len x + len p + len p
  ∧ selectionEnd el' = len x + len p + len p + len s.
Proof.
  intros Hel Hm Hne Hp Hs Hq el'. subst el'.
  destruct (wrap_encloses host markup (Some (mkWrapOptions (Some false) holder))
              (x ++ p) s (q ++ z) p q s dir top) as (dir' & top' & Heq);
    [done | apply andb_false_r | by rewrite bool_decide_eq_false_2 | done | done | done
     | free_in_parts | free_in_parts|].
  unfold selecting in Heq. rewrite !len_app, <- !app_assoc in Heq. by rewrite Heq.
Qed.

(** X19.  [wrap] at a collapsed caret that does not sit between the two halves
    of the markup, in a text control and for a markup and a placeholder
    without carriage return: prefix, placeholder and suffix are inserted
    at the caret and the placeholder is left selected. *)
Theorem wrap_at_caret_places_placeholder markup options (x z p q holder : jsstring) dir top :
  carriageReturn ∉ x ++ z →
  markupPair markup = (p, q) →
  default [] (options ≫= placeholder) = holder →
  isSelectedWrappedWith (mkTextArea (x ++ z) (len x) (len x) dir top) markup = false →
  markerUnit ∉ p → markerUnit ∉ holder → markerUnit ∉ q →
  carriageReturn ∉ p ++ holder ++ q →
  let el' := wrap host (mkTextArea (x ++ z) (len x) (len x) dir top) markup options in
  value el' = x ++ p ++ holder ++ q ++ z
  ∧ selectionStart el' = len x + len p
  ∧ selectionEnd el' = len x + len p + len holder.
Proof.
  intros Hel Hm Hholder Hplain Hp Hh Hq Hnew el'. subst el'.
  assert (mkTextArea (x ++ z) (len x) (len x) dir top = selecting x [] z dir top) as Heq0.
  { unfold selecting. rewrite len_nil. f_equal. lia. }
  rewrite Heq0 in Hplain |- *.
  destruct (wrap_encloses host markup options x [] z p q holder dir top)
    as (dir' & top' & Heq);
    [done | by rewrite Hplain | by rewrite bool_decide_eq_true_2 | done | done | done
     | done | done|].
  rewrite Heq. unfold selecting. cbn [value selectionStart selectionEnd].
  by rewrite !len_app, <- !app_assoc.
Qed.

End WithHost.

Lemma wrap_unwraps_enclosed_witness :
  let el' := wrap (mkHost false (λ _ _, false) (λ _, 0))
               (mkTextArea ([] ++ lit "**" ++ lit "hello" ++ lit "**" ++ [])
                  (len [] + len (lit "**")) (len [] + len (lit "**") + len (lit "hello"))
                  none 0) (inl (lit "**")) None in
  value el' = [] ++ lit "hello" ++ []
  ∧ selectionStart el' = len [] ∧ selectionEnd el' = len [] + len (lit "hello").
Proof.
  apply (wrap_unwraps_enclosed (mkHost false (λ _ _, false) (λ _, 0)) (inl (lit "**")) None
           [] (lit "hello") [] (lit "**") (lit "**") none 0); by_evaluation.
Defined.

Lemma wrap_without_unwrap_nests_witness :
  let el' := wrap (mkHost false (λ _ _, false) (λ _, 0))
               (mkTextArea ([] ++ lit "**" ++ lit "hello" ++ lit "**" ++ [])
                  (len [] + len (lit "**")) (len [] + len (lit "**") + len (lit "hello"))
                  none 0) (inl (lit "**")) (Some (mkWrapOptions (Some false) None)) in
  value el' = [] ++ lit "**" ++ lit "**" ++ lit "hello" ++ lit "**" ++ lit "**" ++ []
  ∧ selectionStart el' = len [] + len (lit "**") + len (lit "**")
  ∧ selectionEnd el' = len [] + len (lit "**") + len (lit "**") + len (lit "hello").
Proof.
  apply (wrap_without_unwrap_nests (mkHost false (λ _ _, false) (λ _, 0)) (inl (lit "**"))
           [] (lit "hello") [] (lit "**") (lit "**") None none 0);
    by_evaluation; discriminate.
Defined.

Lemma wrap_at_caret_places_placeholder_witness :
  let el' := wrap (mkHost false (λ _ _, false) (λ _, 0))
               (mkTextArea ([] ++ []) (len []) (len []) none 0) (inl (lit "**"))
               (Some (mkWrapOptions None (Some (lit "bold")))) in
  value el' = [] ++ lit "**" ++ lit "bold" ++ lit "**" ++ []
  ∧ selectionStart el' = len [] + len (lit "**")
  ∧ selectionEnd el' = len [] + len (lit "**") + len (lit "bold").
Proof.
  apply (wrap_at_caret_places_placeholder (mkHost false (λ _ _, false) (λ _, 0))
           (inl (lit "**")) (Some (mkWrapOptions None (Some (lit "bold"))))
           [] [] (lit "**") (lit "**") (lit "bold") none 0); by_evaluation.
Defined.

End WrapMoreFacts.

(** ** Rewriting the selected lines *)

Module CurrentLinesFacts.

#[local] Set Warnings "-clear-no-such-hyp".

Lemma linesFrom_bounds i o segs l :
  l ∈ linesFrom i o segs → o ≤ Line.startsAt l ∧ Line.startsAt l ≤ Line.endsAt l.
Proof.
  revert i o. induction segs as [|seg rest IH]; intros i o; simpl.
  - intros H. by apply elem_of_nil in H.
  - pose proof (len_nonneg seg). rewrite elem_of_cons. intros [-> | Hl]; [simpl; lia|].
    apply IH in Hl. lia.
Qed.

(** With the selection offsets in order, a line passes the test of
    [selection] exactly when it starts no later than the selection ends and
    ends no earlier than the selection starts. *)
Lemma lineIsSelected_interval a b l :
  a ≤ b → Line.startsAt l ≤ Line.endsAt l →
  lineIsSelected a b l = true ↔ Line.startsAt l ≤ b ∧ a ≤ Line.endsAt l.
Proof.
  intros Hab Hl. rewrite lineIsSelected_overlaps by done. unfold overlaps. split; lia.
Qed.

Lemma filter_all_false {A} (f : A → bool) (l : list A) :
  (∀ x, x ∈ l → f x = false) → List.filter f l = [].
Proof.
  induction l as [|x l IH]; intros Hnone; [done|].
  simpl. rewrite Hnone by apply list_elem_of_here.
  apply IH. intros y Hy. apply Hnone. by apply list_elem_of_further.
Qed.

Lemma filter_selected_none a b i o segs :
  a ≤ b → b < o → List.filter (lineIsSelected a b) (linesFrom i o segs) = [].
Proof.
  intros Hab Hbo. apply filter_all_false. intros l Hl.
  apply linesFrom_bounds in Hl as [? ?].
  apply not_true_iff_false. rewrite lineIsSelected_interval by lia. lia.
Qed.

(** Past the start of the selection, the selected lines are the first
    ones. *)
Lemma filter_selected_prefix a b i o segs :
  a ≤ b → a ≤ o →
  ∃ sel post,
    segs = sel ++ post
    ∧ List.filter (lineIsSelected a b) (linesFrom i o segs) = linesFrom i o sel.
Proof.
  intros Hab. revert i o. induction segs as [|seg rest IH]; intros i o Hao.
  - by exists [], [].
  - pose proof (len_nonneg seg) as Hseg.
    destruct (Z.le_gt_cases o b) as [Hin | Hout].
    + destruct (IH (i + 1) (o + len seg + 1)) as (sel & post & -> & Hfilter); [lia|].
      exists (seg :: sel), post. split; [done|].
      cbn [app linesFrom List.filter].
      assert (lineIsSelected a b (Line.mk seg (i + 1) o (o + len seg)) = true) as ->
        by (apply lineIsSelected_interval; simpl; lia).
      by rewrite Hfilter.
    + exists [], (seg :: rest). split; [done|].
      by rewrite filter_selected_none by lia.
Qed.

(** The selected lines are consecutive lines of the text. *)
Lemma filter_selected_run a b i o segs :
  a ≤ b →
  ∃ pre sel post,
    segs = pre ++ sel ++ post
    ∧ List.filter (lineIsSelected a b) (linesFrom i o segs)
      = linesFrom (i + Z.of_nat (length pre)) (o + len (closedSegments newline pre)) sel.
Proof.
  intros Hab. revert i o. induction segs as [|seg rest IH]; intros i o.
  - exists [], [], []. split; [done|]. done.
  - pose proof (len_nonneg seg) as Hseg.
    destruct (Z.lt_ge_cases (o + len seg) a) as [Hbefore | Hreach].
    + destruct (IH (i + 1) (o + len seg + 1)) as (pre & sel & post & -> & Hfilter).
      exists (seg :: pre), sel, post. split; [done|].
      cbn [app linesFrom List.filter].
      assert (lineIsSelected a b (Line.mk seg (i + 1) o (o + len seg)) = false) as ->.
      { apply not_true_iff_false. rewrite lineIsSelected_interval by (simpl; lia).
        simpl. lia. }
      rewrite Hfilter. unfold closedSegments. rewrite fmap_cons, concat_cons.
      fold (closedSegments newline pre).
      rewrite !len_app, len_cons, len_nil. simpl length.
      f_equal; lia.
    + destruct (Z.le_gt_cases o b) as [Hin | Hout].
      * destruct (filter_selected_prefix a b (i + 1) (o + len seg + 1) rest)
          as (sel & post & -> & Hfilter); [lia | lia|].
        exists [], (seg :: sel), post. split; [done|].
        cbn [app linesFrom List.filter length].
        assert (lineIsSelected a b (Line.mk seg (i + 1) o (o + len seg)) = true) as ->
          by (apply lineIsSelected_interval; simpl; lia).
        rewrite Hfilter.
        change (closedSegments newline []) with (@nil N). rewrite len_nil.
        rewrite !Z.add_0_r. done.
      * exists [], [], (seg :: rest). split; [done|].
        by rewrite filter_selected_none by lia.
Qed.

Lemma openedSegments_app sep l1 l2 :
  openedSegments sep (l1 ++ l2) = openedSegments sep l1 ++ openedSegments sep l2.
Proof. unfold openedSegments. by rewrite fmap_app, concat_app. Qed.

Lemma join_run sep pre sel post :
  sel ≠ [] →
  join [sep] (pre ++ sel ++ post)
  = closedSegments sep pre ++ join [sep] sel ++ openedSegments sep post.
Proof.
  intros Hsel. destruct sel as [|x sel]; [done|].
  change (pre ++ (x :: sel) ++ post) with (pre ++ x :: (sel ++ post)).
  rewrite join_middle, openedSegments_app, join_cons. by rewrite <- !app_assoc.
Qed.

Lemma split_run sep pre sel post :
  sel ≠ [] →
  Forall (λ seg, sep ∉ seg) pre → Forall (λ seg, sep ∉ seg) sel →
  Forall (λ seg, sep ∉ seg) post →
  split sep (closedSegments sep pre ++ join [sep] sel ++ openedSegments sep post)
  = pre ++ sel ++ post.
Proof.
  intros Hsel Hpre Hs Hpost. destruct sel as [|x sel]; [done|].
  inversion Hs as [|? ? Hx Hrest]; subst.
  rewrite join_cons, <- !app_assoc, <- openedSegments_app.
  rewrite split_middle; [done | done | done|]. by apply Forall_app.
Qed.

Lemma linesFrom_first_last i o sep sel :
  sel ≠ [] →
  ∃ first final,
    head (linesFrom i o sel) = Some first ∧ last (linesFrom i o sel) = Some final
    ∧ Line.startsAt first = o ∧ Line.endsAt final = o + len (join [sep] sel).
Proof.
  revert i o. induction sel as [|x sel IH]; intros i o Hsel; [done|].
  destruct sel as [|y sel].
  - eexists _, _. repeat split; reflexivity.
  - destruct (IH (i + 1) (o + len x + 1)) as (first & final & _ & Hlast & _ & Hend); [done|].
    eexists _, final. split; [reflexivity|]. split; [exact Hlast|]. split; [done|].
    rewrite Hend.
    change (join [sep] (x :: y :: sel)) with (x ++ [sep] ++ join [sep] (y :: sel)).
    rewrite !len_app, len_cons, len_nil. lia.
Qed.

(** The line the caret is on is found, and it is a line of the text. *)
Lemma position_line_found (el : TextArea) :
  0 ≤ selectionStart el → selectionStart el ≤ len (value el) →
  ∃ k l, Position.line (position el) = Some l ∧ lines el !! k = Some l
         ∧ Line.startsAt l ≤ selectionStart el ∧ selectionStart el ≤ Line.endsAt l.
Proof.
  intros Hlo Hhi. unfold position. cbn [Position.line].
  destruct (List.find _ (lines el)) as [l|] eqn:Hfind.
  - apply List.find_some in Hfind as [Hin Hl].
    apply andb_true_iff in Hl as [Hs He].
    apply list_elem_of_In, list_elem_of_lookup in Hin as [k Hk].
    exists k, l. repeat split; [done | lia | lia].
  - exfalso.
    destruct (linesFrom_cover 0 0 (split newline (value el)) (selectionStart el))
      as (l & Hin & Hs & He);
      [apply split_nonempty | done | rewrite split_joinedLength; lia|].
    rewrite <- lines_linesFrom in Hin. apply list_elem_of_In in Hin.
    apply (List.find_none _ _ Hfind) in Hin.
    apply andb_false_iff in Hin as [Hin | Hin]; lia.
Qed.

(** The lines [replaceCurrentLines] works on: consecutive lines of the
    text, at least one. *)
Lemma selected_lines_run (el : TextArea) :
  wellFormed el →
  ∃ pre sel post selected,
    split newline (value el) = pre ++ sel ++ post ∧ sel ≠ []
    ∧ selected
      = linesFrom (Z.of_nat (length pre)) (len (closedSegments newline pre)) sel
    ∧ match selection el with
      | Some snap => Some (Selection.lines snap)
      | None =>
          line ← Position.line (position el);
          current ← lineAt el (Line.lineNumber line);
          Some [current]
      end = Some selected.
Proof.
  intros (Hs & Hse & He).
  destruct (position_line_found el) as (k & l & Hline & Hk & Hls & Hle); [lia | lia|].
  unfold selection. destruct (Z.eqb_spec (selectionStart el) (selectionEnd el)) as [Heq | Hne].
  - destruct (line_decomposition el k l Hk)
      as (pre & post & Hlen & _ & _ & _ & Hsplit & _ & Hnum & Hstart & Hend).
    exists pre, [Line.text l], post, [l]. split; [done|]. split; [done|]. split.
    + cbn [linesFrom]. f_equal. destruct l as [t n s e]. cbn in *. f_equal; lia.
    + rewrite Hline. cbn [mbind option_bind].
      rewrite Hnum, ReplaceLineFacts.lineAt_lookup, Hk. done.
  - destruct (filter_selected_run (selectionStart el) (selectionEnd el) 0 0
                (split newline (value el)) Hse) as (pre & sel & post & Hsplit & Hfilter).
    rewrite !Z.add_0_l in Hfilter.
    exists pre, sel, post. eexists. split; [done|].
    cbn [Selection.lines]. rewrite lines_linesFrom, Hfilter.
    split; [|split; reflexivity].
    intros ->. cbn [linesFrom] in Hfilter.
    assert (l ∈ List.filter (lineIsSelected (selectionStart el) (selectionEnd el))
              (linesFrom 0 0 (split newline (value el)))) as Hin.
    { apply list_elem_of_In, List.filter_In. split.
      - apply list_elem_of_In. rewrite <- lines_linesFrom. apply list_elem_of_lookup. eauto.
      - apply lineIsSelected_interval; lia. }
    rewrite Hfilter in Hin. by apply elem_of_nil in Hin.
Qed.

Lemma execRaw_select_all (content : jsstring) :
  markerUnit ∉ content →
  execRaw (normalizeSelection content SELECT_ALL)
  = Raw.mk content (Some 0) (Some (len content)).
Proof.
  intros Hfree. unfold normalizeSelection.
  assert (includes content MARKER = false) as ->.
  { apply not_true_iff_false. by rewrite includes_marker_iff. }
  pose proof (execRaw_two [] content [] (not_elem_of_nil _) Hfree (not_elem_of_nil _)) as Hraw.
  rewrite !app_nil_r, len_nil in Hraw. by cbn [app] in Hraw.
Qed.

Lemma linesFrom_app i o l1 l2 :
  linesFrom i o (l1 ++ l2)
  = linesFrom i o l1
    ++ linesFrom (i + Z.of_nat (length l1)) (o + len (closedSegments newline l1)) l2.
Proof.
  revert i o. induction l1 as [|x l1 IH]; intros i o.
  - cbn [app linesFrom length]. change (closedSegments newline []) with (@nil N).
    rewrite len_nil. do 2 f_equal; lia.
  - change (closedSegments newline (x :: l1)) with ((x ++ [newline]) ++ closedSegments newline l1).
    cbn [app linesFrom length]. rewrite IH. do 2 f_equal.
    f_equal; [lia|]. rewrite !len_app, len_cons, len_nil. lia.
Qed.

Lemma results_of_texts (f : Line.t → jsstring) (selected all : list Line.t) i :
  omap id (mapFrom (λ line (_ : Z), Some (f line)) selected i) = f <$> selected.
Proof.
  revert i. induction selected as [|l ls IH]; intros i; [done|].
  simpl. by rewrite IH.
Qed.

Lemma results_of_null (selected : list Line.t) i :
  omap id (mapFrom (λ (_ : Line.t) (_ : Z), @None jsstring) selected i) = [].
Proof. revert i. induction selected as [|l ls IH]; intros i; [done | apply IH]. Qed.

Section WithHost.
Variable host : Host.

Lemma replaceCurrentLines_run (el : TextArea) callback options pre sel post selected :
  carriageReturn ∉ value el →
  split newline (value el) = pre ++ sel ++ post → sel ≠ [] →
  selected = linesFrom (Z.of_nat (length pre)) (len (closedSegments newline pre)) sel →
  match selection el with
  | Some snap => Some (Selection.lines snap)
  | None =>
      line ← Position.line (position el);
      current ← lineAt el (Line.lineNumber line);
      Some [current]
  end = Some selected →
  let content := join [newline] (callbackResults callback selected) in
  markerUnit ∉ content → carriageReturn ∉ content →
  ∃ dir top,
    replaceCurrentLines host el callback options
    = Some (mkTextArea
              (closedSegments newline pre ++ content ++ openedSegments newline post)
              (if default false (options ≫= selectReplaced)
               then len (closedSegments newline pre)
               else len (closedSegments newline pre) + len content)
              (len (closedSegments newline pre) + len content) dir top).
Proof.
  intros Hel Hsplit Hsel Hselected Hpick content Hfree Hplain.
  unfold replaceCurrentLines. rewrite Hpick. cbn [mbind option_bind].
  destruct (linesFrom_first_last (Z.of_nat (length pre)) (len (closedSegments newline pre))
              newline sel Hsel) as (first & final & Hhead & Hlast & Hstart & Hend).
  rewrite <- Hselected in Hhead, Hlast. rewrite Hhead, Hlast. cbn [mbind option_bind].
  fold (callbackResults callback selected). fold content.
  rewrite Hstart, Hend.
  pose proof (join_split newline (value el)) as Hvalue.
  rewrite Hsplit, join_run in Hvalue by done.
  destruct el as [v a b dir top]. cbn [value] in *. subst v.
  pose proof (len_nonneg (closedSegments newline pre)).
  pose proof (len_nonneg content).
  pose proof (len_nonneg (openedSegments newline post)).
  destruct (fireInput_between host (closedSegments newline pre) (join [newline] sel)
              (openedSegments newline post) content a b dir top) as (dir' & top' & Hfire);
    [done | done|].
  destruct (default false (options ≫= selectReplaced)).
  - rewrite execRaw_select_all by done. cbn [Raw.text]. rewrite Hfire.
    rewrite placeSelection_inside by (cbn [value]; rewrite ?len_app; lia).
    cbn [value selectionDirection scrollTop]. rewrite Z.add_0_r. eauto.
  - rewrite ReplaceLineFacts.execRaw_to_end by done. cbn [Raw.text]. rewrite Hfire.
    unfold placeSelection. cbn [Raw.selectionStart Raw.selectionEnd]. eauto.
Qed.

(** The lines picked are the lines of the selection, or the line of the
    caret when nothing is selected. *)
Lemma picked_lines (el : TextArea) (selected : list Line.t) :
  wellFormed el →
  match selection el with
  | Some snap => Some (Selection.lines snap)
  | None =>
      line ← Position.line (position el);
      current ← lineAt el (Line.lineNumber line);
      Some [current]
  end = Some selected →
  (∀ snap, selection el = Some snap → Selection.lines snap = selected)
  ∧ (selection el = None → (λ l, [l]) <$> Position.line (position el) = Some selected).
Proof.
  intros Hwf Hpick. split.
  - intros snap Hsnap. rewrite Hsnap in Hpick. by injection Hpick.
  - intros Hnone. rewrite Hnone in Hpick.
    destruct (position_line_found el) as (k & l & Hline & Hk & _);
      [by destruct Hwf as (? & ? & ?) | destruct Hwf as (? & ? & ?); lia|].
    destruct (line_decomposition el k l Hk) as (_ & _ & _ & _ & _ & _ & _ & _ & Hnum & _).
    rewrite Hline in Hpick |- *. cbn [mbind option_bind] in Hpick.
    rewrite Hnum, ReplaceLineFacts.lineAt_lookup, Hk in Hpick.
    cbn [mbind option_bind] in Hpick. by injection Hpick as <-.
Qed.

(** X21.  [replaceCurrentLines] on a text control whose selection lies in the
    text (and whose text holds no carriage return).  The lines it works on
    are consecutive lines of the text, at least one: the lines of the
    selection, or the line of the caret.  For every callback whose joined
    results hold neither a marker nor a carriage return it returns without
    an error; the text before and after those lines is untouched and they
    are replaced by the joined results; when no result holds a line break
    the lines of the new text are the old ones with the results in place
    of the lines worked on, a single empty line when every result is
    [null]; and the replaced text is selected with [selectReplaced], the
    caret left after it otherwise. *)
Theorem replaceCurrentLines_rewrites_run (el : TextArea) :
  wellFormed el → carriageReturn ∉ value el →
  ∃ pre post selected,
    Line.text <$> lines el = pre ++ (Line.text <$> selected) ++ post
    ∧ selected ≠ []
    ∧ (∀ snap, selection el = Some snap → Selection.lines snap = selected)
    ∧ (selection el = None → (λ l, [l]) <$> Position.line (position el) = Some selected)
    ∧ ∀ callback options,
        let results := callbackResults callback selected in
        let content := join [newline] results in
        let start := len (closedSegments newline pre) in
        markerUnit ∉ content → carriageReturn ∉ content →
        ∃ el',
          replaceCurrentLines host el callback options = Some el'
          ∧ value el' = closedSegments newline pre ++ content ++ openedSegments newline post
          ∧ (Forall (λ r, newline ∉ r) results →
             Line.text <$> lines el'
             = pre ++ (if decide (results = []) then [[]] else results) ++ post)
          ∧ selectionStart el'
            = (if default false (options ≫= selectReplaced) then start else start + len content)
          ∧ selectionEnd el' = start + len content.
Proof.
  intros Hwf Hel.
  destruct (selected_lines_run el Hwf) as (pre & sel & post & selected & Hsplit & Hsel & Hselected & Hpick).
  pose proof (split_free newline (value el)) as Hfree.
  rewrite Hsplit in Hfree. apply Forall_app in Hfree as [Hpre Hrest].
  apply Forall_app in Hrest as [_ Hpost].
  assert (Line.text <$> selected = sel) as Htexts by (by rewrite Hselected, linesFrom_text).
  exists pre, post, selected. rewrite Htexts, ReplaceLineFacts.texts_of_lines.
  split; [done|]. split; [by intros ->; subst sel|].
  destruct (picked_lines el selected Hwf Hpick) as [Hsnap Hcaret].
  split; [done|]. split; [done|].
  intros callback options results content start Hmarker Hplain.
  destruct (replaceCurrentLines_run el callback options pre sel post selected
              Hel Hsplit Hsel Hselected Hpick Hmarker Hplain) as (dir & top & ->).
  eexists. split; [done|]. cbn [value selectionStart selectionEnd].
  split; [done|]. split; [|done].
  intros Hlines. rewrite ReplaceLineFacts.texts_of_lines. cbn [value].
  subst content. fold results. destruct (decide (results = [])) as [Hnil | Hsome].
  - rewrite Hnil. cbn [join]. by rewrite split_middle by (done || apply not_elem_of_nil).
  - by rewrite split_run.
Qed.

(** X22.  Two callbacks, on a text control whose selection lies in the text
    and whose text holds neither a marker nor a carriage return.  One that
    returns each line's own content leaves the text as it is.  One that
    returns [null] for every line works on the lines of the selection, or
    on the line of the caret when nothing is selected, and leaves a single
    empty line in their place, between the lines before and the lines
    after them: with one line worked on the number of lines does not
    change. *)
Theorem replaceCurrentLines_identity_and_null (el : TextArea) options :
  wellFormed el → carriageReturn ∉ value el → markerUnit ∉ value el →
  (∃ el', replaceCurrentLines host el (λ line _ _, Some (Line.text line)) options = Some el'
          ∧ value el' = value el)
  ∧ (∃ el' (before selected after : list Line.t),
       replaceCurrentLines host el (λ _ _ _, None) options = Some el'
       ∧ lines el = before ++ selected ++ after
       ∧ selected ≠ []
       ∧ (∀ snap, selection el = Some snap → Selection.lines snap = selected)
       ∧ (selection el = None → (λ l, [l]) <$> Position.line (position el) = Some selected)
       ∧ Line.text <$> lines el' = (Line.text <$> before) ++ [[]] ++ (Line.text <$> after)
       ∧ (length selected = 1%nat → length (lines el') = length (lines el))).
Proof.
  intros Hwf Hel Hclean.
  destruct (selected_lines_run el Hwf)
    as (pre & sel & post & selected & Hsplit & Hsel & Hselected & Hpick).
  pose proof (join_split newline (value el)) as Hvalue.
  rewrite Hsplit, join_run in Hvalue by done.
  assert (Line.text <$> selected = sel) as Htexts by (by rewrite Hselected, linesFrom_text).
  split.
  - destruct (replaceCurrentLines_run el (λ line _ _, Some (Line.text line)) options
                pre sel post selected Hel Hsplit Hsel Hselected Hpick) as (dir & top & ->).
    + unfold callbackResults, mapIndexed. rewrite (results_of_texts Line.text selected selected), Htexts.
      rewrite <- Hvalue in Hclean. set_solver.
    + unfold callbackResults, mapIndexed. rewrite (results_of_texts Line.text selected selected), Htexts.
      rewrite <- Hvalue in Hel. set_solver.
    + eexists. split; [done|]. cbn [value].
      unfold callbackResults, mapIndexed.
      by rewrite (results_of_texts Line.text selected selected), Htexts.
  - destruct (replaceCurrentLines_run el (λ _ _ _, None) options
                pre sel post selected Hel Hsplit Hsel Hselected Hpick) as (dir & top & ->).
    + unfold callbackResults, mapIndexed. rewrite results_of_null. apply not_elem_of_nil.
    + unfold callbackResults, mapIndexed. rewrite results_of_null. apply not_elem_of_nil.
    + pose proof (split_free newline (value el)) as Hfree.
      rewrite Hsplit in Hfree. apply Forall_app in Hfree as [Hpre Hrest].
      apply Forall_app in Hrest as [_ Hpost].
      destruct (picked_lines el selected Hwf Hpick) as [Hsnap Hcaret].
      assert (lines el
              = linesFrom 0 0 pre ++ selected
                ++ linesFrom (0 + Z.of_nat (length pre) + Z.of_nat (length sel))
                     (0 + len (closedSegments newline pre) + len (closedSegments newline sel))
                     post) as Hlines.
      { rewrite lines_linesFrom, Hsplit, !linesFrom_app, Hselected.
        by rewrite !Z.add_0_l. }
      eexists _, (linesFrom 0 0 pre), selected, _.
      split; [done|]. split; [exact Hlines|].
      split; [by intros ->; subst sel|]. split; [done|]. split; [done|].
      assert (Line.text <$> lines
                (mkTextArea
                   (closedSegments newline pre
                    ++ join [newline] (callbackResults (λ _ _ _, None) selected)
                    ++ openedSegments newline post)
                   (if default false (options ≫= selectReplaced)
                    then len (closedSegments newline pre)
                    else len (closedSegments newline pre)
                         + len (join [newline] (callbackResults (λ _ _ _, None) selected)))
                   (len (closedSegments newline pre)
                    + len (join [newline] (callbackResults (λ _ _ _, None) selected))) dir top)
              = pre ++ [[]] ++ post) as Hafter.
      { rewrite ReplaceLineFacts.texts_of_lines. cbn [value].
        unfold callbackResults, mapIndexed. rewrite results_of_null. cbn [join].
        by rewrite split_middle by (done || apply not_elem_of_nil). }
      split.
      * by rewrite Hafter, !linesFrom_text.
      * intros Hone.
        rewrite <- (length_fmap Line.text (lines (mkTextArea _ _ _ _ _))), Hafter.
        rewrite <- (length_fmap Line.text (lines el)), ReplaceLineFacts.texts_of_lines, Hsplit.
        rewrite <- Htexts, !length_app, length_fmap, Hone. done.
Qed.

End WithHost.

Lemma replaceCurrentLines_identity_and_null_witness :
  let el := mkTextArea (lit "one" ++ [newline] ++ lit "two") 5 5 none 0 in
  let host := mkHost false (λ _ _, false) (λ _, 0) in
  (∃ el', replaceCurrentLines host el (λ line _ _, Some (Line.text line)) None = Some el'
          ∧ value el' = value el)
  ∧ (∃ el' (before selected after : list Line.t),
       replaceCurrentLines host el (λ _ _ _, None) None = Some el'
       ∧ lines el = before ++ selected ++ after
       ∧ selected ≠ []
       ∧ (∀ snap, selection el = Some snap → Selection.lines snap = selected)
       ∧ (selection el = None → (λ l, [l]) <$> Position.line (position el) = Some selected)
       ∧ Line.text <$> lines el' = (Line.text <$> before) ++ [[]] ++ (Line.text <$> after)
       ∧ (length selected = 1%nat → length (lines el') = length (lines el))).
Proof.
  apply (replaceCurrentLines_identity_and_null (mkHost false (λ _ _, false) (λ _, 0))
           (mkTextArea (lit "one" ++ [newline] ++ lit "two") 5 5 none 0) None).
  - vm_compute. repeat split; congruence.
  - by_evaluation.
  - by_evaluation.
Defined.

(** The three lines ["one"], ["two"] and ["three"] with a selection from
    the first line into the second, and a callback that quotes each line:
    the two lines are rewritten and the third is untouched. *)
Lemma replaceCurrentLines_rewrites_run_witness :
  let host := mkHost false (λ _ _, false) (λ _, 0) in
  let el :=
    mkTextArea (lit "one" ++ [newline] ++ lit "two" ++ [newline] ++ lit "three") 1 6 none 0 in
  ∃ el',
    replaceCurrentLines host el (λ line _ _, Some (lit "> " ++ Line.text line)) None = Some el'
    ∧ value el'
      = lit "> one" ++ [newline] ++ lit "> two" ++ [newline] ++ lit "three"
    ∧ Line.text <$> lines el' = [lit "> one"; lit "> two"; lit "three"]
    ∧ selectionStart el' = 11 ∧ selectionEnd el' = 11.
Proof.
  destruct (replaceCurrentLines_rewrites_run (mkHost false (λ _ _, false) (λ _, 0))
              (mkTextArea (lit "one" ++ [newline] ++ lit "two" ++ [newline] ++ lit "three")
                 1 6 none 0))
    as (pre & post & selected & Htexts & _ & Hsnap & _ & Hrun);
    [vm_compute; repeat split; congruence | by_evaluation|].
  specialize (Hsnap _ eq_refl). cbn [Selection.lines] in Hsnap. subst selected.
  assert (pre = [] ∧ post = [lit "three"]) as [-> ->].
  { vm_compute in Htexts.
    destruct pre as [|a [|b [|c pre]]]; cbn [app] in Htexts.
    - injection Htexts as <-. done.
    - injection Htexts as _ Hbad. discriminate Hbad.
    - injection Htexts as _ _ Hbad. discriminate Hbad.
    - injection Htexts as _ _ _ Hbad. destruct pre; discriminate Hbad. }
  destruct (Hrun (λ line _ _, Some (lit "> " ++ Line.text line)) None)
    as (el' & Heq & Hvalue & Hlines & Hstart & Hend); [by_evaluation | by_evaluation|].
  exists el'. split; [exact Heq|]. split; [exact Hvalue|]. split.
  - apply Hlines. by_evaluation.
  - split; [exact Hstart | exact Hend].
Defined.

End CurrentLinesFacts.

(** ** Selecting a range *)

Module SelectFacts.

(** X20.  [select] with a range inside the text, followed by [selection]: the
    text is untouched; a non-empty range comes back as the snapshot of
    exactly that range and its text; an empty range gives no snapshot and a
    caret at its offset. *)
Theorem select_range_then_selection (el : TextArea) (a b : Z) :
  0 ≤ a → a ≤ b → b ≤ len (value el) →
  let el' := select el (SelectRange a b) in
  value el' = value el
  ∧ Position.cursorAt (position el') = a
  ∧ (a = b → selection el' = None)
  ∧ (a < b →
     ∃ snap, selection el' = Some snap
             ∧ Selection.text snap = slice (value el) a b
             ∧ Selection.selectionStart snap = a ∧ Selection.selectionEnd snap = b).
Proof.
  intros Ha Hab Hb el'. subst el'.
  assert (select el (SelectRange a b) = mkTextArea (value el) a b none (scrollTop el)) as ->.
  { unfold select, setSelectionRange, setTheSelectionRange.
    rewrite !toUnsignedLong_nonneg by lia.
    rewrite (Z.min_l a), (Z.min_l b) by lia. f_equal.
    destruct (Z.leb_spec b a); lia. }
  unfold position, selection.
  cbn [value selectionStart selectionEnd Position.cursorAt].
  split; [done|]. split; [done|]. split.
  - intros ->. by rewrite Z.eqb_refl.
  - intros Hlt. rewrite (proj2 (Z.eqb_neq _ _)) by lia. eexists. split; [done|]. done.
Qed.

Lemma select_range_then_selection_witness :
  let el' := select (mkTextArea (lit "hello world") 0 0 none 0) (SelectRange 0 5) in
  value el' = lit "hello world"
  ∧ Position.cursorAt (position el') = 0
  ∧ (0 = 5 → selection el' = None)
  ∧ (0 < 5 →
     ∃ snap, selection el' = Some snap
             ∧ Selection.text snap = slice (lit "hello world") 0 5
             ∧ Selection.selectionStart snap = 0 ∧ Selection.selectionEnd snap = 5).
Proof.
  apply (select_range_then_selection (mkTextArea (lit "hello world") 0 0 none 0) 0 5);
    vm_compute; congruence.
Defined.

End SelectFacts.

(** ** The shortcut matcher: parsing, aliases, registration *)

Module ShortcutMoreFacts.

Import ShortcutFacts.

#[local] Set Warnings "-clear-no-such-hyp".

Section WithPlatform.
Variable toLowerCase : jsstring → jsstring.
Variable isMac : bool.
Variable inheritedToString : jsstring → jsstring.
Variable Handler : Type.

Abbreviation parseShortcut := (parseShortcut toLowerCase isMac).
Abbreviation matchesShortcut := (matchesShortcut toLowerCase isMac inheritedToString).
Abbreviation keyMatches := (keyMatches toLowerCase inheritedToString).
Abbreviation dispatch := (dispatch toLowerCase isMac inheritedToString Handler).
Abbreviation listener := (listener toLowerCase isMac inheritedToString Handler).
Abbreviation keydown := (keydown toLowerCase isMac inheritedToString Handler).

Abbreviation keyOfPart := (keyOfPart isMac).

Lemma foldl_parseStep acc parts :
  (∀ m, m ∈ modifiers (foldl (parseStep isMac) acc parts)
        ↔ m ∈ modifiers acc
          ∨ ∃ part, part ∈ parts ∧ isModifier (normalize isMac part) = Some m)
  ∧ key (foldl (parseStep isMac) acc parts) = default (key acc) (last (omap keyOfPart parts)).
Proof.
  revert acc. induction parts as [|part parts IH]; intros acc.
  - split; [|done]. intros m. split; [by left|].
    intros [? | (part & Hpart & _)]; [done | by apply elem_of_nil in Hpart].
  - cbn [foldl]. destruct (IH (parseStep isMac acc part)) as [IHm IHk]. split.
    + intros m. rewrite IHm. unfold parseStep.
      destruct (isModifier (normalize isMac part)) as [m'|] eqn:Hpart; cbn [modifiers].
      * rewrite elem_of_union, elem_of_singleton. split.
        -- intros [[-> | ?] | (p' & Hp' & Hm')]; [right | by left | right].
           ++ exists part. split; [apply list_elem_of_here | done].
           ++ exists p'. split; [by apply list_elem_of_further | done].
        -- intros [? | (p' & Hp' & Hm')]; [by left; right|].
           apply elem_of_cons in Hp' as [-> | Hp'].
           ++ left; left. congruence.
           ++ right. by exists p'.
      * split.
        -- intros [? | (p' & Hp' & Hm')]; [by left | right].
           exists p'. split; [by apply list_elem_of_further | done].
        -- intros [? | (p' & Hp' & Hm')]; [by left|].
           apply elem_of_cons in Hp' as [-> | Hp']; [congruence|].
           right. by exists p'.
    + rewrite IHk.
      change (omap keyOfPart (part :: parts))
        with (match keyOfPart part with
              | Some n => n :: omap keyOfPart parts
              | None => omap keyOfPart parts
              end).
      unfold parseStep.
      destruct (isModifier (normalize isMac part)) as [m'|] eqn:Hpart; cbn [key].
      * assert (keyOfPart part = None) as -> by (unfold keyOfPart; by rewrite Hpart). done.
      * assert (keyOfPart part = Some (normalize isMac part)) as ->
          by (unfold keyOfPart; by rewrite Hpart).
        rewrite last_cons. by destruct (last (omap keyOfPart parts)).
Qed.

(** X23.  What [parseShortcut] returns, by the parts of the lower-cased
    shortcut: its modifiers are exactly the modifiers some part stands for,
    whatever their order and number; its key is the last part that is not
    a modifier, the empty string when there is none. *)
Theorem parseShortcut_by_parts (shortcut : jsstring) :
  let parts := split plus (toLowerCase shortcut) in
  (∀ m, m ∈ modifiers (parseShortcut shortcut)
        ↔ ∃ part, part ∈ parts ∧ isModifier (normalize isMac part) = Some m)
  ∧ key (parseShortcut shortcut) = default (Str []) (last (omap keyOfPart parts)).
Proof.
  intros parts. unfold Shortcuts.parseShortcut. fold parts.
  destruct (foldl_parseStep (mkParsed (Str []) ∅) parts) as [Hm Hk].
  split; [|done]. intros m. rewrite Hm. cbn [modifiers]. set_solver.
Qed.

Lemma parse_modifier_and_key shortcut (alias k m : jsstring) :
  toLowerCase shortcut = alias ++ [plus] ++ k →
  plus ∉ alias → plus ∉ k →
  isModifier (normalize isMac alias) = Some m →
  isModifier (normalize isMac k) = None →
  parseShortcut shortcut = mkParsed (normalize isMac k) ({[ m ]} ∪ ∅).
Proof.
  intros Hlow Halias Hk Hm Hkey. unfold Shortcuts.parseShortcut. rewrite Hlow.
  cbn [app]. rewrite split_app_sep, split_free_segment by done.
  cbn [foldl]. unfold parseStep at 2. rewrite Hm. cbn [key modifiers].
  unfold parseStep. rewrite Hkey. by cbn [key modifiers].
Qed.

Lemma activeModifiers_only_meta event :
  activeModifiers event = {[ lit "meta" ]} ∪ ∅ ↔ onlyModifier event false true.
Proof.
  destruct modifier_names_distinct as (? & ? & ? & ? & ? & ?).
  unfold activeModifiers, onlyModifier.
  destruct (Event.ctrlKey event), (Event.metaKey event),
    (Event.altKey event), (Event.shiftKey event);
    (split; [intros Heq | intros (? & ? & ? & ?); try done; set_solver]);
    try (repeat split; done); exfalso; set_solver.
Qed.

Lemma activeModifiers_only_control event :
  activeModifiers event = {[ lit "control" ]} ∪ ∅ ↔ onlyModifier event true false.
Proof.
  destruct modifier_names_distinct as (? & ? & ? & ? & ? & ?).
  unfold activeModifiers, onlyModifier.
  destruct (Event.ctrlKey event), (Event.metaKey event),
    (Event.altKey event), (Event.shiftKey event);
    (split; [intros Heq | intros (? & ? & ? & ?); try done; set_solver]);
    try (repeat split; done); exfalso; set_solver.
Qed.

Lemma isModifier_aliases :
  isModifier (normalize isMac (lit "command")) = Some (lit "meta")
  ∧ isModifier (normalize isMac (lit "ctrl")) = Some (lit "control")
  ∧ isModifier (normalize isMac (lit "mod"))
    = Some (if isMac then lit "meta" else lit "control").
Proof. destruct isMac; vm_compute; done. Qed.

(** X24.  The alias [mod] stands for the platform's modifier: a shortcut that
    reads [mod+k] once lower-cased, [k] being a single part that is not a
    modifier, matches exactly the events whose key matches [k] and during
    which only meta is held on a Mac, only control elsewhere. *)
Theorem mod_shortcut_follows_platform (shortcut k : jsstring) (event : Event.t) :
  toLowerCase shortcut = lit "mod" ++ [plus] ++ k →
  plus ∉ k → isModifier (normalize isMac k) = None →
  matchesShortcut event shortcut = true
  ↔ keyMatches event (normalize isMac k) = true
    ∧ onlyModifier event (negb isMac) isMac.
Proof.
  intros Hlow Hk Hkey.
  destruct isModifier_aliases as (_ & _ & Hmod).
  rewrite matchesShortcut_iff.
  rewrite (parse_modifier_and_key shortcut (lit "mod") k _ Hlow) by (done || by_evaluation).
  cbn [key modifiers]. destruct isMac.
  - by rewrite activeModifiers_only_meta.
  - by rewrite activeModifiers_only_control.
Qed.

(** X25.  [metaCombination] of one key gives two shortcuts; lower-casing leaving
    them as they are and the key being a single part that is not a
    modifier, the first matches exactly the events with a matching key and
    only meta held, the second those with only control held. *)
Theorem metaCombination_matches (k : jsstring) (event : Event.t) :
  toLowerCase (lit "command+" ++ k) = lit "command+" ++ k →
  toLowerCase (lit "ctrl+" ++ k) = lit "ctrl+" ++ k →
  plus ∉ k → isModifier (normalize isMac k) = None →
  ∃ forMeta forControl,
    metaCombination [k] = [forMeta; forControl]
    ∧ (matchesShortcut event forMeta = true
       ↔ keyMatches event (normalize isMac k) = true ∧ onlyModifier event false true)
    ∧ (matchesShortcut event forControl = true
       ↔ keyMatches event (normalize isMac k) = true ∧ onlyModifier event true false).
Proof.
  intros Hcommand Hctrl Hk Hkey.
  destruct isModifier_aliases as (Hcmd & Hctl & _).
  eexists _, _. split; [reflexivity|]. cbn [join].
  split.
  - rewrite matchesShortcut_iff.
    rewrite (parse_modifier_and_key _ (lit "command") k _ Hcommand) by (done || by_evaluation).
    cbn [key modifiers]. by rewrite activeModifiers_only_meta.
  - rewrite matchesShortcut_iff.
    rewrite (parse_modifier_and_key _ (lit "ctrl") k _ Hctrl) by (done || by_evaluation).
    cbn [key modifiers]. by rewrite activeModifiers_only_control.
Qed.

Lemma dispatch_app bs1 bs2 event :
  dispatch (bs1 ++ bs2) event
  = match dispatch bs1 event with
    | [] => dispatch bs2 event
    | call :: calls => call :: calls
    end.
Proof.
  induction bs1 as [|b bs1 IH]; [done|]. simpl.
  by destruct (Shortcuts.matchesShortcut _ _ _ event (shortcut _ b)).
Qed.

Lemma dispatch_same_handler shortcuts (h : Handler) event :
  dispatch ((λ s, mkKeyBinding Handler s h) <$> shortcuts) event
  = if existsb (matchesShortcut event) shortcuts then [(h, event)] else [].
Proof.
  induction shortcuts as [|s ss IH]; [done|]. simpl.
  by destruct (Shortcuts.matchesShortcut _ _ _ event s).
Qed.

(** X26.  Registration order is priority: after [bind], an event that an earlier
    binding matches still calls that binding's handler and only it; an
    event that no earlier binding matches calls the new handler exactly
    when one of the new shortcuts matches it. *)
Theorem bind_keeps_priority (ks : KeyboardShortcuts Handler)
    (sc : jsstring + list jsstring) (h : Handler) (event : Event.t) :
  let shortcuts := match sc with inl s => [s] | inr ss => ss end in
  (listener ks event ≠ [] → listener (bind _ ks sc h) event = listener ks event)
  ∧ (listener ks event = [] →
     listener (bind _ ks sc h) event
     = if existsb (matchesShortcut event) shortcuts then [(h, event)] else []).
Proof.
  intros shortcuts. unfold Shortcuts.listener.
  rewrite bind_appends, dispatch_app. fold shortcuts. split.
  - intros Hcalled. by destruct (dispatch (bindings _ ks) event).
  - intros ->. apply dispatch_same_handler.
Qed.

(** X27.  After [reset] the matcher is inert: whatever is bound afterwards, a
    key press calls no handler, the listener being detached. *)
Theorem reset_makes_inert (ks : KeyboardShortcuts Handler)
    (later : list ((jsstring + list jsstring) * Handler)) (event : Event.t) :
  bindings _ (reset _ ks) = []
  ∧ keydown (foldl (λ st '(sc, h), bind _ st sc h) (reset _ ks) later) event = [].
Proof.
  split; [done|].
  assert (attached _ (foldl (λ st '(sc, h), bind _ st sc h) (reset _ ks) later) = false)
    as Hoff.
  { generalize (reset Handler ks), (eq_refl : attached _ (reset Handler ks) = false).
    induction later as [|[sc h] later IH]; intros st Hst; [done|].
    cbn [foldl]. apply IH. done. }
  unfold Shortcuts.keydown. by rewrite Hoff.
Qed.

End WithPlatform.

Lemma mod_shortcut_follows_platform_witness :
  matchesShortcut asciiToLowerCase true (λ s, s)
    (Event.mk (lit "b") (lit "KeyB") false true false false) (lit "Mod+B") = true
  ↔ keyMatches asciiToLowerCase (λ s, s)
      (Event.mk (lit "b") (lit "KeyB") false true false false) (normalize true (lit "b")) = true
    ∧ onlyModifier (Event.mk (lit "b") (lit "KeyB") false true false false) (negb true) true.
Proof.
  apply (mod_shortcut_follows_platform asciiToLowerCase true (λ s, s) (lit "Mod+B") (lit "b")
           (Event.mk (lit "b") (lit "KeyB") false true false false)); by_evaluation.
Defined.

Lemma metaCombination_matches_witness :
  ∃ forMeta forControl,
    metaCombination [lit "b"] = [forMeta; forControl]
    ∧ (matchesShortcut asciiToLowerCase false (λ s, s)
         (Event.mk (lit "b") (lit "KeyB") true false false false) forMeta = true
       ↔ keyMatches asciiToLowerCase (λ s, s)
           (Event.mk (lit "b") (lit "KeyB") true false false false)
           (normalize false (lit "b")) = true
         ∧ onlyModifier (Event.mk (lit "b") (lit "KeyB") true false false false) false true)
    ∧ (matchesShortcut asciiToLowerCase false (λ s, s)
         (Event.mk (lit "b") (lit "KeyB") true false false false) forControl = true
       ↔ keyMatches asciiToLowerCase (λ s, s)
           (Event.mk (lit "b") (lit "KeyB") true false false false)
           (normalize false (lit "b")) = true
         ∧ onlyModifier (Event.mk (lit "b") (lit "KeyB") true false false false) true false).
Proof.
  apply (metaCombination_matches asciiToLowerCase false (λ s, s) (lit "b")
           (Event.mk (lit "b") (lit "KeyB") true false false false)); by_evaluation.
Defined.

Lemma bind_keeps_priority_witness :
  let ks := bind nat (create nat) (inl (lit "ctrl+b")) 1%nat in
  let ev := Event.mk (lit "b") (lit "KeyB") true false false false in
  listener asciiToLowerCase false (λ s, s) nat (bind nat ks (inl (lit "ctrl+b")) 2%nat) ev
  = listener asciiToLowerCase false (λ s, s) nat ks ev.
Proof.
  apply (bind_keeps_priority asciiToLowerCase false (λ s, s) nat
           (bind nat (create nat) (inl (lit "ctrl+b")) 1%nat) (inl (lit "ctrl+b")) 2%nat
           (Event.mk (lit "b") (lit "KeyB") true false false false)).
  vm_compute. discriminate.
Defined.

End ShortcutMoreFacts.
